(** * DiffCut: cutting a line window out of a single-hunk git diff

    A shallow embedding of the Go package [parser] (function [DiffCut] and
    its helpers [scanFileHeader], [scanHunkHeader], [scanHunkLine],
    [strCircBuf] and [concat]) together with the properties its
    specification states about it, further properties of that code, and
    the checks two callers' packages make on their inputs ([Validate] of
    package [pullreq], [sanitizeExportInput] of package [space]). *)

From Stdlib Require Import ZArith String Ascii Bool Lia.
From stdpp Require Import base list.
From Equations Require Import Equations.
From Equations.Prop Require Import Logic.

Local Open Scope Z_scope.

(** ** Go's [int]

    [int] is a 64-bit two's complement integer.  Values are kept in [Z];
    every [++], [--] and [+] of the source goes through [wrap].  Loop
    indices that range over [0 .. n) for an [int] [n], and slice lengths,
    cannot overflow and are kept as they are. *)

Definition wrap (z : Z) : Z := (z + 2 ^ 63) mod 2 ^ 64 - 2 ^ 63.

Definition incr (z : Z) : Z := wrap (z + 1).
Definition decr (z : Z) : Z := wrap (z - 1).

(** [len(s)] of a slice, as an [int]. *)
Definition len {A} (l : list A) : Z := Z.of_nat (length l).

(** ** Results of code that may panic

    A Go run-time panic (negative capacity given to [make], index out of
    range) ends the call without a return value. *)

Inductive Res (A : Type) : Type :=
| Ok (a : A)
| Panic.
Arguments Ok {A} a.
Arguments Panic {A}.

#[global] Instance Res_bind : MBind Res := fun A B k r =>
  match r with
  | Ok a => k a
  | Panic => Panic
  end.

(** [l[i]] and [l[i] = x] on a slice: out of range panics. *)
Definition index {A} (l : list A) (i : Z) : Res A :=
  if (0 <=? i) && (i <? len l)
  then match l !! Z.to_nat i with Some x => Ok x | None => Panic end
  else Panic.

Definition store {A} (l : list A) (i : Z) (x : A) : Res (list A) :=
  if (0 <=? i) && (i <? len l)
  then Ok (<[Z.to_nat i := x]> l)
  else Panic.

(** ** Data model (package [types]) *)

Record HunkHeader := mkHunkHeader {
  OldLine : Z;
  OldSpan : Z;
  NewLine : Z;
  NewSpan : Z
}.

Record Hunk := mkHunk {
  HunkHeader_of : HunkHeader;
  Lines : list string
}.

Record DiffCutParams := mkParams {
  LineStart : Z;
  LineStartNew : bool;
  LineEnd : Z;
  LineEndNew : bool;
  BeforeLines : Z;
  AfterLines : Z;
  LineLimit : Z
}.

(** The zero values [types.HunkHeader{}] and [types.Hunk{}]. *)
Definition zeroHunkHeader : HunkHeader := mkHunkHeader 0 0 0 0.
Definition zeroHunk : Hunk := mkHunk zeroHunkHeader [].

(** Error values: [types.ErrHunkNotFound], [io.EOF], and any other error a
    reader or the scanner can report (told apart by a code). *)
Inductive error :=
| ErrHunkNotFound
| io_EOF
| ErrRead (code : nat).

(** ** [bufio.Scanner] over an [io.Reader], split in lines

    A reader is the list of lines it delivers and the error that ends it
    ([io.EOF] for a regular end).  A reader may hand over its last data
    together with that error: [rd_ahead] counts the final lines that
    arrive in the same read as the error, so that the scanner has recorded
    the error while these lines are still to be returned by [Scan].

    The lines are the tokens the scanner returns.  The scanner of
    [bufio.NewScanner] has a buffer of [bufio.MaxScanTokenSize] bytes at
    most: at a line that does not fit it the scanning ends with
    [bufio.ErrTooLong], so that such a stream is the reader of the lines
    before that line, ended by that error.  A property that goes by the
    lines of a stream and promises what is returned asks that they fit
    ([fitsBuffer]). *)

Record Reader := mkReader {
  rd_lines : list string;
  rd_end : error;
  rd_ahead : nat
}.

Record Scanner := mkScanner {
  text : string;            (* the token of the last Scan *)
  pending : list string;    (* the lines not yet returned *)
  ending : error;           (* how the reader ends *)
  ahead : nat;
  hit : bool                (* the reader's final error has been recorded *)
}.

Definition NewScanner (r : Reader) : Scanner :=
  mkScanner EmptyString (rd_lines r) (rd_end r) (rd_ahead r) false.

Definition Scan (s : Scanner) : bool * Scanner :=
  match pending s with
  | [] => (false, mkScanner EmptyString [] (ending s) (ahead s) true)
  | l :: rest =>
      (true, mkScanner l rest (ending s) (ahead s)
                       (hit s || (length rest <? ahead s)%nat))
  end.

Definition Text (s : Scanner) : string := text s.

(** [Err] returns the first error that is not [io.EOF]. *)
Definition Err (s : Scanner) : option error :=
  if hit s
  then match ending s with io_EOF => None | e => Some e end
  else None.

(** ** Line actions *)

Definition diffAction := ascii.

Definition actionUnchanged : diffAction := " "%char.
Definition actionRemoved : diffAction := "-"%char.
Definition actionAdded : diffAction := "+"%char.

Definition action_eqb (a b : diffAction) : bool := Ascii.eqb a b.
Definition action_neq (a b : diffAction) : bool := negb (Ascii.eqb a b).

(** [diffAction(s[0])]: indexing an empty string panics. *)
Definition firstAction (s : string) : Res diffAction :=
  match s with
  | EmptyString => Panic
  | String c _ => Ok c
  end.

(** [scanHunkLine] (source lines 188-204): returns [(line, action, err)]
    and the scanner after it. *)
Definition scanHunkLine (scan : Scanner)
  : (string * diffAction * option error) * Scanner :=
  let '(ok, scan) := Scan scan in
  if negb ok then ((EmptyString, actionUnchanged, Err scan), scan)
  else
    let line := Text scan in
    match line with
    | EmptyString =>
        ((EmptyString, actionUnchanged, Some ErrHunkNotFound), scan)
    | String action _ =>
        if action_neq action actionRemoved && action_neq action actionAdded
           && action_neq action actionUnchanged
        then ((EmptyString, actionUnchanged, None), scan)
        else ((line, action, None), scan)
    end.

(** ** The ring buffer [strCircBuf] (source lines 206-249)

    [entries_cap] is [cap(b.entries)]: fixed by [make] and left unchanged
    by every [append], which the code only does below capacity.  [make]
    panics on a negative capacity; that the memory of the machine bounds
    the capacity is not modelled: [make] also panics on a capacity whose
    elements take more than the runtime allocates, and a property that
    promises what [DiffCut] does once the buffer is made asks for a
    capacity [make] gives ([makeGives]). *)

Record strCircBuf := mkBuf {
  head : Z;
  entries : list string;
  entries_cap : Z
}.

Definition newStrCircBuf (size : Z) : Res strCircBuf :=
  if size <? 0 then Panic          (* make: cap out of range *)
  else Ok (mkBuf (-1) [] size).

Definition push (b : strCircBuf) (s : string) : Res strCircBuf :=
  let n := entries_cap b in
  if n =? 0 then Ok b
  else
    let head1 := incr (head b) in
    if len (entries b) <? n
    then Ok (mkBuf head1 (entries b ++ [s]) n)
    else
      let head2 := if head1 >=? n then 0 else head1 in
      es ← store (entries b) head2 s;
      Ok (mkBuf head2 es n).

(** The loop of [lines]: [k] iterations are left, [i] is the index. *)
Fixpoint linesFrom (b : strCircBuf) (n : Z) (k : nat) (i : Z)
  : Res (list string) :=
  match k with
  | O => Ok []
  | S k' =>
      let idx := Z.rem (wrap (wrap (head b + 1) + i)) n in
      x ← index (entries b) idx;
      rest ← linesFrom b n k' (i + 1);
      Ok (x :: rest)
  end.

Definition lines (b : strCircBuf) : Res (list string) :=
  let n := entries_cap b in
  if len (entries b) <? n then Ok (entries b)
  else linesFrom b n (Z.to_nat n) 0.

(** ** [concat] (source lines 251-265)

    [copy(dst, src)] overwrites the first [min(len(dst), len(src))]
    elements of [dst]; [copyAt res n m] is [copy(res[n:], m)]. *)

Definition copy {T} (dst src : list T) : list T :=
  take (length dst) src ++ drop (length src) dst.

Definition copyAt {T} (res : list T) (n : nat) (m : list T) : list T :=
  take n res ++ copy (drop n res) m.

Fixpoint totalLen {T} (a : list (list T)) : nat :=
  match a with
  | [] => 0%nat
  | m :: a' => (length m + totalLen a')%nat
  end.

Fixpoint concatFill {T} (res : list T) (n : nat) (a : list (list T))
  : list T :=
  match a with
  | [] => res
  | m :: a' => concatFill (copyAt res n m) (n + length m) a'
  end.

Definition concat {T} (zero : T) (a : list (list T)) : list T :=
  concatFill (replicate (totalLen a) zero) 0 a.

(** ** The scan loop of [DiffCut]: its variables and its exits *)

Record cutState := mkCut {
  currentOldLine : Z;
  currentNewLine : Z;
  inCut : bool;
  diffCutHeader : HunkHeader;
  diffCut : list string;
  linesBeforeBuf : strCircBuf
}.

(** The three [break]s of the loop: the requested range is exceeded, the
    hunk's lines are over, the safety break. *)
Inductive breakAt := AtRangeEnd | AtTerminator | AtLineLimit.

(** How the loop is left: by [return err], or by a [break] with the value
    of [err], the loop's variables and the scanner at that point. *)
Inductive loopExit :=
| LoopReturn (err : error)
| LoopBreak (at_ : breakAt) (err : option error) (st : cutState)
            (scan : Scanner).

(** One run of the loop body (source lines 44-92) either leaves the loop or
    goes round again. *)
Inductive iteration :=
| Done (e : loopExit)
| Next (st : cutState) (scan : Scanner).

(** "exceeded the requested line range", "not yet in the requested line
    range" *)
Definition pastLineEnd (params : DiffCutParams) (st : cutState) : bool :=
  LineEndNew params && (currentNewLine st >? LineEnd params)
  || negb (LineEndNew params) && (currentOldLine st >? LineEnd params).

Definition beforeLineStart (params : DiffCutParams) (st : cutState) : bool :=
  LineStartNew params && (currentNewLine st <? LineStart params)
  || negb (LineStartNew params) && (currentOldLine st <? LineStart params).

(** "increment the line numbers" *)
Definition advance (action : diffAction) (st : cutState) : cutState :=
  mkCut
    (if action_neq action actionAdded
     then incr (currentOldLine st) else currentOldLine st)
    (if action_neq action actionRemoved
     then incr (currentNewLine st) else currentNewLine st)
    (inCut st) (diffCutHeader st) (diffCut st) (linesBeforeBuf st).

(** The header of the cut after one more line of the cut. *)
Definition cutHeaderStep (st : cutState) (action : diffAction) : HunkHeader :=
  let h := diffCutHeader st in
  let newLine := if negb (inCut st) then currentNewLine st else NewLine h in
  let oldLine := if negb (inCut st) then currentOldLine st else OldLine h in
  mkHunkHeader
    oldLine
    (if action_neq action actionAdded then incr (OldSpan h) else OldSpan h)
    newLine
    (if action_neq action actionRemoved then incr (NewSpan h) else NewSpan h).

(** The variables after a line went to the buffer, after a line went to
    the cut. *)
Definition bufferLine (st : cutState) (b : strCircBuf) : cutState :=
  mkCut (currentOldLine st) (currentNewLine st) (inCut st)
        (diffCutHeader st) (diffCut st) b.

Definition cutLine (st : cutState) (action : diffAction) (line : string)
  : cutState :=
  mkCut (currentOldLine st) (currentNewLine st) true
        (cutHeaderStep st action) (diffCut st ++ [line]) (linesBeforeBuf st).

Definition cutIteration (params : DiffCutParams) (scan : Scanner)
    (st : cutState) : Res iteration :=
  if pastLineEnd params st
  then Ok (Done (LoopBreak AtRangeEnd None st scan))
  else
    let '((line, action, err), scan) := scanHunkLine scan in
    match err with
    | Some e => Ok (Done (LoopReturn e))
    | None =>
        match line with
        | EmptyString =>
            Ok (Done (LoopBreak AtTerminator (Some io_EOF) st scan))
        | String _ _ =>
            if beforeLineStart params st
            then
              b ← push (linesBeforeBuf st) line;
              Ok (Next (advance action (bufferLine st b)) scan)
            else
              let st := cutLine st action line in
              if len (diffCut st) >? LineLimit params
              then Ok (Done (LoopBreak AtLineLimit None st scan))
              else Ok (Next (advance action st) scan)
        end
    end.

Equations? cutLoop (params : DiffCutParams) (scan : Scanner) (st : cutState)
  : Res loopExit by wf (length (pending scan)) lt :=
cutLoop params scan st with inspect (cutIteration params scan st) := {
  | exist _ Panic _ := Panic
  | exist _ (Ok (Done e)) _ := Ok e
  | exist _ (Ok (Next st' scan')) _ := cutLoop params scan' st' }.
Proof.
  revert e. unfold cutIteration, scanHunkLine, Scan.
  destruct (pastLineEnd params st); [discriminate|].
  destruct (pending scan) as [|l rest]; simpl.
  - destruct (Err _); discriminate.
  - destruct l as [|c l]; simpl; [discriminate|].
    destruct (_ && _ && _); simpl; [discriminate|].
    destruct (beforeLineStart params st).
    + destruct (push _ _); simpl; [|discriminate].
      intros [= <- <-]; simpl; lia.
    + destruct (_ >? _); [discriminate|].
      intros [= <- <-]; simpl; lia.
Qed.

(** The loop that collects the lines after the cut (source lines 106-112):
    [n] iterations are left ([i < params.AfterLines]). *)
Fixpoint afterLoop (n : nat) (scanner : Scanner) (linesAfter : list string)
  : list string * Scanner :=
  match n with
  | O => (linesAfter, scanner)
  | S n' =>
      let '(ok, scanner) := Scan scanner in
      if negb ok then (linesAfter, scanner)
      else
        match Text scanner with
        | EmptyString => (linesAfter, scanner)
        | line => afterLoop n' scanner (linesAfter ++ [line])
        end
  end.

(** The two loops that widen the header of the cut over the context
    (source lines 120-130 and 132-140). *)
Fixpoint coverBefore (h : HunkHeader) (linesBefore : list string)
  : Res HunkHeader :=
  match linesBefore with
  | [] => Ok h
  | s :: rest =>
      action ← firstAction s;
      let h :=
        if action_neq action actionRemoved
        then mkHunkHeader (OldLine h) (OldSpan h)
                          (decr (NewLine h)) (incr (NewSpan h))
        else h in
      let h :=
        if action_neq action actionAdded
        then mkHunkHeader (decr (OldLine h)) (incr (OldSpan h))
                          (NewLine h) (NewSpan h)
        else h in
      coverBefore h rest
  end.

Fixpoint coverAfter (h : HunkHeader) (linesAfter : list string)
  : Res HunkHeader :=
  match linesAfter with
  | [] => Ok h
  | s :: rest =>
      action ← firstAction s;
      let h :=
        if action_neq action actionRemoved
        then mkHunkHeader (OldLine h) (OldSpan h) (NewLine h) (incr (NewSpan h))
        else h in
      let h :=
        if action_neq action actionAdded
        then mkHunkHeader (OldLine h) (incr (OldSpan h)) (NewLine h) (NewSpan h)
        else h in
      coverAfter h rest
  end.

Definition errors_Is (err : option error) (target : error) : bool :=
  match err, target with
  | Some ErrHunkNotFound, ErrHunkNotFound => true
  | Some io_EOF, io_EOF => true
  | Some (ErrRead a), ErrRead b => (a =? b)%nat
  | _, _ => false
  end.

(** What [DiffCut] holds when its scanning is over: the header of the
    cut, the lines before it, the cut, the lines after it, and the
    [break] by which the loop was left. *)
Record cutParts := mkParts {
  cutHeader : HunkHeader;
  cutBefore : list string;
  cutLines : list string;
  cutAfter : list string;
  cutBreak : breakAt
}.

(** ** Notions the properties are stated with *)

(** The last [n] elements of a list, in their order. *)
Definition lastN {A} (n : nat) (l : list A) : list A :=
  drop (length l - n) l.

(** A sequence of pushes. *)
Fixpoint pushAll (b : strCircBuf) (xs : list string) : Res strCircBuf :=
  match xs with
  | [] => Ok b
  | x :: xs' => b' ← push b x; pushAll b' xs'
  end.

(** The order in which a buffer gives its lines back: from the entry after
    [head] to the end, then from the start up to [head]. *)
Definition drainOrder (b : strCircBuf) : list string :=
  drop (Z.to_nat (head b + 1)) (entries b)
  ++ take (Z.to_nat (head b + 1)) (entries b).

(** The state of a buffer of capacity [k] into which [xs] was pushed. *)
Definition bufHolds (k : Z) (b : strCircBuf) (xs : list string) : Prop :=
  entries_cap b = k /\
  len (entries b) = Z.min (len xs) k /\
  -1 <= head b < len (entries b) /\
  (len (entries b) < k -> head b = len (entries b) - 1) /\
  drainOrder b = lastN (Z.to_nat k) xs.

(** The first byte of the line is not ['+'], is not ['-']. *)
Definition notAdded (s : string) : bool :=
  match s with
  | String c _ => action_neq c actionAdded
  | EmptyString => true
  end.

Definition notRemoved (s : string) : bool :=
  match s with
  | String c _ => action_neq c actionRemoved
  | EmptyString => true
  end.

Fixpoint countLines (f : string -> bool) (l : list string) : nat :=
  match l with
  | [] => 0%nat
  | s :: l' => ((if f s then 1 else 0) + countLines f l')%nat
  end.

(** A line number or a span after [n] increments, after [n] decrements. *)
Definition incrN (n : nat) (z : Z) : Z := Nat.iter n incr z.
Definition decrN (n : nat) (z : Z) : Z := Nat.iter n decr z.

(** A line of a hunk: it starts with [' '], ['-'] or ['+']. *)
Definition isHunkLine (s : string) : bool :=
  match s with
  | String c _ =>
      action_eqb c actionRemoved || action_eqb c actionAdded
      || action_eqb c actionUnchanged
  | EmptyString => false
  end.

Definition isUnchangedLine (s : string) : bool :=
  match s with
  | String c _ => action_eqb c actionUnchanged
  | EmptyString => false
  end.

(** The lines the loop after the cut takes from [pending]: at most [n],
    up to the first empty line. *)
Fixpoint takeAfter (n : nat) (pending : list string) : list string :=
  match n, pending with
  | S n', String c s :: rest => String c s :: takeAfter n' rest
  | _, _ => []
  end.

(** The parameters with another start of the range. *)
Definition withLineStart (params : DiffCutParams) (lineStart : Z)
    (lineStartNew : bool) : DiffCutParams :=
  mkParams lineStart lineStartNew (LineEnd params) (LineEndNew params)
           (BeforeLines params) (AfterLines params) (LineLimit params).

(** The action of a line of a hunk: its first byte. *)
Definition actionOf (s : string) : diffAction :=
  match s with
  | String c _ => c
  | EmptyString => actionUnchanged
  end.

(** What one run of the loop body does, case by case; [snd (Scan scan)]
    is the scanner after the line is read. *)
Inductive iterates (params : DiffCutParams) (scan : Scanner) (st : cutState)
  : iteration -> Prop :=
| it_range_end :
    pastLineEnd params st = true ->
    iterates params scan st (Done (LoopBreak AtRangeEnd None st scan))
| it_read_error e :
    pastLineEnd params st = false ->
    pending scan = [] ->
    Err (snd (Scan scan)) = Some e ->
    iterates params scan st (Done (LoopReturn e))
| it_stream_end :
    pastLineEnd params st = false ->
    pending scan = [] ->
    Err (snd (Scan scan)) = None ->
    iterates params scan st
      (Done (LoopBreak AtTerminator (Some io_EOF) st (snd (Scan scan))))
| it_empty_line rest :
    pastLineEnd params st = false ->
    pending scan = EmptyString :: rest ->
    iterates params scan st (Done (LoopReturn ErrHunkNotFound))
| it_terminator c s rest :
    pastLineEnd params st = false ->
    pending scan = String c s :: rest ->
    isHunkLine (String c s) = false ->
    iterates params scan st
      (Done (LoopBreak AtTerminator (Some io_EOF) st (snd (Scan scan))))
| it_before line rest b :
    pastLineEnd params st = false ->
    pending scan = line :: rest ->
    isHunkLine line = true ->
    beforeLineStart params st = true ->
    push (linesBeforeBuf st) line = Ok b ->
    iterates params scan st
      (Next (advance (actionOf line) (bufferLine st b)) (snd (Scan scan)))
| it_cut_limit line rest :
    pastLineEnd params st = false ->
    pending scan = line :: rest ->
    isHunkLine line = true ->
    beforeLineStart params st = false ->
    len (diffCut st ++ [line]) > LineLimit params ->
    iterates params scan st
      (Done (LoopBreak AtLineLimit None (cutLine st (actionOf line) line)
                       (snd (Scan scan))))
| it_cut_next line rest :
    pastLineEnd params st = false ->
    pending scan = line :: rest ->
    isHunkLine line = true ->
    beforeLineStart params st = false ->
    len (diffCut st ++ [line]) <= LineLimit params ->
    iterates params scan st
      (Next (advance (actionOf line) (cutLine st (actionOf line) line))
            (snd (Scan scan))).

(** A property of the loop's variables, for a loop left by [break]. *)
Definition atBreak (P : cutState -> Prop) (e : loopExit) : Prop :=
  match e with
  | LoopBreak _ _ st _ => P st
  | LoopReturn _ => True
  end.

(** The spans of the header of the cut count the lines of the cut, which
    are lines of a hunk; [inCut] says whether there is one. *)
Definition cutCounted (st : cutState) : Prop :=
  OldSpan (diffCutHeader st) = incrN (countLines notAdded (diffCut st)) 0 /\
  NewSpan (diffCutHeader st) = incrN (countLines notRemoved (diffCut st)) 0 /\
  Forall (fun l => isHunkLine l = true) (diffCut st) /\
  (inCut st = false -> diffCut st = []) /\
  (inCut st = true -> diffCut st <> []).

(** The cut is empty or within the limit. *)
Definition cutBounded (params : DiffCutParams) (st : cutState) : Prop :=
  diffCut st = [] \/ len (diffCut st) <= LineLimit params.

(** The loop is left at the safety break with a cut that was within the
    limit before its last line, and is within the limit otherwise. *)
Definition limitKept (params : DiffCutParams) (e : loopExit) : Prop :=
  match e with
  | LoopBreak AtLineLimit _ st _ =>
      exists cut0 line,
        diffCut st = cut0 ++ [line] /\
        (cut0 = [] \/ len cut0 <= LineLimit params) /\
        len (diffCut st) > LineLimit params
  | LoopBreak _ _ st _ => cutBounded params st
  | LoopReturn _ => True
  end.

(** The value of [err] at each [break]. *)
Definition errAtBreak (e : loopExit) : Prop :=
  match e with
  | LoopBreak AtTerminator err _ _ => err = Some io_EOF
  | LoopBreak _ err _ _ => err = None
  | LoopReturn _ => True
  end.

(** The first line of the cut is the line after the lines [skipped], and
    the header of the cut starts at the line numbers reached there. *)
Definition firstCut (hunkHeader : HunkHeader) (consumed : list string)
    (st : cutState) : Prop :=
  exists skipped rest,
    consumed = skipped ++ rest /\
    rest <> [] /\
    hd_error rest = hd_error (diffCut st) /\
    OldLine (diffCutHeader st) =
      incrN (countLines notAdded skipped) (OldLine hunkHeader) /\
    NewLine (diffCutHeader st) =
      incrN (countLines notRemoved skipped) (NewLine hunkHeader).

(** The loop's variables follow the lines read so far from [body], the
    lines after the hunk header. *)
Definition tracked (hunkHeader : HunkHeader) (body : list string)
    (scan : Scanner) (st : cutState) : Prop :=
  exists consumed,
    body = consumed ++ pending scan /\
    currentOldLine st =
      incrN (countLines notAdded consumed) (OldLine hunkHeader) /\
    currentNewLine st =
      incrN (countLines notRemoved consumed) (NewLine hunkHeader) /\
    (inCut st = false -> diffCut st = []) /\
    (inCut st = true -> firstCut hunkHeader consumed st).

Definition trackedAtBreak (hunkHeader : HunkHeader) (body : list string)
    (e : loopExit) : Prop :=
  match e with
  | LoopBreak _ _ st scan =>
      exists consumed,
        body = consumed ++ pending scan /\
        (inCut st = true -> firstCut hunkHeader consumed st)
  | LoopReturn _ => True
  end.

(** The error a scan for a header ends with when the stream is over. *)
Definition endError (scan : Scanner) : error :=
  match ending scan with
  | io_EOF => ErrHunkNotFound
  | e => e
  end.


(** The loop's variables when the lines [pre] of the hunk come before the
    line looked at and the line numbers do not overflow: the line numbers
    are those of the hunk header plus the lines read so far; the cut, once
    entered, starts at the first line of [post], with the line numbers
    reached after [pre]; before that, the lines read are lines of [pre]. *)
Definition cutEntersAt (hunkHeader : HunkHeader) (pre post : list string)
    (scan : Scanner) (st : cutState) : Prop :=
  exists consumed,
    pre ++ post = consumed ++ pending scan /\
    currentOldLine st =
      OldLine hunkHeader + Z.of_nat (countLines notAdded consumed) /\
    currentNewLine st =
      NewLine hunkHeader + Z.of_nat (countLines notRemoved consumed) /\
    (inCut st = true ->
       diffCut st <> [] /\
       OldLine (diffCutHeader st) =
         OldLine hunkHeader + Z.of_nat (countLines notAdded pre) /\
       NewLine (diffCutHeader st) =
         NewLine hunkHeader + Z.of_nat (countLines notRemoved pre) /\
       hd_error (diffCut st) = hd_error post) /\
    (inCut st = false -> diffCut st = [] /\ exists y, pre = consumed ++ y).

(** The cut of a loop left by [break] starts at the first line of [post],
    with the line numbers [a] and [b]. *)
Definition cutStartsAt (a b : Z) (post : list string) (st : cutState) : Prop :=
  inCut st = true ->
  OldLine (diffCutHeader st) = a /\ NewLine (diffCutHeader st) = b /\
  hd_error (diffCut st) = hd_error post.

(** The header lines of the hunk and the lines after them are read without
    overflow of the line numbers. *)
Definition noOverflow (hunkHeader : HunkHeader) (body : list string) : Prop :=
  - 2 ^ 63 <= OldLine hunkHeader /\ OldLine hunkHeader + len body < 2 ^ 63 /\
  - 2 ^ 63 <= NewLine hunkHeader /\ NewLine hunkHeader + len body < 2 ^ 63.

(** [pre] is empty or ends with an unchanged line. *)
Definition endsUnchanged (pre : list string) : Prop :=
  pre = [] \/ exists pre' l, pre = pre' ++ [l] /\ isUnchangedLine l = true.

(** The loop's variables when the line numbers do not overflow: the lines
    read so far from [body] are the lines [skipped], which went through the
    buffer, and then the cut; once in the cut, a line is never before the
    start of the range again, and the header of the cut starts at the line
    numbers reached after [skipped]. *)
Definition runKept (params : DiffCutParams) (hunkHeader : HunkHeader)
    (body : list string) (scan : Scanner) (st : cutState) : Prop :=
  exists skipped,
    body = skipped ++ diffCut st ++ pending scan /\
    bufHolds (BeforeLines params) (linesBeforeBuf st) skipped /\
    currentOldLine st =
      OldLine hunkHeader
      + Z.of_nat (countLines notAdded (skipped ++ diffCut st)) /\
    currentNewLine st =
      NewLine hunkHeader
      + Z.of_nat (countLines notRemoved (skipped ++ diffCut st)) /\
    (inCut st = false -> diffCut st = []) /\
    (inCut st = true ->
       beforeLineStart params st = false /\
       OldLine (diffCutHeader st) =
         OldLine hunkHeader + Z.of_nat (countLines notAdded skipped) /\
       NewLine (diffCutHeader st) =
         NewLine hunkHeader + Z.of_nat (countLines notRemoved skipped)).

Definition runAtBreak (params : DiffCutParams) (hunkHeader : HunkHeader)
    (body : list string) (e : loopExit) : Prop :=
  match e with
  | LoopBreak at_ _ st scan =>
      exists skipped tail,
        body = skipped ++ diffCut st ++ tail /\
        (at_ <> AtTerminator -> tail = pending scan) /\
        bufHolds (BeforeLines params) (linesBeforeBuf st) skipped /\
        (inCut st = true ->
           OldLine (diffCutHeader st) =
             OldLine hunkHeader + Z.of_nat (countLines notAdded skipped) /\
           NewLine (diffCutHeader st) =
             NewLine hunkHeader + Z.of_nat (countLines notRemoved skipped))
  | LoopReturn _ => True
  end.

(** The line number the start of the range is compared with, and the line
    number the end of the range is compared with, when the lines [read] of
    the hunk are read. *)
Definition startNumber (params : DiffCutParams) (hunkHeader : HunkHeader)
    (read : list string) : Z :=
  if LineStartNew params
  then NewLine hunkHeader + Z.of_nat (countLines notRemoved read)
  else OldLine hunkHeader + Z.of_nat (countLines notAdded read).

Definition endNumber (params : DiffCutParams) (hunkHeader : HunkHeader)
    (read : list string) : Z :=
  if LineEndNew params
  then NewLine hunkHeader + Z.of_nat (countLines notRemoved read)
  else OldLine hunkHeader + Z.of_nat (countLines notAdded read).

(** Every line of [skipped] stands before the start of the range; every
    line of [cut], which follows [skipped], stands within the range. *)
Definition aheadOfRange (params : DiffCutParams) (hunkHeader : HunkHeader)
    (skipped : list string) : Prop :=
  forall s1 l s2,
    skipped = s1 ++ l :: s2 ->
    startNumber params hunkHeader s1 < LineStart params.

Definition withinRange (params : DiffCutParams) (hunkHeader : HunkHeader)
    (skipped cut : list string) : Prop :=
  forall c1 l c2,
    cut = c1 ++ l :: c2 ->
    LineStart params <= startNumber params hunkHeader (skipped ++ c1) /\
    endNumber params hunkHeader (skipped ++ c1) <= LineEnd params.

(** Why the cut ends where it does: the line after it is past the end of
    the range, the lines of the hunk are over, the cut is longer than the
    limit. *)
Definition cutEndsBy (params : DiffCutParams) (hunkHeader : HunkHeader)
    (read cut tail : list string) (at_ : breakAt) : Prop :=
  match at_ with
  | AtRangeEnd => LineEnd params < endNumber params hunkHeader read
  | AtTerminator =>
      tail = [] \/ exists l tail', tail = l :: tail' /\ isHunkLine l = false
  | AtLineLimit => len cut > LineLimit params
  end.

(** The loop's variables with respect to the range, when the line numbers
    do not overflow. *)
Definition rangeKept (params : DiffCutParams) (hunkHeader : HunkHeader)
    (body : list string) (scan : Scanner) (st : cutState) : Prop :=
  exists skipped,
    body = skipped ++ diffCut st ++ pending scan /\
    currentOldLine st =
      OldLine hunkHeader
      + Z.of_nat (countLines notAdded (skipped ++ diffCut st)) /\
    currentNewLine st =
      NewLine hunkHeader
      + Z.of_nat (countLines notRemoved (skipped ++ diffCut st)) /\
    (inCut st = false -> diffCut st = []) /\
    (inCut st = true ->
       beforeLineStart params st = false /\
       OldLine (diffCutHeader st) =
         OldLine hunkHeader + Z.of_nat (countLines notAdded skipped) /\
       NewLine (diffCutHeader st) =
         NewLine hunkHeader + Z.of_nat (countLines notRemoved skipped)) /\
    aheadOfRange params hunkHeader skipped /\
    withinRange params hunkHeader skipped (diffCut st).

Definition rangeAtBreak (params : DiffCutParams) (hunkHeader : HunkHeader)
    (body : list string) (e : loopExit) : Prop :=
  match e with
  | LoopBreak at_ _ st scan =>
      exists skipped tail,
        body = skipped ++ diffCut st ++ tail /\
        aheadOfRange params hunkHeader skipped /\
        withinRange params hunkHeader skipped (diffCut st) /\
        cutEndsBy params hunkHeader (skipped ++ diffCut st) (diffCut st)
                  tail at_ /\
        (inCut st = true ->
           OldLine (diffCutHeader st) =
             OldLine hunkHeader + Z.of_nat (countLines notAdded skipped) /\
           NewLine (diffCutHeader st) =
             NewLine hunkHeader + Z.of_nat (countLines notRemoved skipped))
  | LoopReturn _ => True
  end.

(** The lines pushed so far fit the buffer of capacity [k], [room] being
    the number of lines of the hunk. *)
Definition pushesFit (k room : Z) (scan : Scanner) (st : cutState) : Prop :=
  exists pushed,
    bufHolds k (linesBeforeBuf st) pushed /\
    len pushed + len (pending scan) <= room /\
    Forall (fun l => isHunkLine l = true) pushed.

Definition fitAtBreak (k room : Z) (e : loopExit) : Prop :=
  match e with
  | LoopBreak _ _ st _ =>
      exists pushed,
        bufHolds k (linesBeforeBuf st) pushed /\
        len pushed <= room /\
        Forall (fun l => isHunkLine l = true) pushed
  | LoopReturn _ => True
  end.

(** Two states of the loop that differ in the buffer at most, and two
    exits of the loop that do. *)
Definition sameCut (st st' : cutState) : Prop :=
  currentOldLine st = currentOldLine st' /\
  currentNewLine st = currentNewLine st' /\
  inCut st = inCut st' /\
  diffCutHeader st = diffCutHeader st' /\
  diffCut st = diffCut st'.

Definition sameExit (e e' : loopExit) : Prop :=
  match e, e' with
  | LoopReturn err, LoopReturn err' => err = err'
  | LoopBreak at_ err st scan, LoopBreak at_' err' st' scan' =>
      at_ = at_' /\ err = err' /\ scan = scan' /\ sameCut st st'
  | _, _ => False
  end.

(** The parameters with other numbers of lines before and after the cut. *)
Definition withContext (params : DiffCutParams) (beforeLines afterLines : Z)
  : DiffCutParams :=
  mkParams (LineStart params) (LineStartNew params) (LineEnd params)
           (LineEndNew params) beforeLines afterLines (LineLimit params).

(** An error is HunkNotFound or the error [ending_] that ends the reader,
    which is not [io.EOF]. *)
Definition fromReader (ending_ : error) (e : error) : Prop :=
  e = ErrHunkNotFound \/ e = ending_ /\ e <> io_EOF.

(** No line of [ahead] is past the end of the range when the loop looks
    at it. *)
Definition belowLineEnd (params : DiffCutParams) (hunkHeader : HunkHeader)
    (ahead : list string) : Prop :=
  forall a1 x a2,
    ahead = a1 ++ x :: a2 ->
    endNumber params hunkHeader a1 <= LineEnd params.

(** The loop on its way to the line [l], which follows the lines [ahead]
    and is followed by the lines [rest], over a reader that ends
    regularly: before the cut the lines read are lines of [ahead]; the
    cut, once entered, starts with [l] at the line numbers reached after
    [ahead]. *)
Definition headsFor (hunkHeader : HunkHeader) (ahead : list string)
    (l : string) (rest : list string) (scan : Scanner) (st : cutState)
  : Prop :=
  ending scan = io_EOF /\
  Forall (fun x => x <> EmptyString) (pending scan) /\
  (inCut st = false ->
     diffCut st = [] /\
     exists consumed togo,
       ahead = consumed ++ togo /\
       pending scan = togo ++ l :: rest /\
       currentOldLine st =
         OldLine hunkHeader + Z.of_nat (countLines notAdded consumed) /\
       currentNewLine st =
         NewLine hunkHeader + Z.of_nat (countLines notRemoved consumed)) /\
  (inCut st = true ->
     OldLine (diffCutHeader st) =
       OldLine hunkHeader + Z.of_nat (countLines notAdded ahead) /\
     NewLine (diffCutHeader st) =
       NewLine hunkHeader + Z.of_nat (countLines notRemoved ahead) /\
     hd_error (diffCut st) = Some l).

Definition foundAtBreak (hunkHeader : HunkHeader) (ahead : list string)
    (l : string) (e : loopExit) : Prop :=
  match e with
  | LoopBreak _ _ st _ =>
      inCut st = true /\
      OldLine (diffCutHeader st) =
        OldLine hunkHeader + Z.of_nat (countLines notAdded ahead) /\
      NewLine (diffCutHeader st) =
        NewLine hunkHeader + Z.of_nat (countLines notRemoved ahead) /\
      hd_error (diffCut st) = Some l
  | LoopReturn _ => False
  end.

(** The loop reading on through [body], no line of which takes it out,
    to the end of a stream that ends by the error [e]. *)
Definition readsOn (hunkHeader : HunkHeader) (body : list string) (e : error)
    (scan : Scanner) (st : cutState) : Prop :=
  ending scan = e /\
  exists consumed,
    body = consumed ++ pending scan /\
    currentOldLine st =
      OldLine hunkHeader + Z.of_nat (countLines notAdded consumed) /\
    currentNewLine st =
      NewLine hunkHeader + Z.of_nat (countLines notRemoved consumed) /\
    len (diffCut st) <= len consumed.

(** [bufio.MaxScanTokenSize], and a line that fits the scanner's buffer
    with its terminator, be it ["\n"] or ["\r\n"]. *)
Definition MaxScanTokenSize : Z := 64 * 1024.

Definition fitsBuffer (line : string) : Prop :=
  Z.of_nat (String.length line) + 2 <= MaxScanTokenSize.

(** A capacity [make([]string, 0, size)] gives: not negative, and small
    enough for its elements, of 16 bytes each, to be far below what the
    runtime allocates at most on any platform. *)
Definition makeGives (size : Z) : Prop := 0 <= size <= 2 ^ 20.

(** The elements of [l] are dealt to [a] and to [b], each keeping the
    order they have in [l]. *)
Inductive dealt {A} : list A -> list A -> list A -> Prop :=
| dealt_nil : dealt [] [] []
| dealt_left x l a b : dealt l a b -> dealt (x :: l) (x :: a) b
| dealt_right x l a b : dealt l a b -> dealt (x :: l) a (x :: b).

(** The lines the loop has read from [body] are dealt to the ring buffer
    and to the cut. *)
Definition dealtKept (k : Z) (body : list string) (scan : Scanner)
    (st : cutState) : Prop :=
  exists consumed pushed,
    body = consumed ++ pending scan /\
    dealt consumed pushed (diffCut st) /\
    bufHolds k (linesBeforeBuf st) pushed.

Definition dealtAtBreak (k : Z) (body : list string) (e : loopExit) : Prop :=
  match e with
  | LoopBreak at_ _ st scan =>
      exists consumed pushed tail,
        body = consumed ++ tail /\
        (at_ <> AtTerminator -> tail = pending scan) /\
        dealt consumed pushed (diffCut st) /\
        bufHolds k (linesBeforeBuf st) pushed
  | LoopReturn _ => True
  end.

Section DiffCut.

(** The recognizers of the header lines belong to another file of the
    package; [DiffCut] is given over any two of them. *)
Variable DiffFileHeader : Type.
Variable zeroFileHeader : DiffFileHeader.
Variable ParseDiffFileHeader : string -> DiffFileHeader * bool.
Variable ParseDiffHunkHeader : string -> HunkHeader * bool.

Equations? scanFileHeader (scan : Scanner)
  : DiffFileHeader * option error * Scanner
  by wf (length (pending scan)) lt :=
scanFileHeader scan with inspect (Scan scan) := {
  | exist _ (true, scan') _ with ParseDiffFileHeader (Text scan') := {
      | (h, true) := (h, None, scan')
      | (_, false) := scanFileHeader scan' }
  | exist _ (false, scan') _ with Err scan' := {
      | Some err := (zeroFileHeader, Some err, scan')
      | None := (zeroFileHeader, Some ErrHunkNotFound, scan') } }.
Proof.
  revert e. unfold Scan. destruct (pending scan); [discriminate|].
  intros [= <-]; simpl; lia.
Qed.

Equations? scanHunkHeader (scan : Scanner)
  : HunkHeader * option error * Scanner
  by wf (length (pending scan)) lt :=
scanHunkHeader scan with inspect (Scan scan) := {
  | exist _ (true, scan') _ with ParseDiffHunkHeader (Text scan') := {
      | (h, true) := (h, None, scan')
      | (_, false) := scanHunkHeader scan' }
  | exist _ (false, scan') _ with Err scan' := {
      | Some err := (zeroHunkHeader, Some err, scan')
      | None := (zeroHunkHeader, Some ErrHunkNotFound, scan') } }.
Proof.
  revert e. unfold Scan. destruct (pending scan); [discriminate|].
  intros [= <-]; simpl; lia.
Qed.

(** [DiffCut] goes through four stages, each a definition here: the two
    headers are looked for ([scanHeaders], source lines 21-32), the loop
    runs ([diffCutLoop], lines 34-93), the lines before and after the cut
    are collected ([collectContext] and [diffCutScan], lines 95-116), and
    the header over all lines is computed and everything put together
    ([DiffCut], lines 118-145). *)

Definition scanHeaders (r : Reader) : error + HunkHeader * Scanner :=
  let scanner := NewScanner r in
  let '(_, err, scanner) := scanFileHeader scanner in
  match err with
  | Some err => inl err
  | None =>
      let '(hunkHeader, err, scanner) := scanHunkHeader scanner in
      match err with
      | Some err => inl err
      | None => inr (hunkHeader, scanner)
      end
  end.

(** The loop's variables when it is entered. *)
Definition cutStart (hunkHeader : HunkHeader) (buf : strCircBuf) : cutState :=
  mkCut (OldLine hunkHeader) (NewLine hunkHeader) false zeroHunkHeader []
        buf.

Definition diffCutLoop (r : Reader) (params : DiffCutParams)
  : Res (error + loopExit) :=
  match scanHeaders r with
  | inl err => Ok (inl err)
  | inr (hunkHeader, scanner) =>
      buf ← newStrCircBuf (BeforeLines params);
      exit ← cutLoop params scanner (cutStart hunkHeader buf);
      Ok (inr exit)
  end.

(** After the loop, for a loop left by [break]. *)
Definition collectContext (params : DiffCutParams) (at_ : breakAt)
    (err : option error) (st : cutState) (scanner : Scanner)
  : Res (error + cutParts) :=
  if negb (inCut st) then Ok (inl ErrHunkNotFound)
  else
    linesBefore ← lines (linesBeforeBuf st);
    if negb (errors_Is err io_EOF)
    then
      let '(linesAfter, scanner) :=
        afterLoop (Z.to_nat (AfterLines params)) scanner [] in
      match Err scanner with
      | Some err => Ok (inl err)
      | None =>
          Ok (inr (mkParts (diffCutHeader st) linesBefore (diffCut st)
                           linesAfter at_))
      end
    else
      Ok (inr (mkParts (diffCutHeader st) linesBefore (diffCut st) [] at_)).

Definition diffCutScan (r : Reader) (params : DiffCutParams)
  : Res (error + cutParts) :=
  res ← diffCutLoop r params;
  match res with
  | inl err => Ok (inl err)
  | inr (LoopReturn err) => Ok (inl err)
  | inr (LoopBreak at_ err st scanner) =>
      collectContext params at_ err st scanner
  end.

(** The header over the whole of the returned lines. *)
Definition diffCutHeaderLines (pt : cutParts) : Res HunkHeader :=
  h ← coverBefore (cutHeader pt) (cutBefore pt);
  coverAfter h (cutAfter pt).

Definition DiffCut (r : Reader) (params : DiffCutParams)
  : Res (HunkHeader * Hunk * option error) :=
  res ← diffCutScan r params;
  match res with
  | inl err => Ok (zeroHunkHeader, zeroHunk, Some err)
  | inr pt =>
      h ← diffCutHeaderLines pt;
      Ok (cutHeader pt,
          mkHunk h (concat EmptyString
                           [cutBefore pt; cutLines pt; cutAfter pt]),
          None)
  end.

(** No line of the stream is a file header; after the first file header
    line no line is a hunk header; the loop is left by [break] with no
    line in the cut. *)
Definition fileHeaderAbsent (r : Reader) : Prop :=
  Forall (fun l => snd (ParseDiffFileHeader l) = false) (rd_lines r).

Definition hunkHeaderAbsent (r : Reader) : Prop :=
  exists pre l post,
    rd_lines r = pre ++ l :: post /\
    Forall (fun l => snd (ParseDiffFileHeader l) = false) pre /\
    snd (ParseDiffFileHeader l) = true /\
    Forall (fun l => snd (ParseDiffHunkHeader l) = false) post.

Definition cutNotEntered (r : Reader) (params : DiffCutParams) : Prop :=
  exists at_ err st scanner,
    diffCutLoop r params = Ok (inr (LoopBreak at_ err st scanner)) /\
    diffCut st = [].

End DiffCut.

Arguments scanFileHeader {DiffFileHeader}.
Arguments scanHeaders {DiffFileHeader}.
Arguments diffCutLoop {DiffFileHeader}.
Arguments diffCutScan {DiffFileHeader}.
Arguments DiffCut {DiffFileHeader}.
Arguments fileHeaderAbsent {DiffFileHeader}.
Arguments hunkHeaderAbsent {DiffFileHeader}.
Arguments cutNotEntered {DiffFileHeader}.

(** ** Two recognizers to run [DiffCut] with *)

Definition isDigit (c : ascii) : bool :=
  (48 <=? nat_of_ascii c)%nat && (nat_of_ascii c <=? 57)%nat.

Fixpoint readDigits (s : string) (acc : Z) : Z * string :=
  match s with
  | String c s' =>
      if isDigit c
      then readDigits s' (10 * acc + (Z.of_nat (nat_of_ascii c) - 48))
      else (acc, s)
  | EmptyString => (acc, s)
  end.

Fixpoint stripPrefix (p s : string) : option string :=
  match p, s with
  | EmptyString, _ => Some s
  | String a p', String b s' =>
      if Ascii.eqb a b then stripPrefix p' s' else None
  | String _ _, EmptyString => None
  end.

(** A number: one digit at least. *)
Definition readNumber (s : string) : option (Z * string) :=
  match s with
  | String c _ => if isDigit c then Some (readDigits s 0) else None
  | EmptyString => None
  end.

(** [line,span], the span being 1 when it is left out. *)
Definition readRange (s : string) : option (Z * Z * string) :=
  match readNumber s with
  | None => None
  | Some (line, s) =>
      match stripPrefix "," s with
      | None => Some (line, 1, s)
      | Some s' =>
          match readNumber s' with
          | None => None
          | Some (span, s'') => Some (line, span, s'')
          end
      end
  end.

(** Modelled from the spec: [ParseDiffHunkHeader] is not among the sources;
    section 6 gives the form of the line it recognizes,
    [@@ -oldStart,oldSpan +newStart,newSpan @@], and section 4.3 its
    result, the header and whether the line matched. *)
Definition demoParseDiffHunkHeader (line : string) : HunkHeader * bool :=
  match stripPrefix "@@ -" line with
  | None => (zeroHunkHeader, false)
  | Some s =>
      match readRange s with
      | None => (zeroHunkHeader, false)
      | Some (oldLine, oldSpan, s) =>
          match stripPrefix " +" s with
          | None => (zeroHunkHeader, false)
          | Some s =>
              match readRange s with
              | None => (zeroHunkHeader, false)
              | Some (newLine, newSpan, s) =>
                  match stripPrefix " @@" s with
                  | None => (zeroHunkHeader, false)
                  | Some _ =>
                      (mkHunkHeader oldLine oldSpan newLine newSpan, true)
                  end
              end
          end
      end
  end.

(** Modelled from the spec: [ParseDiffFileHeader] is not among the sources;
    section 4.3 gives its result, the data of the file header and whether
    the line matched.  A file header line of git starts with
    [diff --git]; the data kept here is the rest of the line. *)
Definition demoParseDiffFileHeader (line : string) : string * bool :=
  match stripPrefix "diff --git " line with
  | None => (EmptyString, false)
  | Some names => (names, true)
  end.

Definition demoDiffCut : Reader -> DiffCutParams ->
                         Res (HunkHeader * Hunk * option error) :=
  DiffCut EmptyString demoParseDiffFileHeader demoParseDiffHunkHeader.

Definition demoDiffCutScan : Reader -> DiffCutParams -> Res (error + cutParts) :=
  diffCutScan EmptyString demoParseDiffFileHeader demoParseDiffHunkHeader.

Definition demoScanHeaders : Reader -> error + HunkHeader * Scanner :=
  scanHeaders EmptyString demoParseDiffFileHeader demoParseDiffHunkHeader.

Definition demoDiffCutLoop : Reader -> DiffCutParams ->
                             Res (error + loopExit) :=
  diffCutLoop EmptyString demoParseDiffFileHeader demoParseDiffHunkHeader.

(** ** Streams and parameters to run [DiffCut] on *)

Definition fileHeaderLines : list string :=
  [ "diff --git a/f.txt b/f.txt"; "--- a/f.txt"; "+++ b/f.txt" ]%string.

(** The hunk of the specification's scenario: one line removed, two
    added. *)
Definition scenarioLines : list string :=
  fileHeaderLines ++ [ "@@ -5,4 +5,5 @@"; " a"; "-b"; "+c"; "+d"; " e" ]%string.

Definition scenarioReader : Reader := mkReader scenarioLines io_EOF 0.

(** Old line 6 with one line of context on either side. *)
Definition scenarioParams : DiffCutParams :=
  mkParams 6 false 6 false 1 1 10.

Definition scenarioCutHeader : HunkHeader := mkHunkHeader 6 1 6 0.

Definition scenarioHunk : Hunk :=
  mkHunk (mkHunkHeader 5 2 5 2) [ " a"; "-b"; "+c" ]%string.

(** Old lines 5 to 9 without context, with a limit of one line. *)
Definition limitParams : DiffCutParams := mkParams 5 false 9 false 0 0 1.

(** Old lines 5 to 9 with context, with a limit of no line. *)
Definition zeroLimitParams : DiffCutParams := mkParams 5 false 9 false 1 1 0.

(** How the loop is left with [zeroLimitParams]. *)
Definition zeroLimitState : cutState :=
  mkCut 5 5 true (mkHunkHeader 5 1 5 1) [ " a"%string ] (mkBuf (-1) [] 1).

Definition zeroLimitScanner : Scanner :=
  mkScanner " a" [ "-b"; "+c"; "+d"; " e" ]%string io_EOF 0 false.

(** A range before the hunk. *)
Definition missedParams : DiffCutParams := mkParams 2 false 2 false 1 1 10.

(** A stream without header lines: it ends regularly, it ends by a read
    failure. *)
Definition plainReader : Reader :=
  mkReader [ "some text"; "and more" ]%string io_EOF 0.

Definition failingReader : Reader :=
  mkReader [ "some text"; "and more" ]%string (ErrRead 1) 0.

(** A hunk in which an empty line, a line that is no line of a hunk,
    follows the first line. *)
Definition emptyLineReader : Reader :=
  mkReader (fileHeaderLines ++ [ "@@ -5,2 +5,2 @@"; " a"; EmptyString; " b" ]%string)
           io_EOF 0.

Definition markerScanner : Scanner :=
  mkScanner " a" [ "\ No newline at end of file"; " b" ]%string io_EOF 0 false.

Definition emptyLineScanner : Scanner :=
  mkScanner " a" [ EmptyString; " b" ]%string io_EOF 0 false.

Definition oneLineState : cutState :=
  mkCut 6 6 true (mkHunkHeader 5 1 5 1) [ " a"%string ] (mkBuf (-1) [] 0).

Definition wholeHunkParams : DiffCutParams := mkParams 5 false 9 false 0 0 10.

(** Two lines inserted right before old line 10, which is new line 12. *)
Definition insertionReader : Reader :=
  mkReader (fileHeaderLines ++
            [ "@@ -9,2 +9,4 @@"; " a"; "+x"; "+y"; " b" ]%string) io_EOF 0.

(** Two lines inserted further up: an unchanged line comes before old
    line 10, which is new line 12. *)
Definition alignedReader : Reader :=
  mkReader (fileHeaderLines ++
            [ "@@ -8,3 +8,5 @@"; " a"; "+x"; "+y"; " m"; " b" ]%string)
           io_EOF 0.

Definition alignedScanner : Scanner :=
  mkScanner "@@ -8,3 +8,5 @@" [ " a"; "+x"; "+y"; " m"; " b" ]%string
            io_EOF 0 false.

Definition upToOld10 : DiffCutParams := mkParams 1 false 10 false 0 0 10.

(** The hunk header of the scenario, the scanner right after it, and the
    lines after it. *)
Definition scenarioHeader : HunkHeader := mkHunkHeader 5 4 5 5.

Definition scenarioBody : list string :=
  [ " a"; "-b"; "+c"; "+d"; " e" ]%string.

Definition scenarioScanner : Scanner :=
  mkScanner "@@ -5,4 +5,5 @@" scenarioBody io_EOF 0 false.

(** The whole hunk, returned for old lines 5 to 9 without context. *)
Definition wholeHunkHeader : HunkHeader := mkHunkHeader 5 3 5 4.

Definition wholeHunk : Hunk := mkHunk wholeHunkHeader scenarioBody.

(** Old line 6 with two lines after the cut and none before. *)
Definition afterOnlyParams : DiffCutParams :=
  withContext scenarioParams 0 2.

Definition afterOnlyHunk : Hunk :=
  mkHunk (mkHunkHeader 6 1 6 2) [ "-b"; "+c"; "+d" ]%string.

(** A range that starts after its end; a negative BeforeLines. *)
Definition emptyRangeParams : DiffCutParams := mkParams 7 false 6 false 1 1 10.

Definition negativeBeforeParams : DiffCutParams :=
  mkParams 6 false 6 false (-1) 1 10.

(** The hunk of the scenario after other lines and another file header. *)
Definition prefacedReader : Reader :=
  mkReader ([ "some text"; "diff --git a/g.txt b/g.txt";
              "@@ -5,4 +5,5 @@" ]%string ++ scenarioBody) io_EOF 0.

(** The scenario's stream ending by a read failure, and the scanner right
    after its hunk header. *)
Definition brokenReader : Reader := mkReader scenarioLines (ErrRead 7) 0.

Definition brokenScanner : Scanner :=
  mkScanner "@@ -5,4 +5,5 @@" scenarioBody (ErrRead 7) 0 false.

(** A hunk that ends with the marker of a missing newline; old line 6 with
    one line after the cut; how the scan loop is left there. *)
Definition markerReader : Reader :=
  mkReader (fileHeaderLines ++
            [ "@@ -5,2 +5,1 @@"; " a"; "-b";
              "\ No newline at end of file" ]%string) io_EOF 0.

Definition oneAfterParams : DiffCutParams := mkParams 6 false 6 false 0 1 10.

Definition markerHunk : Hunk :=
  mkHunk (mkHunkHeader 6 2 6 1) [ "-b"; "\ No newline at end of file" ]%string.

Definition markerState : cutState :=
  mkCut 7 6 true (mkHunkHeader 6 1 6 0) [ "-b"%string ] (mkBuf (-1) [] 0).

Definition markerAfterCut : Scanner :=
  mkScanner "-b" [ "\ No newline at end of file"%string ] io_EOF 0 false.

(** Recognizers of the same lines that keep less: nothing of the file
    header, the two line numbers of the hunk header. *)
Definition bareParseDiffFileHeader (line : string) : unit * bool :=
  (tt, snd (demoParseDiffFileHeader line)).

Definition bareParseDiffHunkHeader (line : string) : HunkHeader * bool :=
  let '(h, ok) := demoParseDiffHunkHeader line in
  (mkHunkHeader (OldLine h) 0 (NewLine h) 0, ok).

(** Old line 6 to new line 9, without context. *)
Definition sameStartParams : DiffCutParams := mkParams 6 false 9 true 0 0 10.

(** New line 7 with two lines before the cut and one after it: three
    lines go through the buffer of two. *)
Definition wrapParams : DiffCutParams := mkParams 7 true 7 true 2 1 10.

Definition wrapCutHeader : HunkHeader := mkHunkHeader 7 0 7 1.

Definition wrapHunk : Hunk :=
  mkHunk (mkHunkHeader 6 2 6 3) [ "-b"; "+c"; "+d"; " e" ]%string.

(** * The callers' side: inputs checked before the work is done *)

(** ** Package [usererror]

    [usererror.BadRequest(message)] is kept as the call that makes the
    error value. *)
Module usererror.

Inductive Error :=
| BadRequest (message : string).

End usererror.

(** ** Package [pullreq]: the input of [CommentCreate]

    [CommentCreate] hands [LineStart], [LineStartNew], [LineEnd] and
    [LineEndNew] of a code comment over to DiffCut once [Validate] has
    accepted the input. *)
Module pullreq.

Record CommentCreateInput := mkCommentCreateInput {
  ParentID : Z;               (* int64; set only for replies *)
  Text : string;
  TargetCommitSHA : string;
  SourceCommitSHA : string;
  Path : string;
  LineStart : Z;
  LineStartNew : bool;
  LineEnd : Z;
  LineEndNew : bool
}.

Definition IsReply (in_ : CommentCreateInput) : bool :=
  negb (ParentID in_ =? 0).

Definition IsCodeComment (in_ : CommentCreateInput) : bool :=
  negb (SourceCommitSHA in_ =? EmptyString)%string.

(** [Validate] (source lines 46-70): [None] is [nil]. *)
Definition Validate (in_ : CommentCreateInput) : option usererror.Error :=
  if (SourceCommitSHA in_ =? EmptyString)%string
     && (TargetCommitSHA in_ =? EmptyString)%string
  then None (* not a code comment *)
  else if (SourceCommitSHA in_ =? EmptyString)%string
          || (TargetCommitSHA in_ =? EmptyString)%string
  then Some (usererror.BadRequest
    "for code comments source commit SHA and target commit SHA must be provided")
  else if negb (ParentID in_ =? 0)
  then Some (usererror.BadRequest
               "can't create a reply that is a code comment")
  else if (Path in_ =? EmptyString)%string
  then Some (usererror.BadRequest "code comment requires file path")
  else if (LineStart in_ <=? 0) || (LineEnd in_ <=? 0)
  then Some (usererror.BadRequest "code comments require line numbers")
  else None.

(** The [switch] of [CommentCreate] (source lines 98, 99, 149 and 161):
    the first case that holds is taken. *)
Inductive commentCase := CodeCommentCase | ReplyCase | CommentCase.

Definition caseOf (in_ : CommentCreateInput) : commentCase :=
  if IsCodeComment in_ then CodeCommentCase
  else if negb (ParentID in_ =? 0) then ReplyCase
  else CommentCase.

End pullreq.

(** ** Package [space]: the input of [Export] *)
Module space.

Record ExportInput := mkExportInput {
  RepoRef : string;
  AccountId : string;
  OrgIdentifier : string;
  ProjectIdentifier : string;
  Token : string
}.

(** [sanitizeExportInput] (source lines 87-105); the receiver is not
    used. *)
Definition sanitizeExportInput (in_ : ExportInput)
  : option usererror.Error :=
  if (AccountId in_ =? EmptyString)%string
  then Some (usererror.BadRequest "account id must be provided")
  else if (OrgIdentifier in_ =? EmptyString)%string
  then Some (usererror.BadRequest "organization identifier must be provided")
  else if (ProjectIdentifier in_ =? EmptyString)%string
  then Some (usererror.BadRequest "project identifier must be provided")
  else if (Token in_ =? EmptyString)%string
  then Some (usererror.BadRequest "token for harness code must be provided")
  else None.

End space.

(** A code comment on old line 6. *)
Definition codeCommentInput : pullreq.CommentCreateInput :=
  pullreq.mkCommentCreateInput 0 "why?" "0a1b2c" "3d4e5f" "f.txt"
                               6 false 6 false.

(** * Properties *)

(** ** Arithmetic of [int] *)

Lemma wrap_small z : - 2 ^ 63 <= z < 2 ^ 63 -> wrap z = z.
Proof.
  intros Hz. unfold wrap. rewrite Z.mod_small; lia.
Qed.

Lemma wrap_add_l a b : wrap (wrap a + b) = wrap (a + b).
Proof.
  unfold wrap.
  replace ((a + 2 ^ 63) mod 2 ^ 64 - 2 ^ 63 + b + 2 ^ 63)
    with ((a + 2 ^ 63) mod 2 ^ 64 + b) by lia.
  rewrite Zplus_mod_idemp_l. f_equal. f_equal. lia.
Qed.

Lemma incr_wrap_add a n : incr (wrap (a + n)) = wrap (a + (n + 1)).
Proof.
  unfold incr. rewrite wrap_add_l. f_equal. lia.
Qed.

Lemma decr_wrap_sub a n : decr (wrap (a - n)) = wrap (a - (n + 1)).
Proof.
  unfold decr. replace (wrap (a - n) - 1) with (wrap (a - n) + (-1)) by lia.
  rewrite wrap_add_l. f_equal. lia.
Qed.

Lemma len_app {A} (l1 l2 : list A) : len (l1 ++ l2) = len l1 + len l2.
Proof. unfold len. rewrite length_app. lia. Qed.

Lemma len_nonneg {A} (l : list A) : 0 <= len l.
Proof. unfold len. lia. Qed.

(** ** [concat] joins its arguments *)

Lemma copyAt_replicate {T} (zero : T) (done : list T) (m : list T) k :
  copyAt (done ++ replicate (length m + k) zero) (length done) m =
  (done ++ m) ++ replicate k zero.
Proof.
  unfold copyAt, copy.
  rewrite take_app_length, drop_app_length.
  rewrite length_replicate, drop_replicate.
  rewrite firstn_all2 by lia.
  replace (length m + k - length m)%nat with k by lia.
  by rewrite <- !app_assoc.
Qed.

Lemma concatFill_replicate {T} (zero : T) (a : list (list T)) :
  forall done : list T,
    concatFill (done ++ replicate (totalLen a) zero) (length done) a =
    done ++ List.concat a.
Proof.
  induction a as [|m a IH]; intros done; simpl.
  - reflexivity.
  - rewrite copyAt_replicate.
    replace (length done + length m)%nat with (length (done ++ m))
      by (rewrite length_app; lia).
    rewrite IH. by rewrite <- app_assoc.
Qed.

Lemma concat_joins {T} (zero : T) (a : list (list T)) :
  concat zero a = List.concat a.
Proof.
  unfold concat. apply (concatFill_replicate zero a []).
Qed.

Lemma concat_three {T} (zero : T) (a b c : list T) :
  concat zero [a; b; c] = a ++ b ++ c.
Proof.
  rewrite concat_joins. simpl. by rewrite app_nil_r.
Qed.

(** ** The ring buffer *)

Lemma lastN_all {A} n (l : list A) : (length l <= n)%nat -> lastN n l = l.
Proof.
  intros H. unfold lastN. replace (length l - n)%nat with 0%nat by lia.
  reflexivity.
Qed.

Lemma lastN_snoc {A} n (l : list A) x :
  (1 <= n <= length l)%nat -> lastN n (l ++ [x]) = drop 1 (lastN n l) ++ [x].
Proof.
  intros H. unfold lastN. rewrite length_app, drop_drop. simpl.
  rewrite drop_app_le by lia. do 2 f_equal. lia.
Qed.

Lemma lastN_length {A} n (l : list A) :
  length (lastN n l) = Nat.min n (length l).
Proof. unfold lastN. rewrite length_drop. lia. Qed.

Lemma index_lookup {A} (l : list A) (i : nat) x :
  l !! i = Some x -> index l (Z.of_nat i) = Ok x.
Proof.
  intros H. unfold index, len.
  pose proof (lookup_lt_Some _ _ _ H) as Hlt.
  replace (0 <=? Z.of_nat i) with true by (symmetry; apply Z.leb_le; lia).
  replace (Z.of_nat i <? Z.of_nat (length l)) with true
    by (symmetry; apply Z.ltb_lt; lia).
  simpl. rewrite Nat2Z.id, H. reflexivity.
Qed.

Lemma bufHolds_new k : 0 <= k -> newStrCircBuf k = Ok (mkBuf (-1) [] k).
Proof.
  intros H. unfold newStrCircBuf.
  destruct (Z.ltb_spec k 0); [lia | reflexivity].
Qed.

Lemma bufHolds_empty k : 0 <= k -> bufHolds k (mkBuf (-1) [] k) [].
Proof.
  intros H. unfold bufHolds, drainOrder, lastN, len; simpl.
  repeat split; lia.
Qed.

(** With capacity 0 every push leaves the buffer as it is. *)
Lemma push_cap0 b s : entries_cap b = 0 -> push b s = Ok b.
Proof. intros H. unfold push. rewrite H. reflexivity. Qed.

Lemma bufHolds_push k b xs s :
  Z.min (len xs) k < 2 ^ 62 ->
  bufHolds k b xs ->
  exists b', push b s = Ok b' /\ bufHolds k b' (xs ++ [s]).
Proof.
  intros Hbound (Hcap & Hlen & Hhead & Hnf & Hdr).
  destruct (Z.eq_dec k 0) as [-> | Hk0].
  { exists b. split; [by apply push_cap0|].
    unfold bufHolds. rewrite Hcap, Hlen, Hdr.
    pose proof (len_nonneg xs). pose proof (len_nonneg (xs ++ [s])).
    repeat split; try lia.
    unfold lastN; simpl. by rewrite !Nat.sub_0_r, !drop_all. }
  assert (Hk : 0 < k) by (pose proof (len_nonneg (entries b)); lia).
  unfold push. rewrite Hcap.
  destruct (Z.eqb_spec k 0) as [|_]; [lia|].
  assert (Hincr : incr (head b) = head b + 1).
  { unfold incr. apply wrap_small. lia. }
  rewrite Hincr.
  destruct (Z.ltb_spec (len (entries b)) k) as [Hroom | Hfull].
  - (* below capacity: append *)
    eexists; split; [reflexivity|].
    specialize (Hnf Hroom).
    assert (Hall : entries b = xs).
    { assert (Hx : (length xs <= Z.to_nat k)%nat) by (unfold len in *; lia).
      rewrite <- (lastN_all _ _ Hx), <- Hdr. unfold drainOrder.
      replace (Z.to_nat (head b + 1)) with (length (entries b))
        by (unfold len in *; lia).
      by rewrite drop_all, firstn_all. }
    unfold bufHolds, drainOrder; simpl.
    rewrite !len_app. unfold len in *; simpl.
    repeat split; try lia.
    replace (Z.to_nat (head b + 1 + 1)) with (length (entries b ++ [s]))
      by (rewrite length_app; simpl; lia).
    rewrite drop_all, firstn_all, Hall. simpl.
    rewrite lastN_all; [done|]. rewrite length_app; simpl. lia.
  - (* at capacity: overwrite the oldest entry *)
    assert (Hlenk : len (entries b) = k) by lia.
    assert (Hxs : (1 <= Z.to_nat k <= length xs)%nat) by (unfold len in *; lia).
    assert (Hsn : lastN (Z.to_nat k) (xs ++ [s]) = drop 1 (drainOrder b) ++ [s])
      by (rewrite Hdr; apply lastN_snoc, Hxs).
    unfold drainOrder in Hsn.
    set (h := Z.to_nat (head b + 1)) in *.
    destruct (Z.geb_spec (head b + 1) k) as [Hwrap | Hnext].
    + (* the cursor goes back to the start *)
      destruct (entries b) as [|x B] eqn:Hes; [unfold len in *; simpl in *; lia|].
      unfold store. rewrite Hlenk.
      destruct (Z.ltb_spec 0 k); [|lia]. simpl.
      eexists; split; [reflexivity|].
      unfold bufHolds, drainOrder; simpl.
      assert (Hh : h = length (x :: B)) by (unfold len, h in *; lia).
      rewrite Hsn, Hh, drop_all, firstn_all. simpl. rewrite !drop_0.
      rewrite !len_app. unfold len in *; simpl in *.
      repeat split; lia.
    + (* the cursor moves on *)
      assert (Hh : (h < length (entries b))%nat) by (unfold len, h in *; lia).
      destruct (lookup_lt_is_Some_2 _ _ Hh) as [x Hx].
      unfold store. rewrite Hlenk.
      destruct (Z.leb_spec 0 (head b + 1)); [|lia].
      destruct (Z.ltb_spec (head b + 1) k); [|lia]. simpl.
      eexists; split; [reflexivity|].
      pose proof (take_drop_middle _ _ _ Hx) as Hmid. fold h.
      assert (HlenA : length (take h (entries b)) = h)
        by (rewrite length_take; lia).
      unfold bufHolds, drainOrder; simpl.
      rewrite Hsn, !len_app. unfold len. rewrite length_insert.
      unfold len in *. repeat split; try lia.
      replace (Z.to_nat (head b + 1 + 1)) with (S h) by (unfold h; lia).
      assert (Hd : drop h (entries b) = x :: drop (S h) (entries b))
        by (by apply drop_S).
      rewrite Hd. simpl. rewrite drop_0.
      remember (take h (entries b)) as A eqn:HA.
      remember (drop (S h) (entries b)) as B eqn:HB.
      rewrite <- Hmid.
      rewrite insert_app_r_alt by lia.
      rewrite HlenA, Nat.sub_diag. simpl.
      rewrite drop_app_ge, take_app_ge by lia.
      rewrite HlenA. replace (S h - h)%nat with 1%nat by lia. simpl.
      rewrite drop_0, take_0. by rewrite <- app_assoc.
Qed.

Lemma drainOrder_lookup b n i :
  len (entries b) = n -> 0 <= head b + 1 <= n -> n < 2 ^ 62 ->
  0 <= i < n ->
  index (entries b) (Z.rem (wrap (wrap (head b + 1) + i)) n) =
  match drainOrder b !! Z.to_nat i with Some x => Ok x | None => Panic end.
Proof.
  intros Hn Hh Hb Hi.
  rewrite (wrap_small (head b + 1)) by lia.
  rewrite wrap_small by lia.
  rewrite Z.rem_mod_nonneg by lia.
  unfold drainOrder.
  set (h := Z.to_nat (head b + 1)).
  assert (Hlen : length (entries b) = Z.to_nat n) by (unfold len in *; lia).
  destruct (Z.lt_ge_cases (head b + 1 + i) n) as [Hlow | Hhigh].
  - rewrite Z.mod_small by lia.
    rewrite lookup_app_l by (rewrite length_drop; lia).
    rewrite lookup_drop.
    replace (h + Z.to_nat i)%nat with (Z.to_nat (head b + 1 + i)) by lia.
    destruct (lookup_lt_is_Some_2 (entries b) (Z.to_nat (head b + 1 + i)))
      as [x Hx]; [lia|].
    rewrite Hx. rewrite <- (Z2Nat.id (head b + 1 + i)) by lia.
    by apply index_lookup.
  - replace ((head b + 1 + i) mod n) with (head b + 1 + i - n)
      by (apply Zmod_unique with 1; lia).
    rewrite lookup_app_r by (rewrite length_drop; lia).
    rewrite length_drop, lookup_take_lt by lia.
    replace (Z.to_nat i - (length (entries b) - h))%nat
      with (Z.to_nat (head b + 1 + i - n)) by lia.
    destruct (lookup_lt_is_Some_2 (entries b) (Z.to_nat (head b + 1 + i - n)))
      as [x Hx]; [lia|].
    rewrite Hx. rewrite <- (Z2Nat.id (head b + 1 + i - n)) by lia.
    by apply index_lookup.
Qed.

Lemma linesFrom_drain b n :
  len (entries b) = n -> 0 <= head b + 1 <= n -> n < 2 ^ 62 ->
  forall (j : nat) (i : Z),
    0 <= i -> i + Z.of_nat j = n ->
    linesFrom b n j i = Ok (drop (Z.to_nat i) (drainOrder b)).
Proof.
  intros Hn Hh Hb.
  assert (Hlen : length (drainOrder b) = Z.to_nat n).
  { unfold drainOrder, len in *.
    rewrite length_app, length_drop, length_take. lia. }
  induction j as [|j IH]; intros i Hi Hij; simpl.
  - rewrite drop_ge by lia. reflexivity.
  - rewrite drainOrder_lookup by lia.
    destruct (lookup_lt_is_Some_2 (drainOrder b) (Z.to_nat i)) as [x Hx];
      [lia|].
    rewrite Hx. simpl. rewrite IH by lia. simpl.
    rewrite (drop_S _ _ _ Hx). do 3 f_equal. lia.
Qed.

Lemma bufHolds_lines k b xs :
  Z.min (len xs) k < 2 ^ 62 ->
  bufHolds k b xs ->
  lines b = Ok (lastN (Z.to_nat k) xs).
Proof.
  intros Hbound (Hcap & Hlen & Hhead & Hnf & Hdr).
  unfold lines. rewrite Hcap, <- Hdr.
  destruct (Z.ltb_spec (len (entries b)) k) as [Hroom | Hfull].
  - specialize (Hnf Hroom). unfold drainOrder.
    replace (Z.to_nat (head b + 1)) with (length (entries b))
      by (unfold len in *; lia).
    by rewrite drop_all, firstn_all.
  - pose proof (len_nonneg (entries b)).
    rewrite (linesFrom_drain b k) by lia.
    reflexivity.
Qed.

Lemma bufHolds_pushAll k xs :
  forall b pre,
    Z.min (len (pre ++ xs)) k < 2 ^ 62 ->
    bufHolds k b pre ->
    exists b', pushAll b xs = Ok b' /\ bufHolds k b' (pre ++ xs).
Proof.
  induction xs as [|x xs IH]; intros b pre Hbound Hb; simpl.
  - exists b. by rewrite app_nil_r.
  - rewrite cons_middle, app_assoc in Hbound |- *.
    destruct (bufHolds_push k b pre x) as (b1 & -> & Hb1).
    { rewrite !len_app in Hbound. pose proof (len_nonneg xs).
      pose proof (len_nonneg [x]). lia. }
    { done. }
    simpl. by apply IH.
Qed.

(** ** The scanner and the loop *)

Lemma Scan_pending scan l rest :
  pending scan = l :: rest ->
  fst (Scan scan) = true /\ text (snd (Scan scan)) = l /\
  pending (snd (Scan scan)) = rest /\
  ending (snd (Scan scan)) = ending scan /\
  ahead (snd (Scan scan)) = ahead scan.
Proof. intros H. unfold Scan. rewrite H. by simpl. Qed.

Lemma isHunkLine_neq c s :
  action_neq c actionRemoved && action_neq c actionAdded
  && action_neq c actionUnchanged = negb (isHunkLine (String c s)).
Proof.
  unfold isHunkLine, action_neq, action_eqb.
  by rewrite !negb_orb.
Qed.

(** One run of the loop body does what [iterates] says. *)
Lemma cutIteration_iterates params scan st it :
  cutIteration params scan st = Ok it -> iterates params scan st it.
Proof.
  unfold cutIteration, scanHunkLine.
  destruct (pastLineEnd params st) eqn:Hend.
  { intros [= <-]. by constructor. }
  destruct (pending scan) as [|l rest] eqn:Hp.
  - assert (Hs : Scan scan = (false, snd (Scan scan)))
      by (unfold Scan; by rewrite Hp).
    rewrite Hs. simpl.
    destruct (Err (snd (Scan scan))) eqn:He; intros [= <-].
    + by apply it_read_error.
    + by apply it_stream_end.
  - assert (Hs : Scan scan = (true, snd (Scan scan)))
      by (unfold Scan; by rewrite Hp).
    destruct (Scan_pending _ _ _ Hp) as (_ & Ht & _).
    rewrite Hs. simpl. unfold Text. rewrite Ht.
    destruct l as [|c s].
    { intros [= <-]. by eapply it_empty_line. }
    rewrite (isHunkLine_neq c s).
    destruct (isHunkLine (String c s)) eqn:Hl; simpl.
    2: { intros [= <-]. by eapply it_terminator. }
    destruct (beforeLineStart params st) eqn:Hb.
    + destruct (push (linesBeforeBuf st) (String c s)) as [b|] eqn:Hpush;
        simpl; [|discriminate].
      intros [= <-]. by eapply (it_before _ _ _ (String c s)).
    + destruct (Z.gtb_spec (len (diffCut st ++ [String c s]))
                           (LineLimit params)); intros [= <-].
      * eapply (it_cut_limit _ _ _ (String c s)); eauto; lia.
      * eapply (it_cut_next _ _ _ (String c s)); eauto; lia.
Qed.

(** The rule of the loop: what holds when the loop is entered and is kept
    by every run of the body that goes on, gives what every run that
    leaves the loop establishes. *)
Lemma cutLoop_rule params (Inv : Scanner -> cutState -> Prop)
    (Post : loopExit -> Prop) :
  (forall scan st it,
      Inv scan st -> iterates params scan st it ->
      match it with
      | Done e => Post e
      | Next st' scan' => Inv scan' st'
      end) ->
  forall scan st e,
    Inv scan st -> cutLoop params scan st = Ok e -> Post e.
Proof.
  intros Hstep scan st.
  funelim (cutLoop params scan st); intros e' HInv Hrun.
  - injection Hrun as <-.
    apply (Hstep scan st (Done e) HInv). by apply cutIteration_iterates.
  - apply (H Inv Post Hstep e'); [|done].
    apply (Hstep scan st (Next st' scan') HInv).
    by apply cutIteration_iterates.
  - discriminate.
Qed.

Lemma iterates_cutIteration params scan st it :
  iterates params scan st it -> cutIteration params scan st = Ok it.
Proof.
  intros Hit. unfold cutIteration, scanHunkLine.
  inversion Hit as
    [Hend | e Hend Hp He | Hend Hp He | rest Hend Hp | c s rest Hend Hp Hl
    | line rest b Hend Hp Hl Hb Hpush | line rest Hend Hp Hl Hb Hlim
    | line rest Hend Hp Hl Hb Hlim ]; subst; rewrite Hend; try done.
  1,2: assert (Hs : Scan scan = (false, snd (Scan scan)))
         by (unfold Scan; by rewrite Hp).
  1,2: by rewrite Hs; simpl; rewrite He.
  all: assert (Hs : Scan scan = (true, snd (Scan scan)))
         by (unfold Scan; by rewrite Hp).
  all: destruct (Scan_pending _ _ _ Hp) as (_ & Ht & _).
  all: rewrite Hs; simpl; unfold Text; rewrite Ht; try done.
  - rewrite (isHunkLine_neq c s), Hl. done.
  - destruct line as [|c s]; [done|].
    rewrite (isHunkLine_neq c s), Hl. simpl. rewrite Hb, Hpush. done.
  - destruct line as [|c s]; [done|].
    rewrite (isHunkLine_neq c s), Hl. simpl. rewrite Hb.
    destruct (Z.gtb_spec (len (diffCut st ++ [String c s])) (LineLimit params));
      [done | lia].
  - destruct line as [|c s]; [done|].
    rewrite (isHunkLine_neq c s), Hl. simpl. rewrite Hb.
    destruct (Z.gtb_spec (len (diffCut st ++ [String c s])) (LineLimit params));
      [lia | done].
Qed.

Lemma cutLoop_step params scan st :
  cutLoop params scan st =
  match cutIteration params scan st with
  | Panic => Panic
  | Ok (Done e) => Ok e
  | Ok (Next st' scan') => cutLoop params scan' st'
  end.
Proof.
  funelim (cutLoop params scan st);
    match goal with E : cutIteration _ _ _ = _ |- _ => by rewrite E end.
Qed.

Lemma iterates_shorter params scan st st' scan' :
  iterates params scan st (Next st' scan') ->
  exists l, pending scan = l :: pending scan'.
Proof.
  intros Hit. inversion Hit as
    [ | | | | | line rest b Hend Hp Hl Hb Hpush | | line rest Hend Hp Hl Hb Hlim ];
    subst; destruct (Scan_pending _ _ _ Hp) as (_ & _ & -> & _); eauto.
Qed.

(** ** Counting lines *)

Lemma countLines_app f l1 l2 :
  countLines f (l1 ++ l2) = (countLines f l1 + countLines f l2)%nat.
Proof. induction l1 as [|x l1 IH]; simpl; [done|]. rewrite IH. lia. Qed.

Lemma countLines_le f l : (countLines f l <= length l)%nat.
Proof. induction l as [|x l IH]; simpl; [done|]. destruct (f x); lia. Qed.

Lemma incrN_small n z :
  - 2 ^ 63 <= z -> z + Z.of_nat n < 2 ^ 63 -> incrN n z = z + Z.of_nat n.
Proof.
  unfold incrN. induction n as [|n IH]; intros Hlo Hhi; simpl; [lia|].
  rewrite IH by lia. unfold incr. rewrite wrap_small; lia.
Qed.

Lemma incrN_add n m z : incrN (n + m) z = incrN m (incrN n z).
Proof. unfold incrN. by rewrite Nat.add_comm, Nat.iter_add. Qed.

Lemma decrN_add n m z : decrN (n + m) z = decrN m (decrN n z).
Proof. unfold decrN. by rewrite Nat.add_comm, Nat.iter_add. Qed.

Lemma notAdded_actionOf line :
  isHunkLine line = true ->
  action_neq (actionOf line) actionAdded = notAdded line.
Proof. by destruct line. Qed.

Lemma notRemoved_actionOf line :
  isHunkLine line = true ->
  action_neq (actionOf line) actionRemoved = notRemoved line.
Proof. by destruct line. Qed.

(** ** What the loop keeps *)

Lemma cutCounted_cutLine st line :
  isHunkLine line = true -> cutCounted st ->
  cutCounted (cutLine st (actionOf line) line).
Proof.
  intros Hl (Hold & Hnew & Hall & Hout & Hin).
  unfold cutCounted, cutLine, cutHeaderStep; simpl.
  rewrite !countLines_app, !incrN_add; simpl.
  rewrite (notAdded_actionOf _ Hl), (notRemoved_actionOf _ Hl), Hold, Hnew.
  repeat split.
  - by destruct (notAdded line).
  - by destruct (notRemoved line).
  - apply Forall_app. split; [done|]. by constructor.
  - done.
  - intros _. by destruct (diffCut st).
Qed.

Lemma cutLoop_cutCounted params scan st e :
  cutCounted st -> cutLoop params scan st = Ok e -> atBreak cutCounted e.
Proof.
  apply (cutLoop_rule params (fun _ st => cutCounted st) (atBreak cutCounted)).
  clear. intros scan st it Hst Hit.
  inversion Hit; subst; simpl; auto using cutCounted_cutLine.
  by apply (cutCounted_cutLine st line).
Qed.

Lemma cutLoop_limitKept params scan st e :
  cutBounded params st -> cutLoop params scan st = Ok e -> limitKept params e.
Proof.
  apply (cutLoop_rule params (fun _ st => cutBounded params st)
                      (limitKept params)).
  clear. intros scan st it Hst Hit.
  inversion Hit; subst; simpl; auto.
  - exists (diffCut st), line. repeat split; [done | lia].
  - by right.
Qed.

Lemma cutLoop_errAtBreak params scan st e :
  cutLoop params scan st = Ok e -> errAtBreak e.
Proof.
  apply (cutLoop_rule params (fun _ _ => True) errAtBreak); [|done].
  clear. intros scan st it _ Hit.
  by inversion Hit.
Qed.

(** ** The header over the context *)

Lemma firstAction_ok s c : firstAction s = Ok c -> exists s', s = String c s'.
Proof. destruct s as [|c' s']; [done|]. intros [= ->]. eauto. Qed.

Lemma coverBefore_spec ls :
  forall h h',
    coverBefore h ls = Ok h' ->
    OldSpan h' = incrN (countLines notAdded ls) (OldSpan h) /\
    NewSpan h' = incrN (countLines notRemoved ls) (NewSpan h) /\
    OldLine h' = decrN (countLines notAdded ls) (OldLine h) /\
    NewLine h' = decrN (countLines notRemoved ls) (NewLine h) /\
    Forall (fun l => l <> EmptyString) ls.
Proof.
  induction ls as [|s ls IH]; intros h h'; simpl.
  - intros [= <-]. by repeat split.
  - destruct (firstAction s) as [c|] eqn:Hc; simpl; [|done].
    destruct (firstAction_ok _ _ Hc) as [s' ->].
    intros Hrest. apply IH in Hrest as (Ho & Hn & Hol & Hnl & Hne).
    rewrite !incrN_add, !decrN_add. simpl.
    rewrite Ho, Hn, Hol, Hnl.
    repeat split; [| | | | by constructor];
      by destruct (action_neq c actionAdded), (action_neq c actionRemoved).
Qed.

Lemma coverAfter_spec ls :
  forall h h',
    coverAfter h ls = Ok h' ->
    OldSpan h' = incrN (countLines notAdded ls) (OldSpan h) /\
    NewSpan h' = incrN (countLines notRemoved ls) (NewSpan h) /\
    OldLine h' = OldLine h /\
    NewLine h' = NewLine h /\
    Forall (fun l => l <> EmptyString) ls.
Proof.
  induction ls as [|s ls IH]; intros h h'; simpl.
  - intros [= <-]. by repeat split.
  - destruct (firstAction s) as [c|] eqn:Hc; simpl; [|done].
    destruct (firstAction_ok _ _ Hc) as [s' ->].
    intros Hrest. apply IH in Hrest as (Ho & Hn & Hol & Hnl & Hne).
    rewrite !incrN_add. simpl.
    rewrite Ho, Hn, Hol, Hnl.
    repeat split; [| | | | by constructor];
      by destruct (action_neq c actionAdded), (action_neq c actionRemoved).
Qed.

Lemma isHunkLine_nonempty l : isHunkLine l = true -> l <> EmptyString.
Proof. by destruct l. Qed.

Lemma cutCounted_start hunkHeader buf : cutCounted (cutStart hunkHeader buf).
Proof. unfold cutCounted, cutStart; simpl. by repeat split. Qed.

Section DiffCutFacts.

Context {DiffFileHeader : Type} (zeroFileHeader : DiffFileHeader).
Context (ParseDiffFileHeader : string -> DiffFileHeader * bool).
Context (ParseDiffHunkHeader : string -> HunkHeader * bool).

Local Abbreviation scanHeaders :=
  (scanHeaders zeroFileHeader ParseDiffFileHeader ParseDiffHunkHeader).
Local Abbreviation diffCutLoop :=
  (diffCutLoop zeroFileHeader ParseDiffFileHeader ParseDiffHunkHeader).
Local Abbreviation diffCutScan :=
  (diffCutScan zeroFileHeader ParseDiffFileHeader ParseDiffHunkHeader).
Local Abbreviation DiffCut :=
  (DiffCut zeroFileHeader ParseDiffFileHeader ParseDiffHunkHeader).

(** The stages a call has gone through when it returns without error. *)
Lemma DiffCut_ok r params h hunk :
  DiffCut r params = Ok (h, hunk, None) ->
  exists pt hl,
    diffCutScan r params = Ok (inr pt) /\
    diffCutHeaderLines pt = Ok hl /\
    h = cutHeader pt /\
    hunk = mkHunk hl (cutBefore pt ++ cutLines pt ++ cutAfter pt).
Proof.
  unfold DiffCut.
  destruct (diffCutScan r params) as [[err|pt]|]; simpl; [done| |done].
  destruct (diffCutHeaderLines pt) as [hl|] eqn:Hhl; simpl; [|done].
  rewrite concat_three. intros [= <- <-]. by exists pt, hl.
Qed.

Lemma diffCutLoop_ok r params e :
  diffCutLoop r params = Ok (inr e) ->
  exists hunkHeader scanner buf,
    scanHeaders r = inr (hunkHeader, scanner) /\
    newStrCircBuf (BeforeLines params) = Ok buf /\
    cutLoop params scanner (cutStart hunkHeader buf) = Ok e.
Proof.
  unfold diffCutLoop.
  destruct (scanHeaders r) as [err|[hunkHeader scanner]]; [done|].
  destruct (newStrCircBuf (BeforeLines params)) as [buf|]; simpl; [|done].
  destruct (cutLoop _ _ _) as [e'|] eqn:Hloop; simpl; [|done].
  intros [= <-]. by exists hunkHeader, scanner, buf.
Qed.

Lemma collectContext_ok params at_ err st scanner pt :
  collectContext params at_ err st scanner = Ok (inr pt) ->
  inCut st = true /\
  lines (linesBeforeBuf st) = Ok (cutBefore pt) /\
  cutHeader pt = diffCutHeader st /\
  cutLines pt = diffCut st /\
  cutBreak pt = at_ /\
  (errors_Is err io_EOF = true /\ cutAfter pt = [] \/
   errors_Is err io_EOF = false /\
   cutAfter pt = fst (afterLoop (Z.to_nat (AfterLines params)) scanner []) /\
   Err (snd (afterLoop (Z.to_nat (AfterLines params)) scanner [])) = None).
Proof.
  unfold collectContext.
  destruct (inCut st); simpl; [|done].
  destruct (lines (linesBeforeBuf st)) as [linesBefore|]; simpl; [|done].
  destruct (errors_Is err io_EOF); simpl.
  - intros [= <-]. simpl. repeat split. by left.
  - destruct (afterLoop _ _ _) as [linesAfter scanner'].
    destruct (Err scanner') eqn:He; [done|].
    intros [= <-]. simpl. repeat split. by right.
Qed.

Lemma diffCutScan_ok r params pt :
  diffCutScan r params = Ok (inr pt) ->
  exists at_ err st scanner,
    diffCutLoop r params = Ok (inr (LoopBreak at_ err st scanner)) /\
    collectContext params at_ err st scanner = Ok (inr pt).
Proof.
  unfold diffCutScan.
  destruct (diffCutLoop r params) as [[err|[err|at_ err st scanner]]|];
    simpl; try done.
  intros H. by exists at_, err, st, scanner.
Qed.

(** The cut of a call without error is counted by the header of the cut. *)
Lemma diffCutScan_cutCounted r params pt :
  diffCutScan r params = Ok (inr pt) ->
  cutLines pt <> [] /\
  Forall (fun l => isHunkLine l = true) (cutLines pt) /\
  OldSpan (cutHeader pt) = incrN (countLines notAdded (cutLines pt)) 0 /\
  NewSpan (cutHeader pt) = incrN (countLines notRemoved (cutLines pt)) 0.
Proof.
  intros (at_ & err & st & scanner & Hloop & Hctx)%diffCutScan_ok.
  apply diffCutLoop_ok in Hloop as (hh & scan0 & buf & _ & _ & Hloop).
  apply cutLoop_cutCounted in Hloop; [|apply cutCounted_start].
  destruct Hloop as (Ho & Hn & Hall & _ & Hin).
  apply collectContext_ok in Hctx as (HinCut & _ & -> & -> & _).
  auto.
Qed.

(** C1. For every call of DiffCut that returns without error, the OldSpan
    of the returned hunk's header is the number of lines of the hunk whose
    first byte is not '+', and its NewSpan the number of lines whose first
    byte is not '-' (every line of the hunk has a first byte).  The length
    of the returned slice is an int. *)
Theorem span_reconciliation r params h hunk :
  DiffCut r params = Ok (h, hunk, None) ->
  len (Lines hunk) < 2 ^ 63 ->
  OldSpan (HunkHeader_of hunk) = Z.of_nat (countLines notAdded (Lines hunk)) /\
  NewSpan (HunkHeader_of hunk) = Z.of_nat (countLines notRemoved (Lines hunk)) /\
  Forall (fun l => l <> EmptyString) (Lines hunk).
Proof.
  intros (pt & hl & Hscan & Hhl & -> & ->)%DiffCut_ok. simpl.
  intros Hlen.
  destruct (diffCutScan_cutCounted _ _ _ Hscan) as (_ & Hall & Ho & Hn).
  unfold diffCutHeaderLines in Hhl.
  destruct (coverBefore _ _) as [h1|] eqn:Hbefore; simpl in Hhl; [|done].
  apply coverBefore_spec in Hbefore as (Ho1 & Hn1 & _ & _ & Hne1).
  apply coverAfter_spec in Hhl as (Ho2 & Hn2 & _ & _ & Hne2).
  rewrite Ho2, Ho1, Ho, Hn2, Hn1, Hn, <- !incrN_add.
  rewrite !countLines_app.
  pose proof (countLines_le notAdded (cutBefore pt)).
  pose proof (countLines_le notAdded (cutLines pt)).
  pose proof (countLines_le notAdded (cutAfter pt)).
  pose proof (countLines_le notRemoved (cutBefore pt)).
  pose proof (countLines_le notRemoved (cutLines pt)).
  pose proof (countLines_le notRemoved (cutAfter pt)).
  unfold len in Hlen. rewrite !length_app in Hlen.
  rewrite !incrN_small by lia.
  repeat split; try lia.
  rewrite !Forall_app. repeat split; try done.
  eapply Forall_impl; [exact Hall|]. apply isHunkLine_nonempty.
Qed.


Lemma Scan_nil scan :
  pending scan = [] -> pending (snd (Scan scan)) = [].
Proof. intros H. unfold Scan. by rewrite H. Qed.

Lemma firstCut_more hunkHeader consumed st st' l :
  diffCut st' = diffCut st -> diffCutHeader st' = diffCutHeader st ->
  firstCut hunkHeader consumed st ->
  firstCut hunkHeader (consumed ++ [l]) st'.
Proof.
  intros Hc Hh (skipped & rest & -> & Hne & Hhd & Ho & Hn).
  exists skipped, (rest ++ [l]). rewrite Hc, Hh, <- Hhd.
  repeat split; [by rewrite app_assoc | by destruct rest | | done..].
  by destruct rest.
Qed.

Lemma firstCut_cutLine hunkHeader body scan st line :
  tracked hunkHeader body scan st ->
  exists consumed,
    body = consumed ++ pending scan /\
    firstCut hunkHeader (consumed ++ [line]) (cutLine st (actionOf line) line).
Proof.
  intros (consumed & Hbody & Ho & Hn & Hout & Hin).
  exists consumed. split; [done|].
  destruct (inCut st) eqn:HinCut.
  - destruct (Hin eq_refl) as (skipped & rest & -> & Hne & Hhd & Hol & Hnl).
    exists skipped, (rest ++ [line]).
    unfold cutLine, cutHeaderStep; simpl. rewrite HinCut; simpl.
    repeat split; [by rewrite app_assoc | by destruct rest | | done..].
    destruct rest as [|x rest]; [done|]. simpl in *.
    by destruct (diffCut st).
  - exists consumed, [line].
    unfold cutLine, cutHeaderStep; simpl. rewrite HinCut; simpl.
    rewrite (Hout eq_refl). by repeat split.
Qed.

Lemma tracked_advance hunkHeader body scan st st' line rest :
  pending scan = line :: rest ->
  isHunkLine line = true ->
  currentOldLine st' = currentOldLine st ->
  currentNewLine st' = currentNewLine st ->
  (inCut st' = false -> diffCut st' = []) ->
  (forall consumed,
      body = consumed ++ pending scan ->
      inCut st' = true -> firstCut hunkHeader (consumed ++ [line]) st') ->
  tracked hunkHeader body scan st ->
  tracked hunkHeader body (snd (Scan scan)) (advance (actionOf line) st').
Proof.
  intros Hp Hl Hold Hnew Hout' Hin' (consumed & Hbody & Ho & Hn & Hout & Hin).
  destruct (Scan_pending _ _ _ Hp) as (_ & _ & Hrest & _).
  exists (consumed ++ [line]). rewrite Hrest.
  unfold advance; simpl.
  rewrite (notAdded_actionOf _ Hl), (notRemoved_actionOf _ Hl), Hold, Hnew.
  rewrite !countLines_app, !incrN_add, <- Ho, <- Hn. simpl.
  repeat split.
  - by rewrite <- app_assoc, Hbody, Hp.
  - by destruct (notAdded line).
  - by destruct (notRemoved line).
  - done.
  - by apply Hin'.
Qed.

Lemma cutLoop_tracked params hunkHeader body scan st e :
  tracked hunkHeader body scan st ->
  cutLoop params scan st = Ok e ->
  trackedAtBreak hunkHeader body e.
Proof.
  apply (cutLoop_rule params (tracked hunkHeader body)
                      (trackedAtBreak hunkHeader body)).
  clear. intros scan st it Hst Hit.
  inversion Hit as
    [Hend | e Hend Hp He | Hend Hp He | rest Hend Hp | c s rest Hend Hp Hl
    | line rest b Hend Hp Hl Hb Hpush | line rest Hend Hp Hl Hb Hlim
    | line rest Hend Hp Hl Hb Hlim ]; subst; simpl; try done.
  - destruct Hst as (consumed & Hbody & _ & _ & _ & Hin). by exists consumed.
  - destruct Hst as (consumed & Hbody & _ & _ & _ & Hin).
    exists consumed. by rewrite (Scan_nil _ Hp), <- Hp.
  - destruct Hst as (consumed & Hbody & _ & _ & _ & Hin).
    destruct (Scan_pending _ _ _ Hp) as (_ & _ & Hrest & _).
    exists (consumed ++ [String c s]). rewrite Hrest. split.
    + by rewrite <- app_assoc, Hbody, Hp.
    + intros HinCut. by apply (firstCut_more _ _ st), Hin.
  - apply (tracked_advance _ _ _ st _ _ rest); try done.
    + destruct Hst as (_ & _ & _ & _ & Hout & _). exact Hout.
    + intros consumed Hbody HinCut.
      destruct Hst as (consumed' & Hbody' & _ & _ & _ & Hin).
      assert (consumed' = consumed) as -> by (by eapply app_inv_tail; rewrite <- Hbody').
      by apply (firstCut_more _ _ st), Hin.
  - destruct (firstCut_cutLine _ _ _ _ line Hst) as (consumed & Hbody & Hcut).
    destruct (Scan_pending _ _ _ Hp) as (_ & _ & Hrest & _).
    exists (consumed ++ [line]). rewrite Hrest. split; [|done].
    by rewrite <- app_assoc, Hbody, Hp.
  - apply (tracked_advance _ _ _ st _ _ rest); try done.
    intros consumed Hbody _.
    destruct (firstCut_cutLine _ _ _ _ line Hst) as (consumed' & Hbody' & Hcut).
    assert (consumed' = consumed) as -> by (by eapply app_inv_tail; rewrite <- Hbody').
    done.
Qed.

Lemma tracked_start hunkHeader buf scan :
  tracked hunkHeader (pending scan) scan (cutStart hunkHeader buf).
Proof. exists []. unfold cutStart; simpl. by repeat split. Qed.

(** ** The search for the headers *)

Lemma Scan_false scan scan' :
  Scan scan = (false, scan') ->
  pending scan = [] /\ Err scan' =
    match ending scan with io_EOF => None | e => Some e end.
Proof.
  unfold Scan. destruct (pending scan); [|done].
  intros [= <-]. done.
Qed.

Lemma Scan_true scan scan' :
  Scan scan = (true, scan') ->
  pending scan = Text scan' :: pending scan' /\
  ending scan' = ending scan /\ ahead scan' = ahead scan.
Proof.
  unfold Scan. destruct (pending scan); [done|].
  intros [= <-]. done.
Qed.

Lemma scanFileHeader_absent scan :
  Forall (fun l => snd (ParseDiffFileHeader l) = false) (pending scan) ->
  exists scan',
    scanFileHeader zeroFileHeader ParseDiffFileHeader scan =
    (zeroFileHeader, Some (endError scan), scan').
Proof.
  funelim (scanFileHeader zeroFileHeader ParseDiffFileHeader scan);
    intros Hall.
  all: try match goal with E : Scan _ = (true, _) |- _ =>
             pose proof (Scan_true _ _ E) as (Hp & He & _) end.
  all: try match goal with E : Scan _ = (false, _) |- _ =>
             pose proof (Scan_false _ _ E) as (_ & Herr) end.
  - rewrite Hp in Hall.
    apply Forall_cons_1 in Hall as [Hhead _]. by rewrite Heq in Hhead.
  - rewrite Hp in Hall.
    apply Forall_cons_1 in Hall as [_ Htail].
    match goal with IH : Forall _ _ -> _ |- _ =>
      destruct (IH Htail) as [scan2 Hscan2] end.
    exists scan2. rewrite Hscan2. unfold endError. by rewrite He.
  - rewrite Herr in Heq.
    exists scan'. unfold endError.
    destruct (ending scan); inversion Heq; by subst.
  - rewrite Herr in Heq.
    exists scan'. unfold endError.
    destruct (ending scan); inversion Heq; by subst.
Qed.

Lemma scanHunkHeader_absent scan :
  Forall (fun l => snd (ParseDiffHunkHeader l) = false) (pending scan) ->
  exists scan',
    scanHunkHeader ParseDiffHunkHeader scan =
    (zeroHunkHeader, Some (endError scan), scan').
Proof.
  funelim (scanHunkHeader ParseDiffHunkHeader scan);
    intros Hall.
  all: try match goal with E : Scan _ = (true, _) |- _ =>
             pose proof (Scan_true _ _ E) as (Hp & He & _) end.
  all: try match goal with E : Scan _ = (false, _) |- _ =>
             pose proof (Scan_false _ _ E) as (_ & Herr) end.
  - rewrite Hp in Hall.
    apply Forall_cons_1 in Hall as [Hhead _]. by rewrite Heq in Hhead.
  - rewrite Hp in Hall.
    apply Forall_cons_1 in Hall as [_ Htail].
    match goal with IH : Forall _ _ -> _ |- _ =>
      destruct (IH Htail) as [scan2 Hscan2] end.
    exists scan2. rewrite Hscan2. unfold endError. by rewrite He.
  - rewrite Herr in Heq.
    exists scan'. unfold endError.
    destruct (ending scan); inversion Heq; by subst.
  - rewrite Herr in Heq.
    exists scan'. unfold endError.
    destruct (ending scan); inversion Heq; by subst.
Qed.

Lemma scanFileHeader_found scan :
  forall pre l post,
    pending scan = pre ++ l :: post ->
    Forall (fun l => snd (ParseDiffFileHeader l) = false) pre ->
    snd (ParseDiffFileHeader l) = true ->
    exists scan',
      scanFileHeader zeroFileHeader ParseDiffFileHeader scan =
      (fst (ParseDiffFileHeader l), None, scan') /\
      pending scan' = post /\ ending scan' = ending scan.
Proof.
  funelim (scanFileHeader zeroFileHeader ParseDiffFileHeader scan);
    intros pre l post Hp0 Hpre Hl.
  all: try match goal with E : Scan _ = (true, _) |- _ =>
             pose proof (Scan_true _ _ E) as (Hp & He & _) end.
  all: try match goal with E : Scan _ = (false, _) |- _ =>
             pose proof (Scan_false _ _ E) as (Hnil & _) end.
  - rewrite Hp0 in Hp.
    destruct pre as [|x pre]; simpl in Hp.
    + injection Hp as -> ->. exists scan'. by rewrite Heq.
    + injection Hp as -> Hrest.
      apply Forall_cons_1 in Hpre as [Hhead _]. by rewrite Heq in Hhead.
  - rewrite Hp0 in Hp.
    destruct pre as [|x pre]; simpl in Hp.
    + injection Hp as -> ->. by rewrite Heq in Hl.
    + injection Hp as -> Hrest.
      apply Forall_cons_1 in Hpre as [_ Htail].
      match goal with IH : forall pre l post, _ -> _ -> _ -> _ |- _ =>
        destruct (IH pre l post (eq_sym Hrest) Htail Hl)
          as (scan2 & ? & ? & ?) end.
      exists scan2. repeat split; congruence.
  - rewrite Hp0 in Hnil. by destruct pre.
  - rewrite Hp0 in Hnil. by destruct pre.
Qed.

(** C10. Whenever DiffCut returns an error, the header and the hunk it
    returns with it are the zero values: no field of the header is set and
    the hunk has no line. *)
Theorem error_returns_zero_values r params h hunk err :
  DiffCut r params = Ok (h, hunk, Some err) ->
  h = zeroHunkHeader /\ hunk = zeroHunk /\
  OldLine h = 0 /\ OldSpan h = 0 /\ NewLine h = 0 /\ NewSpan h = 0 /\
  Lines hunk = [].
Proof.
  unfold DiffCut.
  destruct (diffCutScan r params) as [[e|pt]|]; simpl; [|  |done].
  - intros [= <- <- <-]. by repeat split.
  - by destruct (diffCutHeaderLines pt).
Qed.

Lemma DiffCut_scan_error r params err :
  diffCutScan r params = Ok (inl err) ->
  DiffCut r params = Ok (zeroHunkHeader, zeroHunk, Some err).
Proof. unfold DiffCut. by intros ->. Qed.

Lemma diffCutScan_header_error r params err :
  scanHeaders r = inl err -> diffCutScan r params = Ok (inl err).
Proof. unfold diffCutScan, diffCutLoop. by intros ->. Qed.

(** C3, as the code has it. DiffCut returns the error HunkNotFound when the
    stream ends, without a read failure, before a line that is a file
    header, when it so ends after the file header before a line that is a
    hunk header, and when the loop is left by a break with no line in the
    cut, whichever break it is, the one at the end of the hunk's lines
    included. *)
Theorem hunk_not_found r params :
  rd_end r = io_EOF /\ fileHeaderAbsent ParseDiffFileHeader r \/
  rd_end r = io_EOF /\
    hunkHeaderAbsent ParseDiffFileHeader ParseDiffHunkHeader r \/
  cutNotEntered zeroFileHeader ParseDiffFileHeader ParseDiffHunkHeader
                r params ->
  DiffCut r params = Ok (zeroHunkHeader, zeroHunk, Some ErrHunkNotFound).
Proof.
  intros [[Hend Habs] | [[Hend Habs] | Hcut]];
    apply DiffCut_scan_error.
  - apply diffCutScan_header_error. unfold scanHeaders.
    destruct (scanFileHeader_absent (NewScanner r) Habs) as [scan' ->].
    unfold endError; simpl. by rewrite Hend.
  - apply diffCutScan_header_error. unfold scanHeaders.
    destruct Habs as (pre & l & post & Hlines & Hpre & Hl & Hpost).
    destruct (scanFileHeader_found (NewScanner r) pre l post Hlines Hpre Hl)
      as (scan1 & -> & Hp1 & He1).
    rewrite <- Hp1 in Hpost.
    destruct (scanHunkHeader_absent scan1 Hpost) as [scan2 ->].
    unfold endError. rewrite He1; simpl. by rewrite Hend.
  - destruct Hcut as (at_ & err & st & scanner & Hloop & Hempty).
    unfold diffCutScan. rewrite Hloop; simpl.
    apply diffCutLoop_ok in Hloop as (hh & scan0 & buf & _ & _ & Hloop).
    apply cutLoop_cutCounted in Hloop; [|apply cutCounted_start].
    destruct Hloop as (_ & _ & _ & _ & Hin).
    unfold collectContext. destruct (inCut st); [|done].
    by destruct (Hin eq_refl).
Qed.

(** ** The limit of the cut *)

Lemma cutBounded_start params hunkHeader buf :
  cutBounded params (cutStart hunkHeader buf).
Proof. by left. Qed.

Lemma limitKept_bound params e :
  limitKept params e ->
  atBreak (fun st => len (diffCut st) <= Z.max 0 (LineLimit params) + 1) e.
Proof.
  destruct e as [err|at_ err st scan]; simpl; [done|].
  destruct at_; simpl.
  - intros [-> | Hle]; unfold len in *; simpl; lia.
  - intros [-> | Hle]; unfold len in *; simpl; lia.
  - intros (cut0 & line & -> & [-> | Hle] & Hgt);
      rewrite len_app; unfold len in *; simpl; lia.
Qed.

(** C4, as the code has it. For every call of DiffCut that returns without
    error, the cut, that is the returned lines without the lines before and
    after it, has at most one line more than LineLimit, and at most one
    line when LineLimit is negative. *)
Theorem cut_at_most_limit_plus_one r params h hunk :
  DiffCut r params = Ok (h, hunk, None) ->
  exists pt,
    diffCutScan r params = Ok (inr pt) /\
    Lines hunk = cutBefore pt ++ cutLines pt ++ cutAfter pt /\
    len (cutLines pt) <= Z.max 0 (LineLimit params) + 1.
Proof.
  intros (pt & hl & Hscan & _ & _ & ->)%DiffCut_ok. simpl.
  exists pt. do 2 (split; [done|]).
  apply diffCutScan_ok in Hscan as (at_ & err & st & scanner & Hloop & Hctx).
  apply diffCutLoop_ok in Hloop as (hh & scan0 & buf & _ & _ & Hloop).
  apply collectContext_ok in Hctx as (_ & _ & _ & -> & _).
  apply cutLoop_limitKept, limitKept_bound in Hloop; [done|].
  apply cutBounded_start.
Qed.


(** The safety break, seen from one run of the loop body: the line that
    takes the cut over the limit is put into the cut, and the loop is left
    with the scanner right after that line. *)
Lemma safety_break_stops params scan st line rest :
  pastLineEnd params st = false ->
  pending scan = line :: rest ->
  isHunkLine line = true ->
  beforeLineStart params st = false ->
  len (diffCut st ++ [line]) > LineLimit params ->
  cutLoop params scan st =
    Ok (LoopBreak AtLineLimit None (cutLine st (actionOf line) line)
                  (snd (Scan scan))) /\
  diffCut (cutLine st (actionOf line) line) = diffCut st ++ [line] /\
  pending (snd (Scan scan)) = rest.
Proof.
  intros Hend Hp Hl Hb Hlim.
  rewrite cutLoop_step.
  rewrite (iterates_cutIteration _ _ _ _
             (it_cut_limit params scan st line rest Hend Hp Hl Hb Hlim)).
  by destruct (Scan_pending _ _ _ Hp) as (_ & _ & -> & _).
Qed.


(** ** The end of the hunk's lines *)

Lemma scanHunkLine_at scan line rest :
  pending scan = line :: rest ->
  scanHunkLine scan =
  (match line with
   | EmptyString => (EmptyString, actionUnchanged, Some ErrHunkNotFound)
   | String c _ =>
       if isHunkLine line then (line, c, None)
       else (EmptyString, actionUnchanged, None)
   end, snd (Scan scan)).
Proof.
  intros Hp. unfold scanHunkLine.
  assert (Hs : Scan scan = (true, snd (Scan scan)))
    by (unfold Scan; by rewrite Hp).
  destruct (Scan_pending _ _ _ Hp) as (_ & Ht & _).
  rewrite Hs. simpl. unfold Text. rewrite Ht.
  destruct line as [|c s]; [done|].
  rewrite (isHunkLine_neq c s). by destruct (isHunkLine (String c s)).
Qed.

(** C6, as the code has it. When the loop reads a line that is not empty
    and does not start with ' ', '-' or '+', scanHunkLine returns no line
    and no error, and the loop is left with err set to io.EOF, its
    variables as they were: the line is in neither the cut nor the buffer,
    and no line is read after it.  When the loop reads an empty line,
    scanHunkLine returns the error HunkNotFound and DiffCut returns with
    it. *)
Theorem line_that_ends_the_hunk params scan st line rest :
  pastLineEnd params st = false ->
  pending scan = line :: rest ->
  isHunkLine line = false ->
  match line with
  | EmptyString =>
      scanHunkLine scan =
        (EmptyString, actionUnchanged, Some ErrHunkNotFound, snd (Scan scan)) /\
      cutLoop params scan st = Ok (LoopReturn ErrHunkNotFound)
  | String _ _ =>
      scanHunkLine scan =
        (EmptyString, actionUnchanged, None, snd (Scan scan)) /\
      cutLoop params scan st =
        Ok (LoopBreak AtTerminator (Some io_EOF) st (snd (Scan scan))) /\
      pending (snd (Scan scan)) = rest /\
      forall pt,
        collectContext params AtTerminator (Some io_EOF) st (snd (Scan scan))
          = Ok (inr pt) ->
        lines (linesBeforeBuf st) = Ok (cutBefore pt) /\
        cutLines pt = diffCut st /\ cutAfter pt = []
  end.
Proof.
  intros Hend Hp Hl.
  pose proof (scanHunkLine_at _ _ _ Hp) as Hscan.
  rewrite cutLoop_step.
  destruct line as [|c s].
  - split; [done|].
    by rewrite (iterates_cutIteration _ _ _ _
                  (it_empty_line params scan st rest Hend Hp)).
  - rewrite Hl in Hscan. split; [done|].
    rewrite (iterates_cutIteration _ _ _ _
               (it_terminator params scan st c s rest Hend Hp Hl)).
    destruct (Scan_pending _ _ _ Hp) as (_ & _ & -> & _).
    do 2 (split; [done|]).
    intros pt (_ & Hb & _ & Hc & _ & [[_ Ha] | [? _]])%collectContext_ok;
      done.
Qed.

(** ** The lines after the cut *)

Lemma afterLoop_takeAfter n :
  forall scan acc,
    fst (afterLoop n scan acc) = acc ++ takeAfter n (pending scan).
Proof.
  induction n as [|n IH]; intros scan acc; simpl.
  - by rewrite app_nil_r.
  - unfold Scan. destruct (pending scan) as [|l rest] eqn:Hp; simpl.
    + by rewrite app_nil_r.
    + unfold Text; simpl. destruct l as [|c s]; simpl.
      * by rewrite app_nil_r.
      * rewrite IH. simpl. by rewrite <- app_assoc.
Qed.

Lemma takeAfter_prefix n :
  forall pending,
    (length (takeAfter n pending) <= n)%nat /\
    Forall (fun l => l <> EmptyString) (takeAfter n pending) /\
    exists post, pending = takeAfter n pending ++ post.
Proof.
  induction n as [|n IH]; intros pending; simpl.
  - repeat split; [lia | done | by exists pending].
  - destruct pending as [|[|c s] rest]; simpl.
    + repeat split; [lia | done | by exists []].
    + repeat split; [lia | done | by eexists].
    + destruct (IH rest) as (Hlen & Hne & post & Hpost).
      repeat split; [lia | by constructor |].
      exists post. by rewrite <- Hpost.
Qed.

(** C7, as the code has it. The lines after the cut are collected whenever
    the loop was left otherwise than at the end of the hunk's lines, that
    is at the end of the range or at the safety break; when it was left at
    the end of the hunk's lines there are none.  Where the stream goes on
    with lines of the hunk or an empty line, they are the lines that
    follow, AfterLines of them at most, up to the first empty line or the
    end of the stream; when the scanner has recorded a read failure by
    then, DiffCut returns that error. *)
Theorem lines_after_the_cut r params at_ err st scanner before :
  diffCutLoop r params = Ok (inr (LoopBreak at_ err st scanner)) ->
  inCut st = true ->
  lines (linesBeforeBuf st) = Ok before ->
  Forall (fun l => isHunkLine l = true \/ l = EmptyString) (pending scanner) ->
  let after := takeAfter (Z.to_nat (AfterLines params)) (pending scanner) in
  let scanner' :=
    snd (afterLoop (Z.to_nat (AfterLines params)) scanner []) in
  match at_ with
  | AtTerminator =>
      diffCutScan r params =
        Ok (inr (mkParts (diffCutHeader st) before (diffCut st) [] at_))
  | _ =>
      len after <= Z.max 0 (AfterLines params) /\
      Forall (fun l => l <> EmptyString) after /\
      (exists post, pending scanner = after ++ post) /\
      match Err scanner' with
      | Some e => DiffCut r params = Ok (zeroHunkHeader, zeroHunk, Some e)
      | None =>
          diffCutScan r params =
            Ok (inr (mkParts (diffCutHeader st) before (diffCut st) after at_))
      end
  end.
Proof.
  intros Hloop HinCut Hlines _ after scanner'.
  pose proof Hloop as (hh & scan0 & buf & _ & _ & Hrun)%diffCutLoop_ok.
  pose proof (cutLoop_errAtBreak _ _ _ _ Hrun) as Herr.
  assert (Hscan : diffCutScan r params =
                  collectContext params at_ err st scanner)
    by (unfold diffCutScan; by rewrite Hloop).
  destruct (takeAfter_prefix (Z.to_nat (AfterLines params)) (pending scanner))
    as (Hlen & Hne & Hpost).
  pose proof (afterLoop_takeAfter (Z.to_nat (AfterLines params)) scanner [])
    as Hafter.
  unfold collectContext in Hscan. rewrite HinCut, Hlines in Hscan.
  simpl in Hscan, Herr.
  destruct at_; simpl in Herr; subst err; simpl in Hscan; [|done|].
  all: destruct (afterLoop _ _ _) as [linesAfter scanner2] eqn:Hal.
  all: simpl in Hafter; subst linesAfter scanner' after; simpl.
  all: split; [unfold len; lia|].
  all: do 2 (split; [done|]).
  all: destruct (Err scanner2); [by apply DiffCut_scan_error | done].
Qed.

(** ** The same line by its old and by its new number *)

Lemma isUnchangedLine_counts l :
  isUnchangedLine l = true -> notAdded l = true /\ notRemoved l = true.
Proof.
  destruct l as [|c s]; [done|]. simpl. unfold action_eqb, action_neq.
  intros ->%Ascii.eqb_eq. done.
Qed.

Lemma pastLineEnd_withLineStart params a n st :
  pastLineEnd (withLineStart params a n) st = pastLineEnd params st.
Proof. done. Qed.

Section SameLine.

Variable params : DiffCutParams.
Variable hunkHeader : HunkHeader.
Variables pre post : list string.

Let a := OldLine hunkHeader + Z.of_nat (countLines notAdded pre).
Let b := NewLine hunkHeader + Z.of_nat (countLines notRemoved pre).
Let byOld := withLineStart params a false.
Let byNew := withLineStart params b true.

Hypothesis Hfit : noOverflow hunkHeader (pre ++ post).
Hypothesis Hpre : endsUnchanged pre.

(** Where the line numbers stand with respect to [a] and [b]. *)
Lemma cutEntersAt_position scan st :
  cutEntersAt hunkHeader pre post scan st ->
  currentOldLine st < a /\ currentNewLine st < b /\
    (exists consumed y l,
        pre = consumed ++ y ++ [l] /\ pre ++ post = consumed ++ pending scan)
  \/
  a <= currentOldLine st /\ b <= currentNewLine st /\
    (exists k, pre ++ post = (pre ++ k) ++ pending scan).
Proof using All.
  intros (consumed & Hbody & Ho & Hn & _).
  destruct (app_eq_inv _ _ _ _ Hbody) as [(k & Hk & Hpend) | (k & Hk & Hpend)].
  - (* [consumed] is a prefix of [pre] *)
    destruct k as [|x k].
    + right. rewrite app_nil_r in Hk. subst consumed.
      subst a b. repeat split; [lia..|]. exists []. by rewrite app_nil_r.
    + left. destruct Hpre as [-> | (pre' & l & Hpre' & Hl)].
      { by destruct consumed. }
      destruct (isUnchangedLine_counts _ Hl) as [Hla Hlr].
      assert (Hsplit : exists y, x :: k = y ++ [l] /\ pre' = consumed ++ y).
      { rewrite Hpre' in Hk.
        destruct (exists_last (l:=x :: k)) as (y & l' & Hy); [done|].
        rewrite Hy, app_assoc in Hk.
        apply app_inj_tail in Hk as [-> ->]. by exists y. }
      destruct Hsplit as (y & Hy & ->).
      subst a b. rewrite Hpre', Ho, Hn, !countLines_app. simpl.
      rewrite Hla, Hlr.
      repeat split; [lia..|].
      exists consumed, y, l. split; [by rewrite <- app_assoc|].
      by rewrite <- Hpre', Hbody.
  - right. subst consumed a b. rewrite Ho, Hn, !countLines_app.
    repeat split; [lia..|]. by exists k.
Qed.

(** Both ways of giving the start of the range route the next line alike. *)
Lemma cutEntersAt_agree scan st :
  cutEntersAt hunkHeader pre post scan st ->
  beforeLineStart byOld st = beforeLineStart byNew st.
Proof using All.
  intros Hst. unfold beforeLineStart, byOld, byNew; simpl.
  rewrite orb_false_r.
  destruct (cutEntersAt_position _ _ Hst) as [(Ho & Hn & _) | (Ho & Hn & _)].
  - destruct (Z.ltb_spec (currentOldLine st) a),
             (Z.ltb_spec (currentNewLine st) b); (done || lia).
  - destruct (Z.ltb_spec (currentOldLine st) a),
             (Z.ltb_spec (currentNewLine st) b); (done || lia).
Qed.

Lemma cutIteration_agree scan st :
  cutEntersAt hunkHeader pre post scan st ->
  cutIteration byOld scan st = cutIteration byNew scan st.
Proof using All.
  intros Hst. unfold cutIteration.
  rewrite (cutEntersAt_agree _ _ Hst).
  unfold byOld, byNew. by rewrite !pastLineEnd_withLineStart.
Qed.

(** One more line read keeps the variables as [cutEntersAt] has them. *)
Lemma cutEntersAt_advance scan st st' line rest :
  pending scan = line :: rest ->
  isHunkLine line = true ->
  currentOldLine st' = currentOldLine st ->
  currentNewLine st' = currentNewLine st ->
  cutEntersAt hunkHeader pre post scan st ->
  (forall consumed,
      pre ++ post = consumed ++ pending scan ->
      (inCut st' = true ->
         diffCut st' <> [] /\
         OldLine (diffCutHeader st') = a /\
         NewLine (diffCutHeader st') = b /\
         hd_error (diffCut st') = hd_error post) /\
      (inCut st' = false ->
         diffCut st' = [] /\ exists y, pre = (consumed ++ [line]) ++ y)) ->
  cutEntersAt hunkHeader pre post (snd (Scan scan))
              (advance (actionOf line) st').
Proof using All.
  intros Hp Hl Hold Hnew (consumed & Hbody & Ho & Hn & _) Hcut.
  destruct (Scan_pending _ _ _ Hp) as (_ & _ & Hrest & _).
  destruct Hfit as (Holo & Hohi & Hnlo & Hnhi).
  assert (Hlen : len (pre ++ post) = len consumed + 1 + len rest).
  { rewrite Hbody, Hp, len_app. unfold len; simpl. lia. }
  pose proof (countLines_le notAdded consumed).
  pose proof (countLines_le notRemoved consumed).
  pose proof (len_nonneg rest).
  exists (consumed ++ [line]). rewrite Hrest.
  split; [by rewrite <- app_assoc, Hbody, Hp|].
  unfold advance; simpl.
  rewrite (notAdded_actionOf _ Hl), (notRemoved_actionOf _ Hl), Hold, Hnew.
  rewrite !countLines_app, Ho, Hn. simpl.
  unfold incr. rewrite !wrap_small by (unfold len in *; lia).
  split; [destruct (notAdded line); lia|].
  split; [destruct (notRemoved line); lia|].
  apply (Hcut consumed Hbody).
Qed.

Lemma cutEntersAt_cutStartsAt scan st :
  cutEntersAt hunkHeader pre post scan st -> cutStartsAt a b post st.
Proof using All.
  intros (consumed & _ & _ & _ & Hin & _) HinCut.
  by destruct (Hin HinCut) as (_ & ? & ? & ?).
Qed.

(** The line that enters the cut is the first line of [post]. *)
Lemma cutEnters_first scan st consumed line rest :
  cutEntersAt hunkHeader pre post scan st ->
  pre ++ post = consumed ++ pending scan ->
  currentOldLine st =
    OldLine hunkHeader + Z.of_nat (countLines notAdded consumed) ->
  currentNewLine st =
    NewLine hunkHeader + Z.of_nat (countLines notRemoved consumed) ->
  pending scan = line :: rest ->
  a <= currentOldLine st ->
  diffCut st = [] ->
  (exists y, pre = consumed ++ y) ->
  currentOldLine st = a /\ currentNewLine st = b /\
  hd_error (diffCut st ++ [line]) = hd_error post.
Proof using All.
  intros Hst Hbody Ho Hn Hp Hb Hempty (y & Hy).
  destruct (cutEntersAt_position _ _ Hst) as [(? & _) | (_ & _ & k & Hk)];
    [lia|].
  assert (Hpre_all : consumed = pre).
  { rewrite <- app_assoc in Hk. apply app_inv_head in Hk.
    rewrite Hy, <- app_assoc, Hk, Hp in Hbody.
    apply app_inv_head in Hbody.
    assert (Hlen : length (y ++ k ++ line :: rest) = length (line :: rest))
      by (by rewrite Hbody).
    rewrite !length_app in Hlen. simpl in Hlen.
    destruct y; [by rewrite app_nil_r in Hy | simpl in Hlen; lia]. }
  subst consumed. rewrite Hempty.
  apply app_inv_head in Hbody. rewrite Hbody, Hp.
  by repeat split.
Qed.

Lemma cutEntersAt_step scan st it :
  cutEntersAt hunkHeader pre post scan st ->
  iterates byOld scan st it ->
  match it with
  | Done e => atBreak (cutStartsAt a b post) e
  | Next st' scan' => cutEntersAt hunkHeader pre post scan' st'
  end.
Proof using All.
  intros Hst Hit.
  pose proof (cutEntersAt_position _ _ Hst) as Hpos.
  pose proof Hst as (consumed0 & Hbody0 & Ho0 & Hn0 & Hin0 & Hout0).
  inversion Hit as
    [Hend | e Hend Hp He | Hend Hp He | rest Hend Hp | c s rest Hend Hp Hl
    | line rest buf Hend Hp Hl Hb Hpush | line rest Hend Hp Hl Hb Hlim
    | line rest Hend Hp Hl Hb Hlim ]; subst; simpl; try done.
  1-3: by apply (cutEntersAt_cutStartsAt scan).
  - (* to the buffer *)
    apply (cutEntersAt_advance _ st _ _ rest); try done.
    intros consumed Hbody.
    assert (consumed = consumed0) as ->
      by (by eapply app_inv_tail; rewrite <- Hbody).
    simpl. split; [done|]. intros HinCut. split; [by apply Hout0|].
    unfold beforeLineStart, byOld in Hb; simpl in Hb.
    apply Z.ltb_lt in Hb.
    destruct Hpos as [(_ & _ & c1 & y & l & Hpre1 & Hbody1) | (? & _)]; [|lia].
    assert (c1 = consumed0) as ->
      by (by eapply app_inv_tail; rewrite <- Hbody1).
    rewrite Hpre1, <- app_assoc, Hp in Hbody0.
    apply app_inv_head in Hbody0.
    destruct y as [|x y]; simpl in Hbody0;
      injection Hbody0 as -> _; rewrite Hpre1.
    + exists []. by rewrite app_nil_r.
    + exists (y ++ [l]). by rewrite <- !app_assoc.
  - (* to the cut, at the safety break *)
    unfold cutStartsAt, cutLine, cutHeaderStep; simpl. intros _.
    unfold beforeLineStart, byOld in Hb; simpl in Hb.
    apply Z.ltb_ge in Hb.
    destruct (inCut st) eqn:HinCut; simpl.
    + destruct (Hin0 eq_refl) as (Hne & Hol & Hnl & Hhd).
      repeat split; [done..|]. rewrite <- Hhd.
      by destruct (diffCut st).
    + destruct (Hout0 eq_refl) as (Hempty & Hy).
      by apply (cutEnters_first scan st consumed0 line rest).
  - (* to the cut *)
    apply (cutEntersAt_advance _ st (cutLine st (actionOf line) line) _ rest);
      try done.
    intros consumed Hbody.
    assert (consumed = consumed0) as ->
      by (by eapply app_inv_tail; rewrite <- Hbody).
    split; [|done]. intros _.
    unfold cutLine, cutHeaderStep; simpl.
    unfold beforeLineStart, byOld in Hb; simpl in Hb.
    apply Z.ltb_ge in Hb.
    destruct (inCut st) eqn:HinCut; simpl.
    + destruct (Hin0 eq_refl) as (Hne & Hol & Hnl & Hhd).
      split; [by destruct (diffCut st)|].
      repeat split; [done..|]. rewrite <- Hhd.
      by destruct (diffCut st).
    + split; [by destruct (diffCut st)|].
      destruct (Hout0 eq_refl) as (Hempty & Hy).
      by apply (cutEnters_first scan st consumed0 line rest).
Qed.

Lemma cutLoop_agree scan st :
  cutEntersAt hunkHeader pre post scan st ->
  cutLoop byOld scan st = cutLoop byNew scan st.
Proof using All.
  remember (length (pending scan)) as n eqn:Hn.
  revert scan st Hn.
  induction n as [n IH] using lt_wf_ind. intros scan st -> Hst.
  rewrite (cutLoop_step byOld), (cutLoop_step byNew).
  rewrite <- (cutIteration_agree _ _ Hst).
  destruct (cutIteration byOld scan st) as [[e|st' scan']|] eqn:Hit; try done.
  apply cutIteration_iterates in Hit.
  destruct (iterates_shorter _ _ _ _ _ Hit) as [l Hl].
  apply (IH (length (pending scan'))); [rewrite Hl; simpl; lia | done |].
  apply (cutEntersAt_step _ _ _ Hst Hit).
Qed.

Lemma cutLoop_cutStartsAt scan st e :
  cutEntersAt hunkHeader pre post scan st ->
  cutLoop byOld scan st = Ok e ->
  atBreak (cutStartsAt a b post) e.
Proof using All.
  apply (cutLoop_rule byOld (cutEntersAt hunkHeader pre post)
                      (atBreak (cutStartsAt a b post))).
  intros scan' st' it. apply cutEntersAt_step.
Qed.

End SameLine.

Lemma cutEntersAt_start hunkHeader pre post scan buf :
  pending scan = pre ++ post ->
  cutEntersAt hunkHeader pre post scan (cutStart hunkHeader buf).
Proof.
  intros Hp. exists []. unfold cutStart; simpl.
  split; [done|]. do 2 (split; [lia|]). split; [done|].
  intros _. split; [done|]. by exists pre.
Qed.

(** C8, as the code has it. Take a line of the hunk, [a] its old and [b]
    its new line number, such that the line before it in the hunk, if
    there is one, is an unchanged line, in a hunk whose line numbers do not
    overflow.  DiffCut with LineStart = a taken as an old line number and
    DiffCut with LineStart = b taken as a new line number, all else equal,
    return the same; when they return without error, the cut starts at
    that line: the header of the cut has the line numbers [a] and [b], and
    the first line of the cut is the first line of [post]. *)
Theorem old_and_new_number_same_line r params hunkHeader scanner pre post :
  scanHeaders r = inr (hunkHeader, scanner) ->
  pending scanner = pre ++ post ->
  endsUnchanged pre ->
  noOverflow hunkHeader (pre ++ post) ->
  let a := OldLine hunkHeader + Z.of_nat (countLines notAdded pre) in
  let b := NewLine hunkHeader + Z.of_nat (countLines notRemoved pre) in
  DiffCut r (withLineStart params a false) =
  DiffCut r (withLineStart params b true) /\
  match DiffCut r (withLineStart params a false) with
  | Ok (h, hunk, None) =>
      OldLine h = a /\ NewLine h = b /\
      exists pt,
        diffCutScan r (withLineStart params a false) = Ok (inr pt) /\
        hd_error (cutLines pt) = hd_error post
  | _ => True
  end.
Proof.
  intros Hhead Hp Hpre Hfit a b.
  assert (Hloop : diffCutLoop r (withLineStart params a false) =
                  diffCutLoop r (withLineStart params b true)).
  { unfold diffCutLoop. rewrite Hhead. simpl.
    destruct (newStrCircBuf (BeforeLines params)) as [buf|]; simpl; [|done].
    f_equal.
    apply (cutLoop_agree params hunkHeader pre post Hfit Hpre).
    by apply cutEntersAt_start. }
  assert (Hscan : diffCutScan r (withLineStart params a false) =
                  diffCutScan r (withLineStart params b true)).
  { unfold diffCutScan. by rewrite Hloop. }
  split; [unfold DiffCut; by rewrite Hscan|].
  destruct (DiffCut r (withLineStart params a false))
    as [[[h hunk] [err|]]|] eqn:Hcut; try done.
  apply DiffCut_ok in Hcut as (pt & hl & Hpt & _ & -> & _).
  pose proof Hpt as (at_ & err & st & scanner' & Hrun & Hctx)%diffCutScan_ok.
  apply diffCutLoop_ok in Hrun as (hh & scan0 & buf & Hhead' & _ & Hrun).
  rewrite Hhead in Hhead'. injection Hhead' as <- <-.
  apply (cutLoop_cutStartsAt params hunkHeader pre post Hfit Hpre) in Hrun;
    [|by apply cutEntersAt_start].
  apply collectContext_ok in Hctx as (HinCut & _ & -> & Hc & _).
  destruct (Hrun HinCut) as (Ho & Hn & Hhd).
  repeat split; [done..|]. exists pt. by rewrite Hc.
Qed.

End DiffCutFacts.

(** ** The ring buffer keeps the last lines *)

Lemma pushAll_cap0 b xs : entries_cap b = 0 -> pushAll b xs = Ok b.
Proof.
  intros Hcap. induction xs as [|x xs IH]; simpl; [done|].
  by rewrite (push_cap0 _ _ Hcap).
Qed.

(** C9. For every capacity k >= 0 and every list of m lines pushed, one
    after the other, into a new buffer of capacity k, the buffer then gives
    back the last min(m, k) of them in the order they were pushed.  With
    capacity 0 the pushes leave the buffer as it was and it gives back no
    line.  The buffer never has to hold 2^62 lines or more. *)
Theorem ring_buffer_keeps_the_last k xs :
  0 <= k ->
  Z.min (len xs) k < 2 ^ 62 ->
  exists b b',
    newStrCircBuf k = Ok b /\
    pushAll b xs = Ok b' /\
    lines b' = Ok (lastN (Nat.min (length xs) (Z.to_nat k)) xs) /\
    (k = 0 -> b' = b /\ lines b' = Ok []).
Proof.
  intros Hk Hbound.
  destruct (bufHolds_pushAll k xs (mkBuf (-1) [] k) []) as (b' & Hpush & Hb');
    [done | by apply bufHolds_empty |].
  simpl in Hb'.
  exists (mkBuf (-1) [] k), b'.
  split; [by apply bufHolds_new|]. split; [done|].
  pose proof (bufHolds_lines k b' xs Hbound Hb') as Hlines.
  assert (Hlast : lastN (Nat.min (length xs) (Z.to_nat k)) xs =
                  lastN (Z.to_nat k) xs).
  { unfold lastN. f_equal. lia. }
  rewrite Hlast. split; [done|].
  intros ->. rewrite pushAll_cap0 in Hpush by done.
  injection Hpush as <-. split; [done|].
  rewrite Hlines. unfold lastN. simpl. by rewrite Nat.sub_0_r, drop_all.
Qed.

(** * The returned lines are a run of the hunk's lines *)

Lemma decrN_small n z :
  - 2 ^ 63 <= z - Z.of_nat n -> z < 2 ^ 63 -> decrN n z = z - Z.of_nat n.
Proof.
  unfold decrN. induction n as [|n IH]; intros Hlo Hhi; simpl; [lia|].
  rewrite IH by lia. unfold decr. rewrite wrap_small; lia.
Qed.

Lemma lastN_split {A} n (l : list A) :
  l = take (length l - n) l ++ lastN n l.
Proof. unfold lastN. by rewrite take_drop. Qed.

Section Run.

Variable params : DiffCutParams.
Variable hunkHeader : HunkHeader.
Variable body : list string.

Hypothesis Hfit : noOverflow hunkHeader body.
Hypothesis Hroom : Z.min (len body) (BeforeLines params) < 2 ^ 62.

Lemma advance_not_before st action :
  currentOldLine st < 2 ^ 63 - 1 -> - 2 ^ 63 <= currentOldLine st ->
  currentNewLine st < 2 ^ 63 - 1 -> - 2 ^ 63 <= currentNewLine st ->
  beforeLineStart params st = false ->
  beforeLineStart params (advance action st) = false.
Proof.
  unfold beforeLineStart, advance; simpl. intros Ho1 Ho2 Hn1 Hn2.
  unfold incr. rewrite !wrap_small by lia.
  destruct (LineStartNew params); simpl; rewrite ?orb_false_r;
    intros H%Z.ltb_ge; apply Z.ltb_ge;
    by destruct (action_neq action actionAdded),
                (action_neq action actionRemoved); lia.
Qed.

Lemma runKept_step scan st it :
  runKept params hunkHeader body scan st ->
  iterates params scan st it ->
  match it with
  | Done e => runAtBreak params hunkHeader body e
  | Next st' scan' => runKept params hunkHeader body scan' st'
  end.
Proof using All.
  intros (skipped & Hbody & Hbuf & Ho & Hn & Hout & Hin) Hit.
  destruct Hfit as (Holo & Hohi & Hnlo & Hnhi).
  pose proof (countLines_le notAdded (skipped ++ diffCut st)) as Hco.
  pose proof (countLines_le notRemoved (skipped ++ diffCut st)) as Hcn.
  assert (Hlen : len body =
                 len (skipped ++ diffCut st) + len (pending scan))
    by (by rewrite Hbody, app_assoc, len_app).
  inversion Hit as
    [Hend | e Hend Hp He | Hend Hp He | rest Hend Hp | c s rest Hend Hp Hl
    | line rest buf Hend Hp Hl Hb Hpush | line rest Hend Hp Hl Hb Hlim
    | line rest Hend Hp Hl Hb Hlim ]; subst it; simpl; try done.
  1-3: exists skipped, (pending scan).
  1-3: do 3 (split; [done|]).
  1-3: intros HinCut; by destruct (Hin HinCut) as (_ & ? & ?).
  - (* to the buffer *)
    destruct (Scan_pending _ _ _ Hp) as (_ & _ & Hrest & _).
    destruct (inCut st) eqn:HinCut.
    { destruct (Hin eq_refl) as (Hnb & _). by rewrite Hnb in Hb. }
    rewrite (Hout eq_refl), app_nil_r in *. simpl in Hbody.
    rewrite Hp in Hlen. unfold len in Hlen, Hohi, Hnhi, Hroom. simpl in Hlen.
    destruct (bufHolds_push (BeforeLines params) (linesBeforeBuf st)
                            skipped line) as (b' & Hpush' & Hbuf');
      [unfold len; lia | done |].
    rewrite Hpush in Hpush'. injection Hpush' as <-.
    exists (skipped ++ [line]). unfold advance, bufferLine; simpl.
    rewrite HinCut, (Hout eq_refl), Hrest, app_nil_r.
    rewrite (notAdded_actionOf _ Hl), (notRemoved_actionOf _ Hl).
    rewrite !countLines_app, Ho, Hn. simpl.
    unfold incr. rewrite !wrap_small by lia.
    split; [by rewrite <- app_assoc, Hbody, Hp|]. split; [done|].
    split; [destruct (notAdded line); lia|].
    split; [destruct (notRemoved line); lia|]. done.
  - (* to the cut, at the safety break *)
    destruct (Scan_pending _ _ _ Hp) as (_ & _ & Hrest & _).
    exists skipped, rest. unfold cutLine, cutHeaderStep; simpl.
    split; [by rewrite <- app_assoc, Hbody, Hp|].
    split; [by rewrite Hrest|]. split; [done|]. intros _.
    destruct (inCut st) eqn:HinCut; simpl.
    + by destruct (Hin eq_refl) as (_ & ? & ?).
    + rewrite (Hout eq_refl), app_nil_r in Ho, Hn. done.
  - (* to the cut *)
    destruct (Scan_pending _ _ _ Hp) as (_ & _ & Hrest & _).
    exists skipped.
    assert (Hin' : OldLine (cutHeaderStep st (actionOf line)) =
                     OldLine hunkHeader
                     + Z.of_nat (countLines notAdded skipped) /\
                   NewLine (cutHeaderStep st (actionOf line)) =
                     NewLine hunkHeader
                     + Z.of_nat (countLines notRemoved skipped)).
    { unfold cutHeaderStep; simpl. destruct (inCut st) eqn:HinCut; simpl.
      - by destruct (Hin eq_refl) as (_ & ? & ?).
      - rewrite (Hout eq_refl), app_nil_r in Ho, Hn. done. }
    rewrite Hp in Hlen. unfold len in Hlen, Hohi, Hnhi. simpl in Hlen.
    split; [simpl; by rewrite Hrest, <- app_assoc, Hbody, Hp|].
    split; [done|].
    assert (Hnb : beforeLineStart params
                    (advance (actionOf line)
                             (cutLine st (actionOf line) line)) = false).
    { apply advance_not_before; simpl; try lia. exact Hb. }
    split; [|split; [|split; [done|]]].
    + unfold advance; simpl.
      rewrite (notAdded_actionOf _ Hl), app_assoc, countLines_app, Ho.
      simpl. unfold incr. rewrite !wrap_small by lia.
      destruct (notAdded line); lia.
    + unfold advance; simpl.
      rewrite (notRemoved_actionOf _ Hl), app_assoc, countLines_app, Hn.
      simpl. unfold incr. rewrite !wrap_small by lia.
      destruct (notRemoved line); lia.
    + intros _. split; [exact Hnb | exact Hin'].
Qed.

Lemma cutLoop_runAtBreak scan st e :
  runKept params hunkHeader body scan st ->
  cutLoop params scan st = Ok e ->
  runAtBreak params hunkHeader body e.
Proof using All.
  apply (cutLoop_rule params (runKept params hunkHeader body)
                      (runAtBreak params hunkHeader body)).
  intros scan' st' it. apply runKept_step.
Qed.

End Run.

Lemma newStrCircBuf_ok size buf :
  newStrCircBuf size = Ok buf -> 0 <= size /\ buf = mkBuf (-1) [] size.
Proof.
  unfold newStrCircBuf. destruct (Z.ltb_spec size 0); [done|].
  by intros [= <-].
Qed.

Lemma runKept_start params hunkHeader scan buf :
  newStrCircBuf (BeforeLines params) = Ok buf ->
  runKept params hunkHeader (pending scan) scan (cutStart hunkHeader buf).
Proof.
  intros (Hk & ->)%newStrCircBuf_ok. exists []. unfold cutStart; simpl.
  split; [done|]. split; [by apply bufHolds_empty|].
  do 2 (split; [lia|]). done.
Qed.

Section RunOfTheHunk.

Context {DiffFileHeader : Type} (zeroFileHeader : DiffFileHeader).
Context (ParseDiffFileHeader : string -> DiffFileHeader * bool).
Context (ParseDiffHunkHeader : string -> HunkHeader * bool).

Local Abbreviation scanHeaders :=
  (scanHeaders zeroFileHeader ParseDiffFileHeader ParseDiffHunkHeader).
Local Abbreviation DiffCut :=
  (DiffCut zeroFileHeader ParseDiffFileHeader ParseDiffHunkHeader).

(** X1. In a hunk whose line numbers do not overflow, the lines DiffCut
    returns are a run of the lines after the hunk header, as they come in
    the stream: the lines before the cut are the last BeforeLines of the
    lines that come before the cut, the header of the cut starts at the
    line numbers of the first line of the cut, and the header of the hunk
    at the line numbers of the first line returned. *)
Theorem DiffCut_returns_a_run r params h hunk hunkHeader scanner :
  DiffCut r params = Ok (h, hunk, None) ->
  scanHeaders r = inr (hunkHeader, scanner) ->
  noOverflow hunkHeader (pending scanner) ->
  Z.min (len (pending scanner)) (BeforeLines params) < 2 ^ 62 ->
  exists skipped before cut after rest,
    pending scanner = skipped ++ before ++ cut ++ after ++ rest /\
    Lines hunk = before ++ cut ++ after /\
    cut <> [] /\
    before = lastN (Z.to_nat (BeforeLines params)) (skipped ++ before) /\
    OldLine h =
      OldLine hunkHeader
      + Z.of_nat (countLines notAdded (skipped ++ before)) /\
    NewLine h =
      NewLine hunkHeader
      + Z.of_nat (countLines notRemoved (skipped ++ before)) /\
    OldLine (HunkHeader_of hunk) =
      OldLine hunkHeader + Z.of_nat (countLines notAdded skipped) /\
    NewLine (HunkHeader_of hunk) =
      NewLine hunkHeader + Z.of_nat (countLines notRemoved skipped).
Proof.
  intros (pt & hl & Hscan & Hhl & -> & ->)%DiffCut_ok Hhead Hfit Hroom.
  simpl.
  destruct (diffCutScan_cutCounted _ _ _ _ _ _ Hscan) as (Hne & _).
  apply diffCutScan_ok in Hscan as (at_ & err & st & scanner' & Hloop & Hctx).
  apply diffCutLoop_ok in Hloop as (hh & scan0 & buf & Hhead' & Hbuf & Hrun).
  rewrite Hhead in Hhead'. injection Hhead' as <- <-.
  pose proof (cutLoop_errAtBreak _ _ _ _ Hrun) as Herr.
  apply (cutLoop_runAtBreak params hunkHeader (pending scanner) Hfit Hroom)
    in Hrun; [|by apply runKept_start].
  destruct Hrun as (skipped0 & tail & Hbody & Htail & Hheld & Hin).
  apply collectContext_ok in Hctx
    as (HinCut & Hlines & Hh & Hc & _ & Hafter).
  destruct (Hin HinCut) as (Hol & Hnl).
  assert (Hlen0 : len skipped0 <= len (pending scanner)).
  { rewrite Hbody, !len_app. pose proof (len_nonneg (diffCut st)).
    pose proof (len_nonneg tail). lia. }
  assert (Hroom0 : Z.min (len skipped0) (BeforeLines params) < 2 ^ 62)
    by lia.
  rewrite (bufHolds_lines _ _ _ Hroom0 Hheld) in Hlines.
  injection Hlines as Hbefore.
  set (k := Z.to_nat (BeforeLines params)) in *.
  pose proof (lastN_split k skipped0) as Hsplit.
  rewrite Hbefore in Hsplit.
  set (skipped := take (length skipped0 - k) skipped0) in *.
  assert (Hrest : exists rest, tail = cutAfter pt ++ rest).
  { destruct Hafter as [[_ ->] | (Hnot & -> & _)]; [by exists tail|].
    rewrite Htail.
    - rewrite afterLoop_takeAfter. simpl.
      by destruct (takeAfter_prefix (Z.to_nat (AfterLines params))
                                    (pending scanner')) as (_ & _ & ?).
    - intros ->. simpl in Herr. by rewrite Herr in Hnot. }
  destruct Hrest as (rest & ->).
  unfold diffCutHeaderLines in Hhl.
  destruct (coverBefore _ _) as [h1|] eqn:Hcover; simpl in Hhl; [|done].
  apply coverBefore_spec in Hcover as (_ & _ & Hol1 & Hnl1 & _).
  apply coverAfter_spec in Hhl as (_ & _ & Hol2 & Hnl2 & _).
  exists skipped, (cutBefore pt), (cutLines pt), (cutAfter pt), rest.
  split; [by rewrite Hbody, Hsplit, Hc, <- !app_assoc|].
  do 2 (split; [done|]).
  split; [by rewrite <- Hsplit|].
  rewrite <- Hsplit, Hh, Hol2, Hnl2, Hol1, Hnl1, Hh, Hol, Hnl.
  do 2 (split; [done|]).
  destruct Hfit as (Holo & Hohi & Hnlo & Hnhi).
  pose proof (countLines_le notAdded skipped0).
  pose proof (countLines_le notRemoved skipped0).
  assert (Hco : countLines notAdded skipped0 =
                (countLines notAdded skipped
                 + countLines notAdded (cutBefore pt))%nat)
    by (by rewrite Hsplit at 1; rewrite countLines_app).
  assert (Hcn : countLines notRemoved skipped0 =
                (countLines notRemoved skipped
                 + countLines notRemoved (cutBefore pt))%nat)
    by (by rewrite Hsplit at 1; rewrite countLines_app).
  unfold len in *.
  rewrite !decrN_small by lia. lia.
Qed.

End RunOfTheHunk.

(** * Further properties of [DiffCut] *)

(** ** Where the errors come from *)

Lemma Err_fromReader scan e :
  Err scan = Some e -> e = ending scan /\ e <> io_EOF.
Proof.
  unfold Err. destruct (hit scan); [|done].
  destruct (ending scan); [| done |]; by intros [= <-].
Qed.

Lemma Scan_ending scan : ending (snd (Scan scan)) = ending scan.
Proof. unfold Scan. by destruct (pending scan). Qed.

Lemma Scan_shorter scan :
  (length (pending (snd (Scan scan))) <= length (pending scan))%nat.
Proof. unfold Scan. destruct (pending scan); simpl; lia. Qed.

Section HeaderScans.

Context {DiffFileHeader : Type} (zeroFileHeader : DiffFileHeader).
Context (ParseDiffFileHeader : string -> DiffFileHeader * bool).
Context (ParseDiffHunkHeader : string -> HunkHeader * bool).

Lemma scanFileHeader_ending scan :
  let '(_, err, scan') :=
    scanFileHeader zeroFileHeader ParseDiffFileHeader scan in
  ending scan' = ending scan /\
  (length (pending scan') <= length (pending scan))%nat /\
  forall e, err = Some e -> fromReader (ending scan) e.
Proof.
  funelim (scanFileHeader zeroFileHeader ParseDiffFileHeader scan).
  - match goal with E : Scan _ = _ |- _ =>
      pose proof (Scan_true _ _ E) as (Hp & He & _) end.
    split; [done|]. split; [rewrite Hp; simpl; lia | done].
  - match goal with E : Scan _ = _ |- _ =>
      pose proof (Scan_true _ _ E) as (Hp & He & _) end.
    destruct (scanFileHeader _ _ _) as [[h err] scan''].
    destruct H as (H1 & H2 & H3).
    split; [congruence|]. split; [rewrite Hp; simpl; lia|].
    intros e' He'. rewrite <- He. by apply H3.
  - match goal with E : Scan _ = _ |- _ =>
      pose proof (f_equal snd E) as Hs; simpl in Hs;
      pose proof (Scan_ending scan) as He; pose proof (Scan_shorter scan) as Hl;
      rewrite Hs in He, Hl end.
    split; [done|]. split; [done|]. intros e' [= <-].
    right. rewrite <- He. by apply Err_fromReader.
  - match goal with E : Scan _ = _ |- _ =>
      pose proof (f_equal snd E) as Hs; simpl in Hs;
      pose proof (Scan_ending scan) as He; pose proof (Scan_shorter scan) as Hl;
      rewrite Hs in He, Hl end.
    split; [done|]. split; [done|]. intros e' [= <-]. by left.
Qed.

Lemma scanHunkHeader_ending scan :
  let '(_, err, scan') := scanHunkHeader ParseDiffHunkHeader scan in
  ending scan' = ending scan /\
  (length (pending scan') <= length (pending scan))%nat /\
  forall e, err = Some e -> fromReader (ending scan) e.
Proof.
  funelim (scanHunkHeader ParseDiffHunkHeader scan).
  - match goal with E : Scan _ = _ |- _ =>
      pose proof (Scan_true _ _ E) as (Hp & He & _) end.
    split; [done|]. split; [rewrite Hp; simpl; lia | done].
  - match goal with E : Scan _ = _ |- _ =>
      pose proof (Scan_true _ _ E) as (Hp & He & _) end.
    destruct (scanHunkHeader _ _) as [[h0 err] scan''].
    destruct H as (H1 & H2 & H3).
    split; [congruence|]. split; [rewrite Hp; simpl; lia|].
    intros e' He'. rewrite <- He. by apply H3.
  - match goal with E : Scan _ = _ |- _ =>
      pose proof (f_equal snd E) as Hs; simpl in Hs;
      pose proof (Scan_ending scan) as He; pose proof (Scan_shorter scan) as Hl;
      rewrite Hs in He, Hl end.
    split; [done|]. split; [done|]. intros e' [= <-].
    right. rewrite <- He. by apply Err_fromReader.
  - match goal with E : Scan _ = _ |- _ =>
      pose proof (f_equal snd E) as Hs; simpl in Hs;
      pose proof (Scan_ending scan) as He; pose proof (Scan_shorter scan) as Hl;
      rewrite Hs in He, Hl end.
    split; [done|]. split; [done|]. intros e' [= <-]. by left.
Qed.

Lemma scanHeaders_ending r :
  match scanHeaders zeroFileHeader ParseDiffFileHeader ParseDiffHunkHeader r
  with
  | inl e => fromReader (rd_end r) e
  | inr (_, scanner) =>
      ending scanner = rd_end r /\
      (length (pending scanner) <= length (rd_lines r))%nat
  end.
Proof.
  unfold scanHeaders.
  pose proof (scanFileHeader_ending (NewScanner r)) as Hf.
  destruct (scanFileHeader _ _ _) as [[fh err] scan1].
  destruct Hf as (He1 & Hl1 & Hf). simpl in He1, Hl1, Hf.
  destruct err as [e|]; [by apply Hf|].
  pose proof (scanHunkHeader_ending scan1) as Hh.
  destruct (scanHunkHeader _ _) as [[hh err] scan2].
  destruct Hh as (He2 & Hl2 & Hh).
  destruct err as [e|]; [rewrite <- He1; by apply Hh|].
  split; [congruence | lia].
Qed.

End HeaderScans.

Lemma cutLoop_ending params scan st e :
  cutLoop params scan st = Ok e ->
  match e with
  | LoopReturn err => fromReader (ending scan) err
  | LoopBreak _ _ _ scan' => ending scan' = ending scan
  end.
Proof.
  intros Hrun.
  apply (cutLoop_rule params (fun scan' _ => ending scan' = ending scan)
           (fun e => match e with
                     | LoopReturn err => fromReader (ending scan) err
                     | LoopBreak _ _ _ scan' => ending scan' = ending scan
                     end)) with (scan := scan) (st := st); [|done|done].
  intros scan0 st0 it Hinv Hit.
  pose proof (Scan_ending scan0) as Hs.
  inversion Hit; subst; simpl; try congruence.
  - right. rewrite <- Hinv, <- Hs. by apply Err_fromReader.
  - by left.
Qed.

Lemma afterLoop_ending n :
  forall scan acc, ending (snd (afterLoop n scan acc)) = ending scan.
Proof.
  induction n as [|n IH]; intros scan acc; simpl; [done|].
  pose proof (Scan_ending scan) as Hs.
  destruct (Scan scan) as [ok scan'] eqn:E. simpl in Hs.
  destruct ok; simpl; [|done].
  destruct (Text scan'); [done|]. by rewrite IH.
Qed.

Lemma collectContext_error params at_ err st scanner e :
  collectContext params at_ err st scanner = Ok (inl e) ->
  fromReader (ending scanner) e.
Proof.
  unfold collectContext.
  destruct (inCut st); simpl; [|intros [= <-]; by left].
  destruct (lines _); simpl; [|done].
  destruct (errors_Is err io_EOF); simpl; [done|].
  pose proof (afterLoop_ending (Z.to_nat (AfterLines params)) scanner [])
    as He.
  destruct (afterLoop _ _ _) as [after scanner']. simpl in He.
  destruct (Err scanner') as [e'|] eqn:HErr; [|done].
  intros [= <-]. right. rewrite <- He. by apply Err_fromReader.
Qed.

Section ErrorsOfDiffCut.

Context {DiffFileHeader : Type} (zeroFileHeader : DiffFileHeader).
Context (ParseDiffFileHeader : string -> DiffFileHeader * bool).
Context (ParseDiffHunkHeader : string -> HunkHeader * bool).

Local Abbreviation scanHeaders :=
  (scanHeaders zeroFileHeader ParseDiffFileHeader ParseDiffHunkHeader).
Local Abbreviation diffCutLoop :=
  (diffCutLoop zeroFileHeader ParseDiffFileHeader ParseDiffHunkHeader).
Local Abbreviation diffCutScan :=
  (diffCutScan zeroFileHeader ParseDiffFileHeader ParseDiffHunkHeader).
Local Abbreviation DiffCut :=
  (DiffCut zeroFileHeader ParseDiffFileHeader ParseDiffHunkHeader).

Lemma diffCutScan_error r params e :
  diffCutScan r params = Ok (inl e) -> fromReader (rd_end r) e.
Proof.
  unfold diffCutScan, diffCutLoop.
  pose proof (scanHeaders_ending zeroFileHeader ParseDiffFileHeader
                ParseDiffHunkHeader r) as Hh.
  destruct (scanHeaders r) as [e0|[hunkHeader scanner]]; simpl.
  { by intros [= <-]. }
  destruct Hh as (He & _).
  destruct (newStrCircBuf _) as [buf|]; simpl; [|done].
  destruct (cutLoop _ _ _) as [exit|] eqn:Hrun; simpl; [|done].
  apply cutLoop_ending in Hrun.
  destruct exit as [err|at_ err st scanner'].
  - intros [= <-]. by rewrite <- He.
  - intros Hctx%collectContext_error. by rewrite <- He, <- Hrun.
Qed.

(** X2. Over a stream whose lines all fit the scanner's buffer (so that
    the scanner never ends with [bufio.ErrTooLong] on its own), every
    error DiffCut returns is HunkNotFound or the error that ends the
    reader; it is never [io.EOF], the value the scan loop sets [err] to
    when the lines of the hunk are over. *)
Theorem errors_come_from_the_reader r params h hunk e :
  Forall fitsBuffer (rd_lines r) ->
  DiffCut r params = Ok (h, hunk, Some e) ->
  e <> io_EOF /\ (e = ErrHunkNotFound \/ e = rd_end r).
Proof.
  intros _. unfold DiffCut.
  destruct (diffCutScan r params) as [[e0|pt]|] eqn:Hscan; simpl; [| |done].
  - intros [= _ _ <-]. apply diffCutScan_error in Hscan as [->|[-> Hne]].
    + split; [done | by left].
    + split; [done | by right].
  - by destruct (diffCutHeaderLines pt).
Qed.

End ErrorsOfDiffCut.

(** ** The order of the returned lines *)

Lemma dealt_snoc_left {A} (l a b : list A) x :
  dealt l a b -> dealt (l ++ [x]) (a ++ [x]) b.
Proof.
  induction 1; simpl; [by repeat constructor | by constructor..].
Qed.

Lemma dealt_snoc_right {A} (l a b : list A) x :
  dealt l a b -> dealt (l ++ [x]) a (b ++ [x]).
Proof.
  induction 1; simpl; [by repeat constructor | by constructor..].
Qed.

Lemma dealt_length {A} (l a b : list A) :
  dealt l a b -> length l = (length a + length b)%nat.
Proof. induction 1; simpl; lia. Qed.

Lemma dealtKept_step params body scan st it :
  Z.min (len body) (BeforeLines params) < 2 ^ 62 ->
  dealtKept (BeforeLines params) body scan st ->
  iterates params scan st it ->
  match it with
  | Done e => dealtAtBreak (BeforeLines params) body e
  | Next st' scan' => dealtKept (BeforeLines params) body scan' st'
  end.
Proof.
  intros Hroom (consumed & pushed & Hbody & Hdealt & Hbuf) Hit.
  inversion Hit as
    [Hend | e Hend Hp He | Hend Hp He | rest Hend Hp | c s rest Hend Hp Hl
    | line rest buf Hend Hp Hl Hb Hpush | line rest Hend Hp Hl Hb Hlim
    | line rest Hend Hp Hl Hb Hlim ]; subst it; simpl; try done.
  1-3: by exists consumed, pushed, (pending scan).
  - (* to the buffer *)
    destruct (Scan_pending _ _ _ Hp) as (_ & _ & Hrest & _).
    assert (Hmin : Z.min (len pushed) (BeforeLines params) < 2 ^ 62).
    { apply dealt_length in Hdealt. rewrite Hbody, len_app in Hroom.
      pose proof (len_nonneg (pending scan)). unfold len in *. lia. }
    destruct (bufHolds_push _ _ _ line Hmin Hbuf) as (b' & Hpush' & Hbuf').
    rewrite Hpush in Hpush'. injection Hpush' as <-.
    exists (consumed ++ [line]), (pushed ++ [line]).
    split; [by rewrite Hrest, <- app_assoc, Hbody, Hp|].
    split; [by apply dealt_snoc_left | done].
  - (* to the cut, at the safety break *)
    destruct (Scan_pending _ _ _ Hp) as (_ & _ & Hrest & _).
    exists (consumed ++ [line]), pushed, rest.
    split; [by rewrite <- app_assoc, Hbody, Hp|].
    split; [by rewrite Hrest|].
    split; [by apply dealt_snoc_right | done].
  - (* to the cut *)
    destruct (Scan_pending _ _ _ Hp) as (_ & _ & Hrest & _).
    exists (consumed ++ [line]), pushed.
    split; [by rewrite Hrest, <- app_assoc, Hbody, Hp|].
    split; [by apply dealt_snoc_right | done].
Qed.

Lemma cutLoop_dealtAtBreak params body scan st e :
  Z.min (len body) (BeforeLines params) < 2 ^ 62 ->
  dealtKept (BeforeLines params) body scan st ->
  cutLoop params scan st = Ok e ->
  dealtAtBreak (BeforeLines params) body e.
Proof.
  intros Hroom.
  apply (cutLoop_rule params (dealtKept (BeforeLines params) body)
                      (dealtAtBreak (BeforeLines params) body)).
  intros scan' st' it. by apply dealtKept_step.
Qed.

Lemma dealtKept_start k hunkHeader scan :
  0 <= k ->
  dealtKept k (pending scan) scan (cutStart hunkHeader (mkBuf (-1) [] k)).
Proof.
  intros Hk. exists [], []. split; [done|].
  split; [constructor | by apply bufHolds_empty].
Qed.

Section OrderOfTheLines.

Context {DiffFileHeader : Type} (zeroFileHeader : DiffFileHeader).
Context (ParseDiffFileHeader : string -> DiffFileHeader * bool).
Context (ParseDiffHunkHeader : string -> HunkHeader * bool).

Local Abbreviation scanHeaders :=
  (scanHeaders zeroFileHeader ParseDiffFileHeader ParseDiffHunkHeader).
Local Abbreviation diffCutLoop :=
  (diffCutLoop zeroFileHeader ParseDiffFileHeader ParseDiffHunkHeader).
Local Abbreviation diffCutScan :=
  (diffCutScan zeroFileHeader ParseDiffFileHeader ParseDiffHunkHeader).
Local Abbreviation DiffCut :=
  (DiffCut zeroFileHeader ParseDiffFileHeader ParseDiffHunkHeader).

(** The parts of a cut in the stream: the lines the scan loop has read
    from the lines after the hunk header are dealt to the ring buffer and
    to the cut, the lines before the cut are the last BeforeLines of the
    lines dealt to the buffer, and the lines after the cut follow the
    lines read. *)
Lemma diffCutScan_dealt r params pt hunkHeader scanner :
  diffCutScan r params = Ok (inr pt) ->
  scanHeaders r = inr (hunkHeader, scanner) ->
  Z.min (len (rd_lines r)) (BeforeLines params) < 2 ^ 62 ->
  exists consumed pushed rest,
    pending scanner = consumed ++ cutAfter pt ++ rest /\
    dealt consumed pushed (cutLines pt) /\
    cutBefore pt = lastN (Z.to_nat (BeforeLines params)) pushed.
Proof.
  intros Hscan Hhead Hroom.
  pose proof (scanHeaders_ending zeroFileHeader ParseDiffFileHeader
                ParseDiffHunkHeader r) as Hh.
  rewrite Hhead in Hh. destruct Hh as (_ & Hshort).
  assert (Hroom' : Z.min (len (pending scanner)) (BeforeLines params)
                   < 2 ^ 62) by (unfold len in *; lia).
  apply diffCutScan_ok in Hscan
    as (at_ & err & st & scanner' & Hloop & Hctx).
  apply diffCutLoop_ok in Hloop as (hh & scan0 & buf & Hhead' & Hbuf & Hrun).
  rewrite Hhead in Hhead'. injection Hhead' as <- <-.
  apply newStrCircBuf_ok in Hbuf as (Hk & ->).
  pose proof (cutLoop_errAtBreak _ _ _ _ Hrun) as Herr.
  apply (cutLoop_dealtAtBreak params (pending scanner) _ _ _ Hroom') in Hrun;
    [|by apply dealtKept_start].
  destruct Hrun as (consumed & pushed & tail & Hbody & Htail & Hdealt & Hheld).
  apply collectContext_ok in Hctx as (_ & Hlines & _ & Hc & _ & Hafter).
  assert (Hmin : Z.min (len pushed) (BeforeLines params) < 2 ^ 62).
  { apply dealt_length in Hdealt. rewrite Hbody, len_app in Hroom'.
    pose proof (len_nonneg tail). unfold len in *. lia. }
  rewrite (bufHolds_lines _ _ _ Hmin Hheld) in Hlines.
  injection Hlines as Hbefore.
  assert (Hrest : exists rest, tail = cutAfter pt ++ rest).
  { destruct Hafter as [[_ ->] | (Hnot & -> & _)]; [by exists tail|].
    rewrite Htail.
    - rewrite afterLoop_takeAfter. simpl.
      by destruct (takeAfter_prefix (Z.to_nat (AfterLines params))
                                    (pending scanner')) as (_ & _ & ?).
    - intros ->. simpl in Herr. by rewrite Herr in Hnot. }
  destruct Hrest as (rest & ->).
  exists consumed, pushed, rest. by rewrite Hc.
Qed.

(** The same when the line numbers do not overflow: the lines dealt to
    the buffer are the lines ahead of the cut, so that the lines before
    the cut are the last BeforeLines lines that precede the cut in the
    stream. *)
Lemma diffCutScan_ahead r params pt hunkHeader scanner :
  diffCutScan r params = Ok (inr pt) ->
  scanHeaders r = inr (hunkHeader, scanner) ->
  Z.min (len (rd_lines r)) (BeforeLines params) < 2 ^ 62 ->
  noOverflow hunkHeader (pending scanner) ->
  exists ahead rest,
    pending scanner = ahead ++ cutLines pt ++ cutAfter pt ++ rest /\
    cutBefore pt = lastN (Z.to_nat (BeforeLines params)) ahead.
Proof.
  intros Hscan Hhead Hroom Hfit.
  pose proof (scanHeaders_ending zeroFileHeader ParseDiffFileHeader
                ParseDiffHunkHeader r) as Hh.
  rewrite Hhead in Hh. destruct Hh as (_ & Hshort).
  assert (Hroom' : Z.min (len (pending scanner)) (BeforeLines params)
                   < 2 ^ 62) by (unfold len in *; lia).
  apply diffCutScan_ok in Hscan
    as (at_ & err & st & scanner' & Hloop & Hctx).
  apply diffCutLoop_ok in Hloop as (hh & scan0 & buf & Hhead' & Hbuf & Hrun).
  rewrite Hhead in Hhead'. injection Hhead' as <- <-.
  pose proof (cutLoop_errAtBreak _ _ _ _ Hrun) as Herr.
  apply (cutLoop_runAtBreak params hunkHeader (pending scanner) Hfit Hroom')
    in Hrun; [|by apply runKept_start].
  destruct Hrun as (ahead & tail & Hbody & Htail & Hheld & _).
  apply collectContext_ok in Hctx as (_ & Hlines & _ & Hc & _ & Hafter).
  assert (Hmin : Z.min (len ahead) (BeforeLines params) < 2 ^ 62).
  { rewrite Hbody, !len_app in Hroom'.
    pose proof (len_nonneg (diffCut st)). pose proof (len_nonneg tail).
    lia. }
  rewrite (bufHolds_lines _ _ _ Hmin Hheld) in Hlines.
  injection Hlines as Hbefore.
  assert (Hrest : exists rest, tail = cutAfter pt ++ rest).
  { destruct Hafter as [[_ ->] | (Hnot & -> & _)]; [by exists tail|].
    rewrite Htail.
    - rewrite afterLoop_takeAfter. simpl.
      by destruct (takeAfter_prefix (Z.to_nat (AfterLines params))
                                    (pending scanner')) as (_ & _ & ?).
    - intros ->. simpl in Herr. by rewrite Herr in Hnot. }
  destruct Hrest as (rest & ->).
  exists ahead, rest. by rewrite Hc.
Qed.

(** C2. For every call of DiffCut that returns without error, the lines of
    the returned hunk are the lines before the cut, then the cut, then the
    lines after it, each in the order of the stream: the lines the scan
    loop has read are dealt to the ring buffer and to the cut, each line
    to one of them and each of the two keeping the order in which the
    lines were read; the lines before the cut are the last BeforeLines of
    the lines dealt to the buffer, the oldest first; and the lines after
    the cut are the lines that follow in the stream.  When the line
    numbers do not overflow, the lines dealt to the buffer are the lines
    ahead of the cut: the lines before the cut are the last BeforeLines
    lines that precede the cut in the stream.  (The bound keeps the index
    arithmetic of the buffer within [int]; every slice of Go meets it.)
    The header returned on its own is the header of the cut
    as the loop left it: it starts at the old and new line numbers reached
    at the first line of the cut, and its spans count the lines of the cut
    only; the header of the hunk is that header moved back over the lines
    before the cut, with spans that count all the lines of the hunk. *)
Theorem lines_are_before_cut_after r params h hunk :
  DiffCut r params = Ok (h, hunk, None) ->
  Z.min (len (rd_lines r)) (BeforeLines params) < 2 ^ 62 ->
  exists pt hunkHeader scanner skipped rest,
    diffCutScan r params = Ok (inr pt) /\
    Lines hunk = cutBefore pt ++ cutLines pt ++ cutAfter pt /\
    h = cutHeader pt /\
    scanHeaders r = inr (hunkHeader, scanner) /\
    pending scanner = skipped ++ rest /\
    cutLines pt <> [] /\
    hd_error rest = hd_error (cutLines pt) /\
    OldLine h = incrN (countLines notAdded skipped) (OldLine hunkHeader) /\
    NewLine h = incrN (countLines notRemoved skipped) (NewLine hunkHeader) /\
    OldSpan h = incrN (countLines notAdded (cutLines pt)) 0 /\
    NewSpan h = incrN (countLines notRemoved (cutLines pt)) 0 /\
    OldLine (HunkHeader_of hunk) =
      decrN (countLines notAdded (cutBefore pt)) (OldLine h) /\
    NewLine (HunkHeader_of hunk) =
      decrN (countLines notRemoved (cutBefore pt)) (NewLine h) /\
    OldSpan (HunkHeader_of hunk) = incrN (countLines notAdded (Lines hunk)) 0 /\
    NewSpan (HunkHeader_of hunk) = incrN (countLines notRemoved (Lines hunk)) 0 /\
    (exists consumed pushed after,
        pending scanner = consumed ++ cutAfter pt ++ after /\
        dealt consumed pushed (cutLines pt) /\
        cutBefore pt = lastN (Z.to_nat (BeforeLines params)) pushed) /\
    (noOverflow hunkHeader (pending scanner) ->
     exists ahead after,
       pending scanner = ahead ++ cutLines pt ++ cutAfter pt ++ after /\
       cutBefore pt = lastN (Z.to_nat (BeforeLines params)) ahead).
Proof.
  intros (pt & hl & Hscan & Hhl & -> & ->)%DiffCut_ok Hroom. simpl.
  destruct (diffCutScan_cutCounted _ _ _ _ _ _ Hscan) as (Hne & _ & Ho & Hn).
  pose proof Hscan as (at_ & err & st & scanner' & Hloop & Hctx)%diffCutScan_ok.
  apply diffCutLoop_ok in Hloop as (hh & scan0 & buf & Hhead & _ & Hloop).
  pose proof (diffCutScan_dealt _ _ _ _ _ Hscan Hhead Hroom) as Horder.
  pose proof (diffCutScan_ahead _ _ _ _ _ Hscan Hhead Hroom) as Hahead.
  apply (cutLoop_tracked _ hh (pending scan0)) in Hloop; [|apply tracked_start].
  destruct Hloop as (consumed & Hbody & Hin).
  apply collectContext_ok in Hctx as (HinCut & _ & Hh & Hc & _).
  destruct (Hin HinCut) as (skipped & rest & -> & Hrne & Hhd & Hol & Hnl).
  unfold diffCutHeaderLines in Hhl.
  destruct (coverBefore _ _) as [h1|] eqn:Hbefore; simpl in Hhl; [|done].
  apply coverBefore_spec in Hbefore as (Ho1 & Hn1 & Hol1 & Hnl1 & _).
  apply coverAfter_spec in Hhl as (Ho2 & Hn2 & Hol2 & Hnl2 & _).
  exists pt, hh, scan0, skipped, (rest ++ pending scanner').
  do 4 (split; [done|]).
  split; [by rewrite Hbody, app_assoc|].
  split; [done|].
  split.
  { rewrite Hc, <- Hhd. by destruct rest. }
  rewrite Hol2, Hnl2, Hol1, Hnl1, Ho2, Hn2, Ho1, Hn1, Ho, Hn, Hh.
  do 6 (split; [done|]).
  rewrite !countLines_app, <- !incrN_add.
  split; [f_equal; lia|]. split; [f_equal; lia | done].
Qed.

End OrderOfTheLines.

(** ** No index out of range *)

Lemma cutIteration_fits params room scan st :
  Z.min room (BeforeLines params) < 2 ^ 62 ->
  pushesFit (BeforeLines params) room scan st ->
  exists it,
    cutIteration params scan st = Ok it /\
    match it with
    | Done e => fitAtBreak (BeforeLines params) room e
    | Next st' scan' => pushesFit (BeforeLines params) room scan' st'
    end.
Proof.
  intros Hroom (pushed & Hbuf & Hlen & Hall).
  pose proof (len_nonneg (pending scan)) as Hpos.
  assert (Hmin : Z.min (len pushed) (BeforeLines params) < 2 ^ 62) by lia.
  destruct (cutIteration params scan st) as [it|] eqn:Hit.
  - exists it. split; [done|].
    apply cutIteration_iterates in Hit.
    inversion Hit as
      [Hend | e Hend Hp He | Hend Hp He | rest Hend Hp | c s rest Hend Hp Hl
      | line rest buf Hend Hp Hl Hb Hpush | line rest Hend Hp Hl Hb Hlim
      | line rest Hend Hp Hl Hb Hlim ]; subst it; simpl; try done.
    1-3, 5: exists pushed; split; [done|]; split; [lia | done].
    + destruct (bufHolds_push _ _ _ line Hmin Hbuf) as (b' & Hpush' & Hbuf').
      rewrite Hpush in Hpush'. injection Hpush' as <-.
      destruct (Scan_pending _ _ _ Hp) as (_ & _ & Hrest & _).
      exists (pushed ++ [line]). split; [done|].
      rewrite Hrest, len_app. rewrite Hp in Hlen. unfold len in *.
      simpl in *. split; [lia|].
      apply Forall_app. split; [done|]. by constructor.
    + destruct (Scan_pending _ _ _ Hp) as (_ & _ & Hrest & _).
      exists pushed. split; [done|]. rewrite Hrest.
      rewrite Hp in Hlen. unfold len in *. simpl in *. split; [lia | done].
  - exfalso. revert Hit. unfold cutIteration.
    destruct (pastLineEnd params st); [done|].
    destruct (scanHunkLine scan) as [[[line action] err] scan'].
    destruct err; [done|]. destruct line as [|c line]; [done|].
    destruct (beforeLineStart params st); [|by destruct (_ >? _)].
    destruct (bufHolds_push _ _ _ (String c line) Hmin Hbuf)
      as (b' & -> & _).
    done.
Qed.

Lemma cutLoop_fits params room :
  Z.min room (BeforeLines params) < 2 ^ 62 ->
  forall n scan st,
    length (pending scan) = n ->
    pushesFit (BeforeLines params) room scan st ->
    exists e,
      cutLoop params scan st = Ok e /\
      fitAtBreak (BeforeLines params) room e.
Proof.
  intros Hroom n. induction (lt_wf n) as [n _ IH].
  intros scan st Hn Hfit. rewrite cutLoop_step.
  destruct (cutIteration_fits _ _ _ _ Hroom Hfit) as (it & Hit & Hpost).
  rewrite Hit. destruct it as [e|st' scan']; [by exists e|].
  apply cutIteration_iterates, iterates_shorter in Hit as (l & Hl).
  apply (IH (length (pending scan'))); [|done|done].
  rewrite <- Hn, Hl. simpl. lia.
Qed.

Lemma coverBefore_total ls :
  Forall (fun l => l <> EmptyString) ls ->
  forall h, exists h', coverBefore h ls = Ok h'.
Proof.
  induction 1 as [|l ls Hl _ IH]; intros h; simpl; [by exists h|].
  destruct l as [|c l]; [done|]. simpl. apply IH.
Qed.

Lemma coverAfter_total ls :
  Forall (fun l => l <> EmptyString) ls ->
  forall h, exists h', coverAfter h ls = Ok h'.
Proof.
  induction 1 as [|l ls Hl _ IH]; intros h; simpl; [by exists h|].
  destruct l as [|c l]; [done|]. simpl. apply IH.
Qed.

Lemma collectContext_fits params room at_ err st scanner :
  Z.min room (BeforeLines params) < 2 ^ 62 ->
  fitAtBreak (BeforeLines params) room (LoopBreak at_ err st scanner) ->
  exists res,
    collectContext params at_ err st scanner = Ok res /\
    forall pt, res = inr pt -> exists h, diffCutHeaderLines pt = Ok h.
Proof.
  intros Hroom (pushed & Hbuf & Hlen & Hall). unfold collectContext.
  destruct (inCut st); simpl; [|by eexists].
  assert (Hmin : Z.min (len pushed) (BeforeLines params) < 2 ^ 62) by lia.
  rewrite (bufHolds_lines _ _ _ Hmin Hbuf). simpl.
  assert (Hbefore : Forall (fun l => l <> EmptyString)
                      (lastN (Z.to_nat (BeforeLines params)) pushed)).
  { unfold lastN. apply Forall_drop.
    eapply Forall_impl; [exact Hall|]. intros l. apply isHunkLine_nonempty. }
  destruct (errors_Is err io_EOF); simpl.
  - eexists. split; [done|]. intros pt [= <-].
    unfold diffCutHeaderLines; simpl.
    destruct (coverBefore_total _ Hbefore (diffCutHeader st)) as (h1 & ->).
    by eexists.
  - pose proof (afterLoop_takeAfter (Z.to_nat (AfterLines params)) scanner [])
      as Hafter.
    destruct (afterLoop _ _ _) as [after scanner']. simpl in Hafter.
    destruct (Err scanner'); [by eexists|].
    eexists. split; [done|]. intros pt [= <-].
    unfold diffCutHeaderLines; simpl.
    destruct (coverBefore_total _ Hbefore (diffCutHeader st)) as (h1 & ->).
    simpl. apply coverAfter_total. rewrite Hafter.
    by destruct (takeAfter_prefix (Z.to_nat (AfterLines params))
                                  (pending scanner)) as (_ & ? & _).
Qed.

Lemma pushesFit_start k scan hunkHeader :
  0 <= k ->
  pushesFit k (len (pending scan)) scan (cutStart hunkHeader (mkBuf (-1) [] k)).
Proof.
  intros Hk. exists []. split; [by apply bufHolds_empty|].
  split; [unfold len; simpl; lia | done].
Qed.

Section NoPanic.

Context {DiffFileHeader : Type} (zeroFileHeader : DiffFileHeader).
Context (ParseDiffFileHeader : string -> DiffFileHeader * bool).
Context (ParseDiffHunkHeader : string -> HunkHeader * bool).

Local Abbreviation scanHeaders :=
  (scanHeaders zeroFileHeader ParseDiffFileHeader ParseDiffHunkHeader).
Local Abbreviation diffCutLoop :=
  (diffCutLoop zeroFileHeader ParseDiffFileHeader ParseDiffHunkHeader).
Local Abbreviation diffCutScan :=
  (diffCutScan zeroFileHeader ParseDiffFileHeader ParseDiffHunkHeader).
Local Abbreviation DiffCut :=
  (DiffCut zeroFileHeader ParseDiffFileHeader ParseDiffHunkHeader).

(** X3. No index is out of range.  Over a stream whose lines all fit the
    scanner's buffer, and for a BeforeLines that is negative or a capacity
    [make] gives, DiffCut panics in one case only: both header lines are
    found and BeforeLines is negative, which [make] refuses.  No index
    into the ring buffer is out of range, and no returned line is empty
    when its first byte is read. *)
Theorem DiffCut_panics_on_negative_BeforeLines_only r params :
  Forall fitsBuffer (rd_lines r) ->
  BeforeLines params < 0 \/ makeGives (BeforeLines params) ->
  DiffCut r params = Panic <->
  BeforeLines params < 0 /\
  exists hunkHeader scanner, scanHeaders r = inr (hunkHeader, scanner).
Proof.
  intros _ Hmake.
  assert (Hcap : BeforeLines params < 2 ^ 62)
    by (unfold makeGives in Hmake; lia).
  destruct (scanHeaders r) as [e|[hunkHeader scanner]] eqn:Hhead.
  { rewrite (DiffCut_scan_error _ _ _ r params e)
      by (by apply diffCutScan_header_error).
    split; [done|]. by intros (_ & ? & ? & ?). }
  unfold DiffCut, diffCutScan, diffCutLoop. rewrite Hhead.
  unfold newStrCircBuf.
  destruct (Z.ltb_spec (BeforeLines params) 0) as [Hneg|Hpos]; simpl.
  { split; [|done]. intros _. split; [done|]. by eexists _, _. }
  split; [|lia]. intros Hpanic. exfalso.
  assert (Hroom : Z.min (len (pending scanner)) (BeforeLines params)
                  < 2 ^ 62) by lia.
  destruct (cutLoop_fits params _ Hroom _ scanner
              (cutStart hunkHeader (mkBuf (-1) [] (BeforeLines params)))
              eq_refl (pushesFit_start _ _ _ Hpos)) as (e & Hrun & Hfit).
  rewrite Hrun in Hpanic. simpl in Hpanic.
  destruct e as [err|at_ err st scanner']; [done|].
  destruct (collectContext_fits _ _ _ _ _ _ Hroom Hfit)
    as (res & Hctx & Hres).
  rewrite Hctx in Hpanic. simpl in Hpanic.
  destruct res as [err'|pt]; [done|].
  destruct (Hres pt eq_refl) as (h & Hh). by rewrite Hh in Hpanic.
Qed.

End NoPanic.

(** ** How many lines are returned *)

Lemma linesFrom_length b n :
  forall k i l, linesFrom b n k i = Ok l -> length l = k.
Proof.
  induction k as [|k IH]; intros i l; simpl; [by intros [= <-]|].
  destruct (index _ _); simpl; [|done].
  destruct (linesFrom b n k (i + 1)) as [rest|] eqn:Hrest; simpl; [|done].
  intros [= <-]. simpl. f_equal. by apply (IH (i + 1)).
Qed.

Lemma lines_length b l :
  lines b = Ok l -> len l <= Z.max 0 (entries_cap b).
Proof.
  unfold lines.
  destruct (Z.ltb_spec (len (entries b)) (entries_cap b)) as [Hlt|Hge].
  - intros [= <-]. lia.
  - intros Hl%linesFrom_length. unfold len. rewrite Hl. lia.
Qed.

Lemma push_cap b s b' :
  push b s = Ok b' -> entries_cap b' = entries_cap b.
Proof.
  unfold push. destruct (entries_cap b =? 0); [by intros [= <-]|].
  destruct (len (entries b) <? entries_cap b); [by intros [= <-]|].
  destruct (store _ _ _); simpl; [|done]. by intros [= <-].
Qed.

Lemma cutLoop_cap params scan st e :
  cutLoop params scan st = Ok e ->
  atBreak (fun st' =>
             entries_cap (linesBeforeBuf st') = entries_cap (linesBeforeBuf st))
          e.
Proof.
  intros Hrun.
  apply (cutLoop_rule params
           (fun _ st' =>
              entries_cap (linesBeforeBuf st') =
              entries_cap (linesBeforeBuf st))
           (atBreak (fun st' =>
              entries_cap (linesBeforeBuf st') =
              entries_cap (linesBeforeBuf st))))
    with (scan := scan) (st := st); [|done|done].
  intros scan0 st0 it Hinv Hit.
  inversion Hit as
    [Hend | e0 Hend Hp He | Hend Hp He | rest Hend Hp | c s rest Hend Hp Hl
    | line rest buf Hend Hp Hl Hb Hpush | line rest Hend Hp Hl Hb Hlim
    | line rest Hend Hp Hl Hb Hlim ]; subst it; simpl; try done.
  by rewrite (push_cap _ _ _ Hpush).
Qed.

Section Sizes.

Context {DiffFileHeader : Type} (zeroFileHeader : DiffFileHeader).
Context (ParseDiffFileHeader : string -> DiffFileHeader * bool).
Context (ParseDiffHunkHeader : string -> HunkHeader * bool).

Local Abbreviation scanHeaders :=
  (scanHeaders zeroFileHeader ParseDiffFileHeader ParseDiffHunkHeader).
Local Abbreviation diffCutLoop :=
  (diffCutLoop zeroFileHeader ParseDiffFileHeader ParseDiffHunkHeader).
Local Abbreviation diffCutScan :=
  (diffCutScan zeroFileHeader ParseDiffFileHeader ParseDiffHunkHeader).
Local Abbreviation DiffCut :=
  (DiffCut zeroFileHeader ParseDiffFileHeader ParseDiffHunkHeader).

(** What a scan that gives the parts of a cut went through, with the
    sizes of the parts. *)
Lemma diffCutScan_sizes r params pt :
  diffCutScan r params = Ok (inr pt) ->
  0 <= BeforeLines params /\
  len (cutBefore pt) <= BeforeLines params /\
  len (cutLines pt) <= Z.max 0 (LineLimit params) + 1 /\
  len (cutAfter pt) <= Z.max 0 (AfterLines params).
Proof.
  intros (at_ & err & st & scanner & Hloop & Hctx)%diffCutScan_ok.
  apply diffCutLoop_ok in Hloop as (hh & scan0 & buf & _ & Hbuf & Hrun).
  apply newStrCircBuf_ok in Hbuf as (Hk & ->).
  pose proof (cutLoop_cap _ _ _ _ Hrun) as Hcap. simpl in Hcap.
  pose proof (cutLoop_limitKept _ _ _ _ (cutBounded_start params hh _) Hrun)
    as Hlim%limitKept_bound. simpl in Hlim.
  apply collectContext_ok in Hctx as (_ & Hlines & _ & Hc & _ & Hafter).
  apply lines_length in Hlines. rewrite Hcap in Hlines.
  split; [done|]. split; [lia|]. split; [by rewrite Hc|].
  destruct Hafter as [[_ ->] | (_ & -> & _)]; [unfold len; simpl; lia|].
  rewrite afterLoop_takeAfter. simpl.
  destruct (takeAfter_prefix (Z.to_nat (AfterLines params))
                             (pending scanner)) as (Hle & _).
  unfold len. lia.
Qed.

(** X4. A call that returns a hunk was given a BeforeLines that is not
    negative, and returns at most BeforeLines + (LineLimit + 1) +
    AfterLines lines, a negative LineLimit or AfterLines counting as 0:
    what DiffCut holds and returns is bounded by its parameters, however
    long the hunk is. *)
Theorem returned_lines_are_bounded r params h hunk :
  DiffCut r params = Ok (h, hunk, None) ->
  0 <= BeforeLines params /\
  len (Lines hunk) <=
    BeforeLines params + (Z.max 0 (LineLimit params) + 1)
    + Z.max 0 (AfterLines params).
Proof.
  intros (pt & hl & Hscan & _ & _ & ->)%DiffCut_ok. simpl.
  apply diffCutScan_sizes in Hscan as (Hk & Hb & Hc & Ha).
  split; [done|]. rewrite !len_app. lia.
Qed.

(** X5. With BeforeLines = 0 the header of the returned hunk starts at the
    line numbers of the header of the cut; if no line after the cut is
    asked for either, the two headers are equal and the returned lines are
    the cut. *)
Theorem without_context_the_headers_agree r params h hunk :
  DiffCut r params = Ok (h, hunk, None) ->
  BeforeLines params = 0 ->
  OldLine (HunkHeader_of hunk) = OldLine h /\
  NewLine (HunkHeader_of hunk) = NewLine h /\
  (AfterLines params <= 0 ->
   HunkHeader_of hunk = h /\
   exists pt,
     diffCutScan r params = Ok (inr pt) /\ Lines hunk = cutLines pt).
Proof.
  intros (pt & hl & Hscan & Hhl & -> & ->)%DiffCut_ok Hzero. simpl.
  pose proof (diffCutScan_sizes _ _ _ Hscan) as (_ & Hb & _ & Ha).
  assert (Hbefore : cutBefore pt = []).
  { destruct (cutBefore pt); [done|]. unfold len in Hb. simpl in Hb. lia. }
  unfold diffCutHeaderLines in Hhl. rewrite Hbefore in Hhl. simpl in Hhl.
  pose proof (coverAfter_spec _ _ _ Hhl) as (_ & _ & Hol & Hnl & _).
  do 2 (split; [done|]). intros Hafter.
  assert (Hnone : cutAfter pt = []).
  { destruct (cutAfter pt); [done|]. unfold len in Ha. simpl in Ha. lia. }
  rewrite Hnone in Hhl. simpl in Hhl. injection Hhl as <-.
  split; [done|]. exists pt. split; [done|].
  by rewrite Hbefore, Hnone, app_nil_r.
Qed.

End Sizes.

(** ** The cut and the range *)

Lemma snoc_split {A} (xs : list A) x s1 l s2 :
  xs ++ [x] = s1 ++ l :: s2 ->
  s2 = [] /\ s1 = xs /\ l = x \/
  exists s2', s2 = s2' ++ [x] /\ xs = s1 ++ l :: s2'.
Proof.
  destruct s2 as [|y s2 _] using rev_ind; intros Heq.
  - apply app_inj_tail in Heq as [-> ->]. by left.
  - change (s1 ++ l :: s2 ++ [y]) with (s1 ++ (l :: s2) ++ [y]) in Heq.
    rewrite app_assoc in Heq. apply app_inj_tail in Heq as [-> ->].
    right. by exists s2.
Qed.

Lemma pastLineEnd_endNumber params hunkHeader read st :
  currentOldLine st =
    OldLine hunkHeader + Z.of_nat (countLines notAdded read) ->
  currentNewLine st =
    NewLine hunkHeader + Z.of_nat (countLines notRemoved read) ->
  pastLineEnd params st = (endNumber params hunkHeader read >? LineEnd params).
Proof.
  intros Ho Hn. unfold pastLineEnd, endNumber. rewrite Ho, Hn.
  destruct (LineEndNew params); simpl; by rewrite ?orb_false_r.
Qed.

Lemma beforeLineStart_startNumber params hunkHeader read st :
  currentOldLine st =
    OldLine hunkHeader + Z.of_nat (countLines notAdded read) ->
  currentNewLine st =
    NewLine hunkHeader + Z.of_nat (countLines notRemoved read) ->
  beforeLineStart params st =
    (startNumber params hunkHeader read <? LineStart params).
Proof.
  intros Ho Hn. unfold beforeLineStart, startNumber. rewrite Ho, Hn.
  destruct (LineStartNew params); simpl; by rewrite ?orb_false_r.
Qed.

Lemma withinRange_snoc params hunkHeader skipped cut line :
  withinRange params hunkHeader skipped cut ->
  LineStart params <= startNumber params hunkHeader (skipped ++ cut) ->
  endNumber params hunkHeader (skipped ++ cut) <= LineEnd params ->
  withinRange params hunkHeader skipped (cut ++ [line]).
Proof.
  intros Hwithin Hs He c1 l c2 [(-> & -> & ->)|(c2' & -> & ->)]%snoc_split.
  - done.
  - by apply (Hwithin c1 l c2').
Qed.

Section Range.

Variable params : DiffCutParams.
Variable hunkHeader : HunkHeader.
Variable body : list string.

Hypothesis Hfit : noOverflow hunkHeader body.

Lemma rangeKept_step scan st it :
  rangeKept params hunkHeader body scan st ->
  iterates params scan st it ->
  match it with
  | Done e => rangeAtBreak params hunkHeader body e
  | Next st' scan' => rangeKept params hunkHeader body scan' st'
  end.
Proof using All.
  intros (skipped & Hbody & Ho & Hn & Hout & Hin & Hahead & Hwithin) Hit.
  destruct Hfit as (Holo & Hohi & Hnlo & Hnhi).
  pose proof (countLines_le notAdded (skipped ++ diffCut st)) as Hco.
  pose proof (countLines_le notRemoved (skipped ++ diffCut st)) as Hcn.
  pose proof (pastLineEnd_endNumber params _ _ _ Ho Hn) as Hpast.
  pose proof (beforeLineStart_startNumber params _ _ _ Ho Hn) as Hbefore.
  assert (Hlen : len body =
                 len (skipped ++ diffCut st) + len (pending scan))
    by (by rewrite Hbody, app_assoc, len_app).
  assert (Hhead : inCut st = true ->
            OldLine (diffCutHeader st) =
              OldLine hunkHeader + Z.of_nat (countLines notAdded skipped) /\
            NewLine (diffCutHeader st) =
              NewLine hunkHeader + Z.of_nat (countLines notRemoved skipped))
    by (intros HinCut; by destruct (Hin HinCut) as (_ & ? & ?)).
  assert (Hhead' : forall action,
            OldLine (cutHeaderStep st action) =
              OldLine hunkHeader + Z.of_nat (countLines notAdded skipped) /\
            NewLine (cutHeaderStep st action) =
              NewLine hunkHeader + Z.of_nat (countLines notRemoved skipped)).
  { intros action. unfold cutHeaderStep; simpl.
    destruct (inCut st) eqn:HinCut; simpl.
    - by apply Hhead.
    - rewrite (Hout eq_refl), app_nil_r in Ho, Hn. done. }
  inversion Hit as
    [Hend | e Hend Hp He | Hend Hp He | rest Hend Hp | c s rest Hend Hp Hl
    | line rest buf Hend Hp Hl Hb Hpush | line rest Hend Hp Hl Hb Hlim
    | line rest Hend Hp Hl Hb Hlim ]; subst it; simpl; try done.
  - (* the end of the range *)
    exists skipped, (pending scan). do 3 (split; [done|]).
    split; [|done]. simpl. rewrite Hpast in Hend. lia.
  - (* the end of the stream *)
    exists skipped, (pending scan). do 3 (split; [done|]).
    split; [|done]. simpl. by left.
  - (* a line that is no line of a hunk *)
    exists skipped, (pending scan). do 3 (split; [done|]).
    split; [|done]. simpl. right. rewrite Hp. by eexists _, _.
  - (* to the buffer *)
    destruct (Scan_pending _ _ _ Hp) as (_ & _ & Hrest & _).
    destruct (inCut st) eqn:HinCut.
    { destruct (Hin eq_refl) as (Hnb & _). by rewrite Hnb in Hb. }
    rewrite (Hout eq_refl), app_nil_r in *. simpl in Hbody.
    rewrite Hp in Hlen. unfold len in Hlen, Hohi, Hnhi. simpl in Hlen.
    exists (skipped ++ [line]). unfold advance, bufferLine; simpl.
    rewrite HinCut, (Hout eq_refl), Hrest, app_nil_r.
    rewrite (notAdded_actionOf _ Hl), (notRemoved_actionOf _ Hl).
    rewrite !countLines_app, Ho, Hn. simpl.
    unfold incr. rewrite !wrap_small by lia.
    split; [by rewrite <- app_assoc, Hbody, Hp|].
    split; [destruct (notAdded line); lia|].
    split; [destruct (notRemoved line); lia|].
    do 2 (split; [done|]). split.
    + intros s1 l s2 [(-> & -> & ->)|(s2' & -> & ->)]%snoc_split.
      * rewrite Hbefore in Hb. lia.
      * by apply (Hahead s1 l s2').
    + intros c1 l c2 Hnil. by destruct c1.
  - (* to the cut, at the safety break *)
    destruct (Scan_pending _ _ _ Hp) as (_ & _ & Hrest & _).
    exists skipped, rest. unfold cutLine; simpl.
    split; [by rewrite <- app_assoc, Hbody, Hp|]. split; [done|].
    split; [|split; [done|intros _; apply (Hhead' (actionOf line))]].
    apply withinRange_snoc; [done| |].
    + rewrite Hbefore in Hb. lia.
    + rewrite Hpast in Hend. lia.
  - (* to the cut *)
    destruct (Scan_pending _ _ _ Hp) as (_ & _ & Hrest & _).
    exists skipped.
    rewrite Hp in Hlen. unfold len in Hlen, Hohi, Hnhi. simpl in Hlen.
    split; [simpl; by rewrite Hrest, <- app_assoc, Hbody, Hp|].
    split; [|split; [|split; [done|split; [|split; [done|]]]]].
    + unfold advance; simpl.
      rewrite (notAdded_actionOf _ Hl), app_assoc, countLines_app, Ho.
      simpl. unfold incr. rewrite !wrap_small by lia.
      destruct (notAdded line); lia.
    + unfold advance; simpl.
      rewrite (notRemoved_actionOf _ Hl), app_assoc, countLines_app, Hn.
      simpl. unfold incr. rewrite !wrap_small by lia.
      destruct (notRemoved line); lia.
    + intros _. split; [|apply (Hhead' (actionOf line))].
      apply (advance_not_before params []); simpl; try lia. exact Hb.
    + simpl. apply withinRange_snoc; [done| |].
      * rewrite Hbefore in Hb. lia.
      * rewrite Hpast in Hend. lia.
Qed.

Lemma cutLoop_rangeAtBreak scan st e :
  rangeKept params hunkHeader body scan st ->
  cutLoop params scan st = Ok e ->
  rangeAtBreak params hunkHeader body e.
Proof using All.
  apply (cutLoop_rule params (rangeKept params hunkHeader body)
                      (rangeAtBreak params hunkHeader body)).
  intros scan' st' it. apply rangeKept_step.
Qed.

End Range.

Lemma rangeKept_start params hunkHeader scan buf :
  rangeKept params hunkHeader (pending scan) scan (cutStart hunkHeader buf).
Proof.
  exists []. unfold cutStart; simpl.
  split; [done|]. do 2 (split; [lia|]). do 2 (split; [done|]).
  split; intros s1 l s2 Hnil; by destruct s1.
Qed.

(** With the start of the range after its end in the same numbering no
    line gets into the cut. *)
Lemma cutLoop_empty_range params scan st e :
  LineStartNew params = LineEndNew params ->
  LineEnd params < LineStart params ->
  inCut st = false ->
  cutLoop params scan st = Ok e ->
  atBreak (fun st' => inCut st' = false) e.
Proof.
  intros Hsame Hempty.
  apply (cutLoop_rule params (fun _ st' => inCut st' = false)
                      (atBreak (fun st' => inCut st' = false))).
  intros scan0 st0 it Hinv Hit.
  assert (Hno : pastLineEnd params st0 = false ->
                beforeLineStart params st0 = false -> False).
  { unfold pastLineEnd, beforeLineStart. rewrite Hsame.
    destruct (LineEndNew params); simpl; rewrite ?orb_false_r;
      intros H1 H2; lia. }
  inversion Hit; subst; simpl; try done; by exfalso; auto.
Qed.

Section RangeOfTheCut.

Context {DiffFileHeader : Type} (zeroFileHeader : DiffFileHeader).
Context (ParseDiffFileHeader : string -> DiffFileHeader * bool).
Context (ParseDiffHunkHeader : string -> HunkHeader * bool).

Local Abbreviation scanHeaders :=
  (scanHeaders zeroFileHeader ParseDiffFileHeader ParseDiffHunkHeader).
Local Abbreviation diffCutLoop :=
  (diffCutLoop zeroFileHeader ParseDiffFileHeader ParseDiffHunkHeader).
Local Abbreviation diffCutScan :=
  (diffCutScan zeroFileHeader ParseDiffFileHeader ParseDiffHunkHeader).
Local Abbreviation DiffCut :=
  (DiffCut zeroFileHeader ParseDiffFileHeader ParseDiffHunkHeader).

(** What a scan that gives the parts of a cut has found, in a hunk whose
    line numbers do not overflow. *)
Lemma diffCutScan_range r params pt hunkHeader scanner :
  diffCutScan r params = Ok (inr pt) ->
  scanHeaders r = inr (hunkHeader, scanner) ->
  noOverflow hunkHeader (pending scanner) ->
  exists ahead tail,
    pending scanner = ahead ++ cutLines pt ++ tail /\
    cutLines pt <> [] /\
    aheadOfRange params hunkHeader ahead /\
    withinRange params hunkHeader ahead (cutLines pt) /\
    cutEndsBy params hunkHeader (ahead ++ cutLines pt) (cutLines pt) tail
              (cutBreak pt) /\
    OldLine (cutHeader pt) =
      OldLine hunkHeader + Z.of_nat (countLines notAdded ahead) /\
    NewLine (cutHeader pt) =
      NewLine hunkHeader + Z.of_nat (countLines notRemoved ahead).
Proof.
  intros Hscan Hhead Hfit.
  destruct (diffCutScan_cutCounted _ _ _ _ _ _ Hscan) as (Hne & _).
  apply diffCutScan_ok in Hscan
    as (at_ & err & st & scanner' & Hloop & Hctx).
  apply diffCutLoop_ok in Hloop as (hh & scan0 & buf & Hhead' & _ & Hrun).
  rewrite Hhead in Hhead'. injection Hhead' as <- <-.
  apply (cutLoop_rangeAtBreak params hunkHeader (pending scanner) Hfit)
    in Hrun; [|by apply rangeKept_start].
  destruct Hrun as (ahead & tail & Hbody & Hahead & Hwithin & Hends & Hin).
  apply collectContext_ok in Hctx as (HinCut & _ & Hh & Hc & Hat & _).
  exists ahead, tail. rewrite Hh, Hc, Hat. rewrite Hc in Hne.
  do 5 (split; [done|]). by apply Hin.
Qed.

(** X6. In a hunk whose line numbers do not overflow, the cut is the range
    asked for.  The lines after the hunk header are [ahead ++ cut ++ tail];
    every line of [ahead] has a number below LineStart (in the numbering
    LineStartNew selects); every line of the cut has a number that is at
    least LineStart and at most LineEnd (in the numbering LineEndNew
    selects); and the cut ends because the next line is past LineEnd,
    because the lines of the hunk are over, or because the cut is longer
    than LineLimit. *)
Theorem the_cut_is_the_range r params h hunk hunkHeader scanner :
  DiffCut r params = Ok (h, hunk, None) ->
  scanHeaders r = inr (hunkHeader, scanner) ->
  noOverflow hunkHeader (pending scanner) ->
  exists pt ahead tail,
    diffCutScan r params = Ok (inr pt) /\
    pending scanner = ahead ++ cutLines pt ++ tail /\
    cutLines pt <> [] /\
    aheadOfRange params hunkHeader ahead /\
    withinRange params hunkHeader ahead (cutLines pt) /\
    cutEndsBy params hunkHeader (ahead ++ cutLines pt) (cutLines pt) tail
              (cutBreak pt).
Proof.
  intros (pt & hl & Hscan & _ & _ & _)%DiffCut_ok Hhead Hfit.
  destruct (diffCutScan_range _ _ _ _ _ Hscan Hhead Hfit)
    as (ahead & tail & ? & ? & ? & ? & ? & _).
  by exists pt, ahead, tail.
Qed.

(** X7. The header of the cut lies within the range.  In a hunk whose line
    numbers do not overflow, the line number the header of the cut starts
    at is at least LineStart, and its line number plus its span is at
    most LineEnd + 1, each in the numbering that LineStartNew and
    LineEndNew select: the cut has no more old (new) lines than the range
    has numbers, whatever LineLimit is. *)
Theorem cut_header_within_the_range r params h hunk hunkHeader scanner :
  DiffCut r params = Ok (h, hunk, None) ->
  scanHeaders r = inr (hunkHeader, scanner) ->
  noOverflow hunkHeader (pending scanner) ->
  len (Lines hunk) < 2 ^ 63 ->
  LineStart params <=
    (if LineStartNew params then NewLine h else OldLine h) /\
  (if LineEndNew params
   then NewLine h + NewSpan h else OldLine h + OldSpan h)
    <= LineEnd params + 1.
Proof.
  intros (pt & hl & Hscan & _ & -> & ->)%DiffCut_ok Hhead Hfit Hlen.
  simpl in Hlen.
  destruct (diffCutScan_cutCounted _ _ _ _ _ _ Hscan)
    as (_ & _ & Hos & Hns).
  destruct (diffCutScan_range _ _ _ _ _ Hscan Hhead Hfit)
    as (ahead & tail & _ & Hne & _ & Hwithin & _ & Hol & Hnl).
  rewrite !len_app in Hlen.
  pose proof (len_nonneg (cutBefore pt)). pose proof (len_nonneg (cutAfter pt)).
  pose proof (countLines_le notAdded (cutLines pt)) as Hco.
  pose proof (countLines_le notRemoved (cutLines pt)) as Hcn.
  unfold len in *.
  rewrite incrN_small in Hos, Hns by lia.
  rewrite Hos, Hns, Hol, Hnl.
  destruct (cutLines pt) as [|first cut'] eqn:Hcut; [done|].
  destruct (Hwithin [] first cut' eq_refl) as (Hfirst & _).
  rewrite app_nil_r in Hfirst.
  split; [unfold startNumber in Hfirst; by destruct (LineStartNew params)|].
  assert (Hlast : exists c1 last, first :: cut' = c1 ++ [last]).
  { destruct (first :: cut') as [|x c _] using rev_ind; [|by eexists _, _].
    done. }
  destruct Hlast as (c1 & last & Hsplit).
  destruct (Hwithin c1 last [] Hsplit) as (_ & Hend).
  unfold endNumber in Hend. rewrite !countLines_app in Hend.
  rewrite Hsplit, !countLines_app. simpl.
  destruct (LineEndNew params), (notAdded last), (notRemoved last); lia.
Qed.

(** The lines ahead of the cut are the same for two ranges with the same
    start. *)
Lemma ahead_of_the_cut_unique params params' hunkHeader
    (a1 c1 t1 a2 c2 t2 : list string) :
  LineStart params = LineStart params' ->
  LineStartNew params = LineStartNew params' ->
  a1 ++ c1 ++ t1 = a2 ++ c2 ++ t2 ->
  c1 <> [] -> c2 <> [] ->
  aheadOfRange params hunkHeader a1 ->
  aheadOfRange params' hunkHeader a2 ->
  withinRange params hunkHeader a1 c1 ->
  withinRange params' hunkHeader a2 c2 ->
  a1 = a2.
Proof.
  intros Hs Hn Heq Hc1 Hc2 Ha1 Ha2 Hw1 Hw2.
  assert (Hnum : forall read,
             startNumber params hunkHeader read =
             startNumber params' hunkHeader read)
    by (intros read; unfold startNumber; by rewrite Hn).
  destruct c1 as [|x1 c1]; [done|]. destruct c2 as [|x2 c2]; [done|].
  destruct (Hw1 [] x1 c1 eq_refl) as (Hx1 & _).
  destruct (Hw2 [] x2 c2 eq_refl) as (Hx2 & _).
  rewrite app_nil_r in Hx1, Hx2.
  apply app_eq_app in Heq as (k & [[-> Hk]|[-> Hk]]).
  - destruct k as [|l k]; [by rewrite app_nil_r|].
    specialize (Ha1 a2 l k eq_refl). rewrite Hnum in Ha1. lia.
  - destruct k as [|l k]; [by rewrite app_nil_r|].
    specialize (Ha2 a1 l k eq_refl). rewrite <- Hnum in Ha2. lia.
Qed.

(** X8. Where the cut starts depends on the start of the range only.  In a
    hunk whose line numbers do not overflow, two calls on the same stream
    with the same LineStart and LineStartNew that both return a hunk
    return headers of the cut with the same old and new line number, and
    cuts with the same first line, whatever LineEnd, LineLimit and the
    numbers of lines around the cut are. *)
Theorem the_cut_starts_by_LineStart
    r params params' h hunk h' hunk' hunkHeader scanner :
  DiffCut r params = Ok (h, hunk, None) ->
  DiffCut r params' = Ok (h', hunk', None) ->
  LineStart params = LineStart params' ->
  LineStartNew params = LineStartNew params' ->
  scanHeaders r = inr (hunkHeader, scanner) ->
  noOverflow hunkHeader (pending scanner) ->
  OldLine h = OldLine h' /\ NewLine h = NewLine h' /\
  exists pt pt',
    diffCutScan r params = Ok (inr pt) /\
    diffCutScan r params' = Ok (inr pt') /\
    hd_error (cutLines pt) = hd_error (cutLines pt').
Proof.
  intros (pt & hl & Hscan & _ & -> & _)%DiffCut_ok
         (pt' & hl' & Hscan' & _ & -> & _)%DiffCut_ok Hs Hn Hhead Hfit.
  destruct (diffCutScan_range _ _ _ _ _ Hscan Hhead Hfit)
    as (a1 & t1 & Hb1 & Hc1 & Ha1 & Hw1 & _ & Hol1 & Hnl1).
  destruct (diffCutScan_range _ _ _ _ _ Hscan' Hhead Hfit)
    as (a2 & t2 & Hb2 & Hc2 & Ha2 & Hw2 & _ & Hol2 & Hnl2).
  assert (Heq : a1 ++ cutLines pt ++ t1 = a2 ++ cutLines pt' ++ t2)
    by congruence.
  pose proof (ahead_of_the_cut_unique _ _ _ _ _ _ _ _ _ Hs Hn Heq Hc1 Hc2
                Ha1 Ha2 Hw1 Hw2) as ->.
  split; [congruence|]. split; [congruence|].
  exists pt, pt'. do 2 (split; [done|]).
  apply app_inv_head in Heq.
  destruct (cutLines pt), (cutLines pt'); try done.
  simpl in Heq. by injection Heq as ->.
Qed.

(** X9. A range whose start lies after its end in the same numbering has
    no line: DiffCut never returns a hunk for it. *)
Theorem start_after_end_finds_nothing r params h hunk err :
  LineStartNew params = LineEndNew params ->
  LineEnd params < LineStart params ->
  DiffCut r params = Ok (h, hunk, err) ->
  err <> None /\ h = zeroHunkHeader /\ hunk = zeroHunk.
Proof.
  intros Hsame Hempty Hcut.
  destruct err as [e|].
  { unfold DiffCut in Hcut.
    destruct (diffCutScan r params) as [[e0|pt]|]; simpl in Hcut;
      [|by destruct (diffCutHeaderLines pt)|done].
    by injection Hcut as <- <- _. }
  exfalso.
  apply DiffCut_ok in Hcut as (pt & hl & Hscan & _).
  apply diffCutScan_ok in Hscan as (at_ & err & st & scanner & Hloop & Hctx).
  apply diffCutLoop_ok in Hloop as (hh & scan0 & buf & _ & _ & Hrun).
  apply (cutLoop_empty_range _ _ (cutStart hh buf) _ Hsame Hempty eq_refl)
    in Hrun.
  simpl in Hrun.
  apply collectContext_ok in Hctx as (HinCut & _). congruence.
Qed.

End RangeOfTheCut.

(** ** The context does not change the cut *)

Lemma cutIteration_sameCut params beforeLines afterLines scan st st' :
  sameCut st st' ->
  match cutIteration params scan st,
        cutIteration (withContext params beforeLines afterLines) scan st'
  with
  | Ok (Done e), Ok (Done e') => sameExit e e'
  | Ok (Next st1 scan1), Ok (Next st1' scan1') =>
      scan1 = scan1' /\ sameCut st1 st1'
  | Panic, _ | _, Panic => True
  | _, _ => False
  end.
Proof.
  destruct st as [o n i h c b], st' as [o' n' i' h' c' b'].
  intros (Ho & Hn & Hi & Hh & Hc). simpl in *. subst o' n' i' h' c'.
  unfold cutIteration, pastLineEnd, beforeLineStart, withContext; simpl.
  destruct (_ || _); [done|].
  destruct (scanHunkLine scan) as [[[line action] err] scan'].
  destruct err; [done|]. destruct line as [|a line]; [done|].
  destruct (_ || _).
  - destruct (push b _), (push b' _); simpl; done.
  - unfold cutLine; simpl. by destruct (_ >? _).
Qed.

Lemma cutLoop_sameCut params beforeLines afterLines :
  forall n scan st st' e e',
    length (pending scan) = n ->
    sameCut st st' ->
    cutLoop params scan st = Ok e ->
    cutLoop (withContext params beforeLines afterLines) scan st' = Ok e' ->
    sameExit e e'.
Proof.
  intros n. induction (lt_wf n) as [n _ IH].
  intros scan st st' e e' Hn Hsame. rewrite !cutLoop_step.
  pose proof (cutIteration_sameCut params beforeLines afterLines scan _ _
                Hsame) as Hstep.
  destruct (cutIteration params scan st) as [[e1|st1 scan1]|] eqn:Hit;
    [| |done];
    destruct (cutIteration (withContext _ _ _) scan st')
      as [[e1'|st1' scan1']|]; try done.
  - by intros [= <-] [= <-].
  - destruct Hstep as (<- & Hsame1).
    apply cutIteration_iterates, iterates_shorter in Hit as (l & Hl).
    apply (IH (length (pending scan1))); [|done|done].
    rewrite <- Hn, Hl. simpl. lia.
Qed.

Section ContextSizes.

Context {DiffFileHeader : Type} (zeroFileHeader : DiffFileHeader).
Context (ParseDiffFileHeader : string -> DiffFileHeader * bool).
Context (ParseDiffHunkHeader : string -> HunkHeader * bool).

Local Abbreviation scanHeaders :=
  (scanHeaders zeroFileHeader ParseDiffFileHeader ParseDiffHunkHeader).
Local Abbreviation diffCutLoop :=
  (diffCutLoop zeroFileHeader ParseDiffFileHeader ParseDiffHunkHeader).
Local Abbreviation diffCutScan :=
  (diffCutScan zeroFileHeader ParseDiffFileHeader ParseDiffHunkHeader).
Local Abbreviation DiffCut :=
  (DiffCut zeroFileHeader ParseDiffFileHeader ParseDiffHunkHeader).

(** X10. The numbers of lines asked for before and after the cut do not
    change the cut: two calls on the same stream that differ in
    BeforeLines and AfterLines only, and both return a hunk, return the
    same header of the cut, have the same lines in the cut and leave the
    scan loop at the same [break]. *)
Theorem context_does_not_change_the_cut
    r params beforeLines afterLines h hunk h' hunk' :
  DiffCut r params = Ok (h, hunk, None) ->
  DiffCut r (withContext params beforeLines afterLines) =
    Ok (h', hunk', None) ->
  h = h' /\
  exists pt pt',
    diffCutScan r params = Ok (inr pt) /\
    diffCutScan r (withContext params beforeLines afterLines) =
      Ok (inr pt') /\
    cutLines pt = cutLines pt' /\
    cutBreak pt = cutBreak pt' /\
    Lines hunk = cutBefore pt ++ cutLines pt ++ cutAfter pt /\
    Lines hunk' = cutBefore pt' ++ cutLines pt ++ cutAfter pt'.
Proof.
  intros (pt & hl & Hscan & _ & -> & ->)%DiffCut_ok
         (pt' & hl' & Hscan' & _ & -> & ->)%DiffCut_ok.
  pose proof Hscan as Hparts. pose proof Hscan' as Hparts'.
  apply diffCutScan_ok in Hparts
    as (at_ & err & st & scanner & Hloop & Hctx).
  apply diffCutScan_ok in Hparts'
    as (at_' & err' & st' & scanner' & Hloop' & Hctx').
  apply diffCutLoop_ok in Hloop as (hh & scan0 & buf & Hhead & _ & Hrun).
  apply diffCutLoop_ok in Hloop' as (hh' & scan0' & buf' & Hhead' & _ & Hrun').
  rewrite Hhead in Hhead'. injection Hhead' as <- <-.
  assert (Hstart : sameCut (cutStart hh buf) (cutStart hh buf')) by done.
  pose proof (cutLoop_sameCut params beforeLines afterLines _ _ _ _ _ _
                eq_refl Hstart Hrun Hrun')
    as (<- & <- & <- & _ & _ & _ & Hh & Hc).
  apply collectContext_ok in Hctx as (_ & _ & Hh1 & Hc1 & Hat1 & _).
  apply collectContext_ok in Hctx' as (_ & _ & Hh2 & Hc2 & Hat2 & _).
  assert (Hcut : cutLines pt = cutLines pt') by congruence.
  split; [congruence|]. exists pt, pt'. simpl.
  do 2 (split; [done|]). split; [done|]. split; [congruence|].
  split; [done|]. by rewrite Hcut.
Qed.

End ContextSizes.

(** ** The header lines *)

Section Headers.

Context {DiffFileHeader : Type} (zeroFileHeader : DiffFileHeader).
Context (ParseDiffFileHeader : string -> DiffFileHeader * bool).
Context (ParseDiffHunkHeader : string -> HunkHeader * bool).

Local Abbreviation scanHeaders :=
  (scanHeaders zeroFileHeader ParseDiffFileHeader ParseDiffHunkHeader).
Local Abbreviation DiffCut :=
  (DiffCut zeroFileHeader ParseDiffFileHeader ParseDiffHunkHeader).

Lemma scanHunkHeader_found scan :
  forall pre l post,
    pending scan = pre ++ l :: post ->
    Forall (fun l => snd (ParseDiffHunkHeader l) = false) pre ->
    snd (ParseDiffHunkHeader l) = true ->
    exists scan',
      scanHunkHeader ParseDiffHunkHeader scan =
      (fst (ParseDiffHunkHeader l), None, scan') /\
      pending scan' = post /\ ending scan' = ending scan.
Proof.
  funelim (scanHunkHeader ParseDiffHunkHeader scan);
    intros pre l post Hp0 Hpre Hl.
  all: try match goal with E : Scan _ = (true, _) |- _ =>
             pose proof (Scan_true _ _ E) as (Hp & He & _) end.
  all: try match goal with E : Scan _ = (false, _) |- _ =>
             pose proof (Scan_false _ _ E) as (Hnil & _) end.
  - rewrite Hp0 in Hp.
    destruct pre as [|x pre]; simpl in Hp.
    + injection Hp as -> ->. exists scan'. by rewrite Heq.
    + injection Hp as -> Hrest.
      apply Forall_cons_1 in Hpre as [Hhead _]. by rewrite Heq in Hhead.
  - rewrite Hp0 in Hp.
    destruct pre as [|x pre]; simpl in Hp.
    + injection Hp as -> ->. by rewrite Heq in Hl.
    + injection Hp as -> Hrest.
      apply Forall_cons_1 in Hpre as [_ Htail].
      match goal with IH : forall pre l post, _ -> _ -> _ -> _ |- _ =>
        destruct (IH pre l post (eq_sym Hrest) Htail Hl)
          as (scan2 & ? & ? & ?) end.
      exists scan2. repeat split; congruence.
  - rewrite Hp0 in Hnil. by destruct pre.
  - rewrite Hp0 in Hnil. by destruct pre.
Qed.

(** X11. The header lines are the first that match: the lines up to the
    first line recognized as a file header are passed over, then the lines
    up to the first line recognized as a hunk header, whatever they are
    (the file header line itself is not looked at again); the hunk header
    is that line's, and the scan loop starts at the line after it. *)
Theorem headers_are_the_first_matches r pre fileLine mid hunkLine post :
  rd_lines r = pre ++ fileLine :: mid ++ hunkLine :: post ->
  Forall (fun l => snd (ParseDiffFileHeader l) = false) pre ->
  snd (ParseDiffFileHeader fileLine) = true ->
  Forall (fun l => snd (ParseDiffHunkHeader l) = false) mid ->
  snd (ParseDiffHunkHeader hunkLine) = true ->
  exists scanner,
    scanHeaders r = inr (fst (ParseDiffHunkHeader hunkLine), scanner) /\
    pending scanner = post /\
    ending scanner = rd_end r.
Proof.
  intros Hlines Hpre Hfile Hmid Hhunk. unfold scanHeaders.
  destruct (scanFileHeader_found zeroFileHeader ParseDiffFileHeader
              (NewScanner r) pre fileLine (mid ++ hunkLine :: post))
    as (scan1 & -> & Hp1 & He1); [done..|].
  destruct (scanHunkHeader_found scan1 mid hunkLine post)
    as (scan2 & -> & Hp2 & He2); [done..|].
  exists scan2. split; [done|]. split; [done|]. by rewrite He2, He1.
Qed.

End Headers.

(** ** What comes before the hunk header *)

(** The scanner has recorded the end of the reader only if fewer lines
    than [ahead] are left. *)
Lemma Scan_cons scan l rest :
  pending scan = l :: rest ->
  (hit scan = true -> (length (pending scan) < ahead scan)%nat) ->
  Scan scan =
  (true, mkScanner l rest (ending scan) (ahead scan)
                   (length rest <? ahead scan)%nat).
Proof.
  intros Hp Hhit. unfold Scan. rewrite Hp. do 2 f_equal.
  destruct (hit scan); [|done]. simpl.
  rewrite Hp in Hhit. simpl in Hhit. symmetry. apply Nat.ltb_lt.
  specialize (Hhit eq_refl). lia.
Qed.

Section BeforeTheHunk.

Context {DiffFileHeader : Type} (zeroFileHeader : DiffFileHeader).
Context (ParseDiffFileHeader : string -> DiffFileHeader * bool).
Context (ParseDiffHunkHeader : string -> HunkHeader * bool).

Local Abbreviation scanHeaders :=
  (scanHeaders zeroFileHeader ParseDiffFileHeader ParseDiffHunkHeader).
Local Abbreviation DiffCut :=
  (DiffCut zeroFileHeader ParseDiffFileHeader ParseDiffHunkHeader).

Lemma scanFileHeader_lands scan :
  forall pre l post,
    pending scan = pre ++ l :: post ->
    Forall (fun l => snd (ParseDiffFileHeader l) = false) pre ->
    snd (ParseDiffFileHeader l) = true ->
    (hit scan = true -> (length (pending scan) < ahead scan)%nat) ->
    scanFileHeader zeroFileHeader ParseDiffFileHeader scan =
    (fst (ParseDiffFileHeader l), None,
     mkScanner l post (ending scan) (ahead scan)
               (length post <? ahead scan)%nat).
Proof.
  funelim (scanFileHeader zeroFileHeader ParseDiffFileHeader scan);
    intros pre l post Hp0 Hpre Hl Hhit.
  all: destruct pre as [|x pre]; simpl in Hp0.
  all: match goal with E : Scan _ = _ |- _ =>
         pose proof (Scan_cons _ _ _ Hp0 Hhit) as Hs; rewrite E in Hs end.
  all: try discriminate Hs.
  all: injection Hs as ->; simpl in *.
  - by rewrite Heq.
  - apply Forall_cons_1 in Hpre as [Hhead _]. by rewrite Heq in Hhead.
  - by rewrite Heq in Hl.
  - apply Forall_cons_1 in Hpre as [_ Htail].
    match goal with IH : forall pre l post, _ -> _ -> _ -> _ -> _ |- _ =>
      rewrite (IH pre l post eq_refl Htail Hl) end; [done|].
    simpl. by intros ?%Nat.ltb_lt.
Qed.

Lemma scanHunkHeader_lands scan :
  forall pre l post,
    pending scan = pre ++ l :: post ->
    Forall (fun l => snd (ParseDiffHunkHeader l) = false) pre ->
    snd (ParseDiffHunkHeader l) = true ->
    (hit scan = true -> (length (pending scan) < ahead scan)%nat) ->
    scanHunkHeader ParseDiffHunkHeader scan =
    (fst (ParseDiffHunkHeader l), None,
     mkScanner l post (ending scan) (ahead scan)
               (length post <? ahead scan)%nat).
Proof.
  funelim (scanHunkHeader ParseDiffHunkHeader scan);
    intros pre l post Hp0 Hpre Hl Hhit.
  all: destruct pre as [|x pre]; simpl in Hp0.
  all: match goal with E : Scan _ = _ |- _ =>
         pose proof (Scan_cons _ _ _ Hp0 Hhit) as Hs; rewrite E in Hs end.
  all: try discriminate Hs.
  all: injection Hs as ->; simpl in *.
  - by rewrite Heq.
  - apply Forall_cons_1 in Hpre as [Hhead _]. by rewrite Heq in Hhead.
  - by rewrite Heq in Hl.
  - apply Forall_cons_1 in Hpre as [_ Htail].
    match goal with IH : forall pre l post, _ -> _ -> _ -> _ -> _ |- _ =>
      rewrite (IH pre l post eq_refl Htail Hl) end; [done|].
    simpl. by intros ?%Nat.ltb_lt.
Qed.

Lemma scanHeaders_lands r pre fileLine mid hunkLine post :
  rd_lines r = pre ++ fileLine :: mid ++ hunkLine :: post ->
  Forall (fun l => snd (ParseDiffFileHeader l) = false) pre ->
  snd (ParseDiffFileHeader fileLine) = true ->
  Forall (fun l => snd (ParseDiffHunkHeader l) = false) mid ->
  snd (ParseDiffHunkHeader hunkLine) = true ->
  scanHeaders r =
  inr (fst (ParseDiffHunkHeader hunkLine),
       mkScanner hunkLine post (rd_end r) (rd_ahead r)
                 (length post <? rd_ahead r)%nat).
Proof.
  intros Hlines Hpre Hfile Hmid Hhunk. unfold scanHeaders.
  rewrite (scanFileHeader_lands (NewScanner r) pre fileLine
             (mid ++ hunkLine :: post)); [|done..].
  rewrite (scanHunkHeader_lands _ mid hunkLine post); [done..|].
  simpl. by intros ?%Nat.ltb_lt.
Qed.

(** X12. Of the lines up to the hunk header nothing but the hunk header
    line has a part in the result: two streams that end the same way and
    have the same hunk header line, found by the two scans for the
    headers, and the same lines after it, give the same result. *)
Theorem only_the_hunk_matters
    r r' params pre fileLine mid pre' fileLine' mid' hunkLine post :
  rd_lines r = pre ++ fileLine :: mid ++ hunkLine :: post ->
  Forall (fun l => snd (ParseDiffFileHeader l) = false) pre ->
  snd (ParseDiffFileHeader fileLine) = true ->
  Forall (fun l => snd (ParseDiffHunkHeader l) = false) mid ->
  rd_lines r' = pre' ++ fileLine' :: mid' ++ hunkLine :: post ->
  Forall (fun l => snd (ParseDiffFileHeader l) = false) pre' ->
  snd (ParseDiffFileHeader fileLine') = true ->
  Forall (fun l => snd (ParseDiffHunkHeader l) = false) mid' ->
  snd (ParseDiffHunkHeader hunkLine) = true ->
  rd_end r = rd_end r' ->
  rd_ahead r = rd_ahead r' ->
  DiffCut r params = DiffCut r' params.
Proof.
  intros Hlines Hpre Hfile Hmid Hlines' Hpre' Hfile' Hmid' Hhunk Hend Hahead.
  unfold DiffCut, diffCutScan, diffCutLoop.
  rewrite (scanHeaders_lands r pre fileLine mid hunkLine post) by done.
  rewrite (scanHeaders_lands r' pre' fileLine' mid' hunkLine post) by done.
  by rewrite Hend, Hahead.
Qed.

End BeforeTheHunk.

(** ** A line within the range is found *)

Lemma Err_regular scan : ending scan = io_EOF -> Err scan = None.
Proof. unfold Err. intros ->. by destruct (hit scan). Qed.

Section FindTheLine.

Variable params : DiffCutParams.
Variable hunkHeader : HunkHeader.
Variables (ahead : list string) (l : string) (rest : list string).

Hypothesis Hfit : noOverflow hunkHeader (ahead ++ l :: rest).
Hypothesis Hhunk : Forall (fun x => isHunkLine x = true) (ahead ++ [l]).
Hypothesis Hbefore : aheadOfRange params hunkHeader ahead.
Hypothesis Hbelow : belowLineEnd params hunkHeader ahead.
Hypothesis Hstart : LineStart params <= startNumber params hunkHeader ahead.
Hypothesis Hend : endNumber params hunkHeader ahead <= LineEnd params.

Lemma headsFor_step scan st it :
  headsFor hunkHeader ahead l rest scan st ->
  iterates params scan st it ->
  match it with
  | Done e => foundAtBreak hunkHeader ahead l e
  | Next st' scan' => headsFor hunkHeader ahead l rest scan' st'
  end.
Proof using All.
  intros (Hreg & Hfull & Hout & Hin) Hit.
  pose proof (Scan_ending scan) as Hsame.
  assert (Hnoerr : Err (snd (Scan scan)) = None)
    by (apply Err_regular; congruence).
  assert (Hfull' : Forall (fun x => x <> EmptyString)
                          (pending (snd (Scan scan)))).
  { unfold Scan. destruct (pending scan) as [|x p]; simpl; [done|].
    by apply Forall_cons_1 in Hfull as [_ ?]. }
  destruct (inCut st) eqn:HinCut.
  - (* in the cut *)
    destruct (Hin eq_refl) as (Hol & Hnl & Hhd).
    inversion Hit as
      [Hpast | e Hpast Hp He | Hpast Hp He | rest0 Hpast Hp
      | c s rest0 Hpast Hp Hl
      | line rest0 buf Hpast Hp Hl Hb Hpush | line rest0 Hpast Hp Hl Hb Hlim
      | line rest0 Hpast Hp Hl Hb Hlim ]; subst it; simpl; try done.
    + congruence.
    + rewrite Hp in Hfull. by apply Forall_cons_1 in Hfull as [? _].
    + split; [congruence|]. split; [done|]. simpl. rewrite HinCut.
      split; [done|]. intros _. done.
    + rewrite HinCut. simpl. do 3 (split; [done|]).
      destruct (diffCut st); [done|]. done.
    + split; [congruence|]. split; [done|]. split; [done|]. intros _.
      simpl. rewrite HinCut. simpl. do 2 (split; [done|]).
      destruct (diffCut st); [done|]. done.
  - (* before the cut *)
    destruct (Hout eq_refl)
      as (Hnil & consumed & togo & Hsplit & Hp0 & Ho & Hn).
    pose proof (pastLineEnd_endNumber params _ _ _ Ho Hn) as Hpast'.
    pose proof (beforeLineStart_startNumber params _ _ _ Ho Hn) as Hbefore'.
    assert (Hnotpast : pastLineEnd params st = false).
    { rewrite Hpast'. destruct togo as [|x togo].
      - rewrite app_nil_r in Hsplit. subst consumed. lia.
      - specialize (Hbelow consumed x togo Hsplit). lia. }
    assert (Hfirst : exists x p, pending scan = x :: p /\ isHunkLine x = true).
    { rewrite Hp0. destruct togo as [|x togo]; simpl.
      - exists l, rest. split; [done|].
        apply Forall_app in Hhunk as [_ Hl].
        by apply Forall_cons_1 in Hl as [? _].
      - exists x, (togo ++ l :: rest). split; [done|].
        rewrite Hsplit in Hhunk. rewrite <- !app_assoc in Hhunk.
        apply Forall_app in Hhunk as [_ Hx].
        by apply Forall_cons_1 in Hx as [? _]. }
    destruct Hfirst as (x & p & Hpx & Hx).
    destruct Hfit as (Holo & Hohi & Hnlo & Hnhi).
    assert (Hlen : (length consumed + length togo + 1 + length rest =
                    length (ahead ++ l :: rest))%nat).
    { rewrite Hsplit, <- app_assoc, !length_app. simpl. lia. }
    pose proof (countLines_le notAdded consumed) as Hco.
    pose proof (countLines_le notRemoved consumed) as Hcn.
    unfold len in Hohi, Hnhi.
    inversion Hit as
      [Hpast | e Hpast Hp He | Hpast Hp He | rest0 Hpast Hp
      | c s rest0 Hpast Hp Hl
      | line rest0 buf Hpast Hp Hl Hb Hpush | line rest0 Hpast Hp Hl Hb Hlim
      | line rest0 Hpast Hp Hl Hb Hlim ]; subst it; simpl;
      try congruence.
    + (* an empty line *)
      rewrite Hp in Hpx. by injection Hpx as <- _.
    + (* to the buffer *)
      destruct (Scan_pending _ _ _ Hp) as (_ & _ & Hrest & _).
      rewrite Hbefore' in Hb.
      destruct togo as [|y togo].
      { rewrite app_nil_r in Hsplit. subst consumed. lia. }
      rewrite Hp0 in Hp. simpl in Hp. injection Hp as -> <-.
      split; [congruence|]. split; [done|]. simpl. rewrite HinCut.
      split; [|done]. intros _. split; [done|].
      exists (consumed ++ [line]), togo.
      split; [by rewrite <- app_assoc|]. split; [done|].
      rewrite (notAdded_actionOf _ Hl), (notRemoved_actionOf _ Hl).
      rewrite !countLines_app, Ho, Hn. simpl in *.
      unfold incr. rewrite !wrap_small by lia.
      split; [destruct (notAdded line); lia|].
      destruct (notRemoved line); lia.
    + (* to the cut, at the safety break *)
      rewrite Hbefore' in Hb.
      destruct togo as [|y togo].
      2: { specialize (Hbefore consumed y togo Hsplit). lia. }
      rewrite app_nil_r in Hsplit. subst consumed.
      rewrite Hp0 in Hp. simpl in Hp. injection Hp as -> <-.
      unfold cutHeaderStep. rewrite HinCut, Hnil. simpl. done.
    + (* to the cut *)
      rewrite Hbefore' in Hb.
      destruct togo as [|y togo].
      2: { specialize (Hbefore consumed y togo Hsplit). lia. }
      rewrite app_nil_r in Hsplit. subst consumed.
      rewrite Hp0 in Hp. simpl in Hp. injection Hp as -> <-.
      split; [congruence|]. split; [done|]. split; [done|]. intros _.
      simpl. unfold cutHeaderStep. rewrite HinCut, Hnil. simpl. done.
Qed.

Lemma cutLoop_finds scan st e :
  headsFor hunkHeader ahead l rest scan st ->
  cutLoop params scan st = Ok e ->
  foundAtBreak hunkHeader ahead l e.
Proof using All.
  apply (cutLoop_rule params (headsFor hunkHeader ahead l rest)
                      (foundAtBreak hunkHeader ahead l)).
  intros scan' st' it. apply headsFor_step.
Qed.

End FindTheLine.

Lemma collectContext_regular params at_ err st scanner e :
  inCut st = true ->
  ending scanner = io_EOF ->
  collectContext params at_ err st scanner <> Ok (inl e).
Proof.
  intros HinCut Hreg. unfold collectContext. rewrite HinCut. simpl.
  destruct (lines _); simpl; [|done].
  destruct (errors_Is err io_EOF); simpl; [done|].
  pose proof (afterLoop_ending (Z.to_nat (AfterLines params)) scanner [])
    as He.
  destruct (afterLoop _ _ _) as [after scanner']. simpl in He.
  rewrite Err_regular by congruence. done.
Qed.

Section FoundLine.

Context {DiffFileHeader : Type} (zeroFileHeader : DiffFileHeader).
Context (ParseDiffFileHeader : string -> DiffFileHeader * bool).
Context (ParseDiffHunkHeader : string -> HunkHeader * bool).

Local Abbreviation scanHeaders :=
  (scanHeaders zeroFileHeader ParseDiffFileHeader ParseDiffHunkHeader).
Local Abbreviation diffCutLoop :=
  (diffCutLoop zeroFileHeader ParseDiffFileHeader ParseDiffHunkHeader).
Local Abbreviation diffCutScan :=
  (diffCutScan zeroFileHeader ParseDiffFileHeader ParseDiffHunkHeader).
Local Abbreviation DiffCut :=
  (DiffCut zeroFileHeader ParseDiffFileHeader ParseDiffHunkHeader).

(** X13. A line within the range is found.  Let the reader end regularly
    and the lines after the hunk header be [ahead ++ l :: rest], without
    overflow of the line numbers, the lines of [ahead] and [l] being lines
    of a hunk, no line of [rest] being empty, all lines of the stream
    fitting the scanner's buffer, BeforeLines a capacity [make] gives.
    If every line of [ahead] has a number below LineStart and not above
    LineEnd, and [l] has a number that is at least LineStart and at most
    LineEnd, then DiffCut returns a hunk, without error; its cut starts
    with [l], and the header of the cut starts at the line numbers of
    [l]. *)
Theorem a_line_within_the_range_is_found
    r params hunkHeader scanner ahead l rest :
  scanHeaders r = inr (hunkHeader, scanner) ->
  pending scanner = ahead ++ l :: rest ->
  rd_end r = io_EOF ->
  Forall (fun x => isHunkLine x = true) (ahead ++ [l]) ->
  Forall (fun x => x <> EmptyString) rest ->
  noOverflow hunkHeader (ahead ++ l :: rest) ->
  aheadOfRange params hunkHeader ahead ->
  belowLineEnd params hunkHeader ahead ->
  LineStart params <= startNumber params hunkHeader ahead ->
  endNumber params hunkHeader ahead <= LineEnd params ->
  Forall fitsBuffer (rd_lines r) ->
  makeGives (BeforeLines params) ->
  exists h hunk pt,
    DiffCut r params = Ok (h, hunk, None) /\
    diffCutScan r params = Ok (inr pt) /\
    hd_error (cutLines pt) = Some l /\
    OldLine h = OldLine hunkHeader + Z.of_nat (countLines notAdded ahead) /\
    NewLine h = NewLine hunkHeader + Z.of_nat (countLines notRemoved ahead).
Proof.
  intros Hhead Hp Hreg Hhunk Hrest Hfit Hbefore Hbelow Hstart Hend _
         [Hk Hcap].
  pose proof (scanHeaders_ending zeroFileHeader ParseDiffFileHeader
                ParseDiffHunkHeader r) as Hh.
  rewrite Hhead in Hh. destruct Hh as (Hending & _).
  rewrite Hreg in Hending.
  assert (Hroom : Z.min (len (pending scanner)) (BeforeLines params)
                  < 2 ^ 62) by lia.
  set (st0 := cutStart hunkHeader (mkBuf (-1) [] (BeforeLines params))).
  destruct (cutLoop_fits params _ Hroom _ scanner st0 eq_refl
              (pushesFit_start _ _ _ Hk)) as (e & Hrun & Hfitb).
  assert (Hheads : headsFor hunkHeader ahead l rest scanner st0).
  { split; [done|]. split.
    - rewrite Hp. apply Forall_app in Hhunk as [Ha Hl].
      apply Forall_app. split.
      + eapply Forall_impl; [exact Ha|]. intros x. apply isHunkLine_nonempty.
      + apply Forall_cons_1 in Hl as [Hl _].
        constructor; [by apply isHunkLine_nonempty | done].
    - split; [|done]. intros _. split; [done|].
      exists [], ahead. simpl. do 2 (split; [done|]). lia. }
  pose proof (cutLoop_finds params hunkHeader ahead l rest Hfit Hhunk
                Hbefore Hbelow Hstart Hend _ _ _ Hheads Hrun) as Hfound.
  pose proof (cutLoop_ending _ _ _ _ Hrun) as He.
  destruct e as [err|at_ err st scanner']; [done|].
  destruct Hfound as (HinCut & Hol & Hnl & Hhd).
  destruct (collectContext_fits _ _ _ _ _ _ Hroom Hfitb)
    as (res & Hctx & Hres).
  destruct res as [e|pt].
  { exfalso. revert Hctx. apply collectContext_regular; congruence. }
  destruct (Hres pt eq_refl) as (hl & Hhl).
  assert (Hscan : diffCutScan r params = Ok (inr pt)).
  { unfold diffCutScan, diffCutLoop. rewrite Hhead.
    rewrite (bufHolds_new _ Hk). simpl. fold st0. by rewrite Hrun. }
  apply collectContext_ok in Hctx as (_ & _ & Hh1 & Hc1 & _).
  eexists _, _, pt. split.
  - unfold DiffCut. rewrite Hscan. simpl. by rewrite Hhl.
  - split; [done|]. by rewrite Hh1, Hc1.
Qed.

End FoundLine.

(** ** A read failure inside the range *)

Lemma Scan_end_failure scan :
  pending scan = [] -> ending scan <> io_EOF ->
  Err (snd (Scan scan)) = Some (ending scan).
Proof.
  intros Hp He. unfold Scan. rewrite Hp. unfold Err; simpl.
  by destruct (ending scan).
Qed.

Section ReadFailure.

Variable params : DiffCutParams.
Variable hunkHeader : HunkHeader.
Variable body : list string.
Variable e : error.

Hypothesis Hfit : noOverflow hunkHeader body.
Hypothesis Hhunk : Forall (fun x => isHunkLine x = true) body.
Hypothesis Hbelow : belowLineEnd params hunkHeader body.
Hypothesis Hend : endNumber params hunkHeader body <= LineEnd params.
Hypothesis Hlimit : len body <= LineLimit params.
Hypothesis Hfail : e <> io_EOF.

Lemma readsOn_step scan st it :
  readsOn hunkHeader body e scan st ->
  iterates params scan st it ->
  match it with
  | Done e' => e' = LoopReturn e
  | Next st' scan' => readsOn hunkHeader body e scan' st'
  end.
Proof using All.
  intros (Hending & consumed & Hbody & Ho & Hn & Hcut) Hit.
  pose proof (Scan_ending scan) as Hsame.
  pose proof (pastLineEnd_endNumber params _ _ _ Ho Hn) as Hpast'.
  assert (Hnotpast : pastLineEnd params st = false).
  { rewrite Hpast'. destruct (pending scan) as [|x p] eqn:Hp.
    - rewrite app_nil_r in Hbody. subst consumed. lia.
    - specialize (Hbelow consumed x p Hbody). lia. }
  assert (Hfirst : forall x p, pending scan = x :: p -> isHunkLine x = true).
  { intros x p Hp. rewrite Hbody, Hp in Hhunk.
    apply Forall_app in Hhunk as [_ Hx].
    by apply Forall_cons_1 in Hx as [? _]. }
  destruct Hfit as (Holo & Hohi & Hnlo & Hnhi).
  assert (Hlen : len body = len consumed + len (pending scan))
    by (by rewrite Hbody, len_app).
  pose proof (countLines_le notAdded consumed) as Hco.
  pose proof (countLines_le notRemoved consumed) as Hcn.
  unfold len in *.
  inversion Hit as
    [Hpast | e0 Hpast Hp He | Hpast Hp He | rest0 Hpast Hp
    | c s rest0 Hpast Hp Hl
    | line rest0 buf Hpast Hp Hl Hb Hpush | line rest0 Hpast Hp Hl Hb Hlim
    | line rest0 Hpast Hp Hl Hb Hlim ]; subst it; simpl; try congruence.
  - (* the read failure *)
    rewrite Scan_end_failure in He by congruence. congruence.
  - (* the end of the stream *)
    rewrite Scan_end_failure in He by congruence. done.
  - (* an empty line *)
    by specialize (Hfirst _ _ Hp).
  - (* a line that is no line of a hunk *)
    specialize (Hfirst _ _ Hp). congruence.
  - (* to the buffer *)
    destruct (Scan_pending _ _ _ Hp) as (_ & _ & Hrest & _).
    split; [congruence|]. exists (consumed ++ [line]).
    rewrite Hrest, Hp in *. simpl in *.
    rewrite (notAdded_actionOf _ Hl), (notRemoved_actionOf _ Hl).
    unfold len. rewrite !countLines_app, Ho, Hn, length_app. simpl.
    unfold incr. rewrite !wrap_small by lia.
    split; [by rewrite <- app_assoc|].
    split; [destruct (notAdded line); lia|].
    split; [destruct (notRemoved line); lia | lia].
  - (* to the cut, at the safety break *)
    exfalso. rewrite Hp in Hlen. unfold len in Hlim.
    rewrite length_app in Hlim. simpl in *. lia.
  - (* to the cut *)
    destruct (Scan_pending _ _ _ Hp) as (_ & _ & Hrest & _).
    split; [congruence|]. exists (consumed ++ [line]).
    rewrite Hrest, Hp in *. simpl in *.
    rewrite (notAdded_actionOf _ Hl), (notRemoved_actionOf _ Hl).
    unfold len. rewrite !countLines_app, Ho, Hn, !length_app. simpl.
    unfold incr. rewrite !wrap_small by lia.
    split; [by rewrite <- app_assoc|].
    split; [destruct (notAdded line); lia|].
    split; [destruct (notRemoved line); lia | lia].
Qed.

Lemma cutLoop_readsOn scan st e' :
  readsOn hunkHeader body e scan st ->
  cutLoop params scan st = Ok e' ->
  e' = LoopReturn e.
Proof using All.
  apply (cutLoop_rule params (readsOn hunkHeader body e)
                      (fun e' => e' = LoopReturn e)).
  intros scan' st' it. apply readsOn_step.
Qed.

End ReadFailure.

Section FailureInTheRange.

Context {DiffFileHeader : Type} (zeroFileHeader : DiffFileHeader).
Context (ParseDiffFileHeader : string -> DiffFileHeader * bool).
Context (ParseDiffHunkHeader : string -> HunkHeader * bool).

Local Abbreviation scanHeaders :=
  (scanHeaders zeroFileHeader ParseDiffFileHeader ParseDiffHunkHeader).
Local Abbreviation diffCutLoop :=
  (diffCutLoop zeroFileHeader ParseDiffFileHeader ParseDiffHunkHeader).
Local Abbreviation diffCutScan :=
  (diffCutScan zeroFileHeader ParseDiffFileHeader ParseDiffHunkHeader).
Local Abbreviation DiffCut :=
  (DiffCut zeroFileHeader ParseDiffFileHeader ParseDiffHunkHeader).

(** X14. A read failure inside the range is returned, and what was cut so
    far is dropped.  Let the reader end by an error that is not [io.EOF],
    the lines after the hunk header all be lines of a hunk, none of them
    past LineEnd, nor the line that would follow them, and no more than
    LineLimit, without overflow of the line numbers, all lines of the
    stream fitting the scanner's buffer, BeforeLines a capacity [make]
    gives.  Then the scan loop reads to the end of the
    stream, and DiffCut returns the reader's error with the zero values,
    whether lines were in the cut or not. *)
Theorem read_failure_inside_the_range r params hunkHeader scanner :
  scanHeaders r = inr (hunkHeader, scanner) ->
  rd_end r <> io_EOF ->
  Forall (fun x => isHunkLine x = true) (pending scanner) ->
  noOverflow hunkHeader (pending scanner) ->
  belowLineEnd params hunkHeader (pending scanner) ->
  endNumber params hunkHeader (pending scanner) <= LineEnd params ->
  len (pending scanner) <= LineLimit params ->
  Forall fitsBuffer (rd_lines r) ->
  makeGives (BeforeLines params) ->
  DiffCut r params = Ok (zeroHunkHeader, zeroHunk, Some (rd_end r)).
Proof.
  intros Hhead Hfail Hhunk Hfit Hbelow Hend Hlimit _ [Hk Hcap].
  pose proof (scanHeaders_ending zeroFileHeader ParseDiffFileHeader
                ParseDiffHunkHeader r) as Hh.
  rewrite Hhead in Hh. destruct Hh as (Hending & _).
  assert (Hroom : Z.min (len (pending scanner)) (BeforeLines params)
                  < 2 ^ 62) by lia.
  set (st0 := cutStart hunkHeader (mkBuf (-1) [] (BeforeLines params))).
  destruct (cutLoop_fits params _ Hroom _ scanner st0 eq_refl
              (pushesFit_start _ _ _ Hk)) as (e & Hrun & _).
  assert (Hreads : readsOn hunkHeader (pending scanner) (rd_end r)
                           scanner st0).
  { split; [done|]. exists []. simpl. split; [done|].
    split; [lia|]. split; [lia | done]. }
  pose proof (cutLoop_readsOn params hunkHeader (pending scanner) (rd_end r)
                Hfit Hhunk Hbelow Hend Hlimit Hfail _ _ _ Hreads Hrun)
    as ->.
  unfold DiffCut, diffCutScan, diffCutLoop. rewrite Hhead.
  rewrite (bufHolds_new _ Hk). simpl. fold st0. by rewrite Hrun.
Qed.

End FailureInTheRange.

(** ** What is taken from the header lines *)

Lemma scanFileHeader_step {T} (zero : T) (P : string -> T * bool) scan :
  scanFileHeader zero P scan =
  match Scan scan with
  | (true, scan') =>
      match P (Text scan') with
      | (h, true) => (h, None, scan')
      | (_, false) => scanFileHeader zero P scan'
      end
  | (false, scan') =>
      match Err scan' with
      | Some err => (zero, Some err, scan')
      | None => (zero, Some ErrHunkNotFound, scan')
      end
  end.
Proof.
  funelim (scanFileHeader zero P scan);
    match goal with E : Scan _ = _ |- _ => rewrite E end;
    by rewrite Heq.
Qed.

Lemma scanHunkHeader_step (P : string -> HunkHeader * bool) scan :
  scanHunkHeader P scan =
  match Scan scan with
  | (true, scan') =>
      match P (Text scan') with
      | (h, true) => (h, None, scan')
      | (_, false) => scanHunkHeader P scan'
      end
  | (false, scan') =>
      match Err scan' with
      | Some err => (zeroHunkHeader, Some err, scan')
      | None => (zeroHunkHeader, Some ErrHunkNotFound, scan')
      end
  end.
Proof.
  funelim (scanHunkHeader P scan);
    match goal with E : Scan _ = _ |- _ => rewrite E end;
    by rewrite Heq.
Qed.

Section TwoRecognizers.

Context {T1 T2 : Type} (zero1 : T1) (zero2 : T2).
Context (File1 : string -> T1 * bool) (File2 : string -> T2 * bool).
Context (Hunk1 Hunk2 : string -> HunkHeader * bool).

Hypothesis Hfile : forall l, snd (File1 l) = snd (File2 l).
Hypothesis Hhunk :
  forall l,
    snd (Hunk1 l) = snd (Hunk2 l) /\
    (snd (Hunk1 l) = true ->
     OldLine (fst (Hunk1 l)) = OldLine (fst (Hunk2 l)) /\
     NewLine (fst (Hunk1 l)) = NewLine (fst (Hunk2 l))).

Lemma scanFileHeader_same :
  forall n scan,
    length (pending scan) = n ->
    snd (fst (scanFileHeader zero1 File1 scan)) =
      snd (fst (scanFileHeader zero2 File2 scan)) /\
    snd (scanFileHeader zero1 File1 scan) =
      snd (scanFileHeader zero2 File2 scan).
Proof using Hfile.
  intros n. induction (lt_wf n) as [n _ IH]. intros scan Hn.
  rewrite (scanFileHeader_step zero1), (scanFileHeader_step zero2).
  destruct (Scan scan) as [ok scan'] eqn:HScan.
  destruct ok.
  - specialize (Hfile (Text scan')).
    destruct (File1 (Text scan')) as [h1 ok1],
             (File2 (Text scan')) as [h2 ok2].
    simpl in Hfile. subst ok2. destruct ok1; [done|].
    apply Scan_true in HScan as (Hp & _).
    apply (IH (length (pending scan'))); [|done].
    rewrite <- Hn, Hp. simpl. lia.
  - by destruct (Err scan').
Qed.

Lemma scanHunkHeader_same :
  forall n scan,
    length (pending scan) = n ->
    snd (fst (scanHunkHeader Hunk1 scan)) =
      snd (fst (scanHunkHeader Hunk2 scan)) /\
    snd (scanHunkHeader Hunk1 scan) = snd (scanHunkHeader Hunk2 scan) /\
    OldLine (fst (fst (scanHunkHeader Hunk1 scan))) =
      OldLine (fst (fst (scanHunkHeader Hunk2 scan))) /\
    NewLine (fst (fst (scanHunkHeader Hunk1 scan))) =
      NewLine (fst (fst (scanHunkHeader Hunk2 scan))).
Proof using Hhunk.
  intros n. induction (lt_wf n) as [n _ IH]. intros scan Hn.
  rewrite (scanHunkHeader_step Hunk1), (scanHunkHeader_step Hunk2).
  destruct (Scan scan) as [ok scan'] eqn:HScan.
  destruct ok.
  - destruct (Hhunk (Text scan')) as (Hok & Hlines).
    destruct (Hunk1 (Text scan')) as [h1 ok1],
             (Hunk2 (Text scan')) as [h2 ok2].
    simpl in Hok, Hlines. subst ok2. destruct ok1.
    + simpl. by destruct (Hlines eq_refl).
    + apply Scan_true in HScan as (Hp & _).
      apply (IH (length (pending scan'))); [|done].
      rewrite <- Hn, Hp. simpl. lia.
  - by destruct (Err scan').
Qed.

End TwoRecognizers.

(** X15. Of the header lines DiffCut takes the old and the new line number
    of the hunk header and nothing else: with two pairs of recognizers
    that recognize the same lines and give the same two line numbers for
    a hunk header line, the results are equal.  What the file header
    holds, and the spans the hunk header states, have no part in the
    result; the hunk's lines are read to the first line that is not a
    line of a hunk, however many the hunk header announces. *)
Theorem only_the_line_numbers_are_taken {T1 T2 : Type}
    (zero1 : T1) (zero2 : T2)
    (File1 : string -> T1 * bool) (File2 : string -> T2 * bool)
    (Hunk1 Hunk2 : string -> HunkHeader * bool) r params :
  (forall l, snd (File1 l) = snd (File2 l)) ->
  (forall l,
      snd (Hunk1 l) = snd (Hunk2 l) /\
      (snd (Hunk1 l) = true ->
       OldLine (fst (Hunk1 l)) = OldLine (fst (Hunk2 l)) /\
       NewLine (fst (Hunk1 l)) = NewLine (fst (Hunk2 l)))) ->
  DiffCut zero1 File1 Hunk1 r params = DiffCut zero2 File2 Hunk2 r params.
Proof.
  intros Hfile Hhunk.
  unfold DiffCut, diffCutScan, diffCutLoop, scanHeaders.
  destruct (scanFileHeader_same zero1 zero2 File1 File2 Hfile _
              (NewScanner r) eq_refl) as (He & Hs).
  destruct (scanFileHeader zero1 File1 (NewScanner r)) as [[fh1 e1] s1],
           (scanFileHeader zero2 File2 (NewScanner r)) as [[fh2 e2] s2].
  simpl in He, Hs. subst e2 s2. destruct e1 as [e|]; [done|].
  destruct (scanHunkHeader_same Hunk1 Hunk2 Hhunk _ s1 eq_refl)
    as (He & Hs & Hol & Hnl).
  destruct (scanHunkHeader Hunk1 s1) as [[hh1 e1] s1'],
           (scanHunkHeader Hunk2 s1) as [[hh2 e2] s2'].
  simpl in He, Hs, Hol, Hnl. subst e2 s2'. destruct e1 as [e|]; [done|].
  unfold cutStart. by rewrite Hol, Hnl.
Qed.

(** ** The lines after the cut are not classified *)

Section AfterTheCut.

Context {DiffFileHeader : Type} (zeroFileHeader : DiffFileHeader).
Context (ParseDiffFileHeader : string -> DiffFileHeader * bool).
Context (ParseDiffHunkHeader : string -> HunkHeader * bool).

Local Abbreviation diffCutLoop :=
  (diffCutLoop zeroFileHeader ParseDiffFileHeader ParseDiffHunkHeader).
Local Abbreviation diffCutScan :=
  (diffCutScan zeroFileHeader ParseDiffFileHeader ParseDiffHunkHeader).
Local Abbreviation DiffCut :=
  (DiffCut zeroFileHeader ParseDiffFileHeader ParseDiffHunkHeader).

(** X16. The loop that collects the lines after the cut does not look at
    the first byte of a line.  When the scan loop is left at the end of
    the range or at the safety break and a line after the cut is asked
    for, the next line of the stream, if it is not empty, is the first
    line after the cut, whatever it is; a line that is no line of a hunk
    (a marker line, the header of a next hunk) is returned with the others
    and counted in the old and in the new span of the returned header. *)
Theorem lines_after_the_cut_are_not_classified
    r params h hunk at_ err st scanner l rest :
  DiffCut r params = Ok (h, hunk, None) ->
  diffCutLoop r params = Ok (inr (LoopBreak at_ err st scanner)) ->
  at_ <> AtTerminator ->
  0 < AfterLines params ->
  pending scanner = l :: rest ->
  l <> EmptyString ->
  exists pt,
    diffCutScan r params = Ok (inr pt) /\
    Lines hunk = cutBefore pt ++ cutLines pt ++ cutAfter pt /\
    hd_error (cutAfter pt) = Some l /\
    (isHunkLine l = false -> notAdded l = true /\ notRemoved l = true).
Proof.
  intros (pt & hl & Hscan & _ & _ & ->)%DiffCut_ok Hloop Hat Hafter Hp Hl.
  exists pt. split; [done|]. split; [done|].
  pose proof Hscan as Hparts.
  apply diffCutScan_ok in Hparts
    as (at_' & err' & st' & scanner' & Hloop' & Hctx).
  rewrite Hloop in Hloop'. injection Hloop' as <- <- <- <-.
  apply diffCutLoop_ok in Hloop as (hh & scan0 & buf & _ & _ & Hrun).
  apply cutLoop_errAtBreak in Hrun. simpl in Hrun.
  assert (Herr : err = None) by (by destruct at_).
  apply collectContext_ok in Hctx as (_ & _ & _ & _ & _ & Hlines).
  destruct Hlines as [[Hnot _]|(_ & -> & _)]; [by rewrite Herr in Hnot|].
  rewrite afterLoop_takeAfter, Hp. simpl.
  destruct (Z.to_nat (AfterLines params)) as [|n] eqn:Hn; [lia|].
  destruct l as [|c l]; [done|]. simpl. split; [done|].
  intros Hno. unfold isHunkLine, notAdded, notRemoved, action_neq in *.
  unfold action_eqb in Hno.
  apply orb_false_iff in Hno as [Hno _].
  apply orb_false_iff in Hno as [Hr Ha]. by rewrite Hr, Ha.
Qed.

End AfterTheCut.

(** ** What [scanHunkLine] returns *)

(** X17. [scanHunkLine] returns a line only together with its first byte
    as the action, one of [' '], ['-'] and ['+'], and without error; with
    an error it returns no line; and a line it returns is the line it has
    taken from the stream, the one line it takes at most. *)
Theorem scanHunkLine_returns scan line action err scan' :
  scanHunkLine scan = (line, action, err, scan') ->
  (line <> EmptyString ->
   err = None /\ isHunkLine line = true /\ firstAction line = Ok action /\
   pending scan = line :: pending scan') /\
  (line = EmptyString -> action = actionUnchanged) /\
  (err <> None -> line = EmptyString) /\
  (pending scan' = pending scan \/
   exists l, pending scan = l :: pending scan').
Proof.
  destruct (pending scan) as [|l rest] eqn:Hp.
  - unfold scanHunkLine, Scan. rewrite Hp. simpl.
    intros [= <- <- <- <-]. simpl. repeat split; try done. by left.
  - rewrite (scanHunkLine_at _ _ _ Hp).
    destruct (Scan_pending _ _ _ Hp) as (_ & _ & Hrest & _).
    destruct l as [|c l].
    + intros [= <- <- <- <-]. rewrite Hrest.
      repeat split; try done. right. by eexists.
    + destruct (isHunkLine (String c l)) eqn:Hl.
      * intros [= <- <- <- <-]. rewrite Hrest.
        repeat split; try done. right. by eexists.
      * intros [= <- <- <- <-]. rewrite Hrest.
        repeat split; try done. right. by eexists.
Qed.


(** ** [concat] for any number of slices *)

Lemma totalLen_concat {T} (a : list (list T)) :
  totalLen a = length (List.concat a).
Proof.
  induction a as [|m a IH]; simpl; [done|]. by rewrite length_app, IH.
Qed.

(** X18. [concat] returns the slices joined in their order, for any number
    of slices, in a slice that is as long as the slices together; the zero
    value [make] fills the result with is overwritten everywhere. *)
Theorem concat_is_the_join {T} (zero : T) (a : list (list T)) :
  concat zero a = List.concat a /\
  length (concat zero a) = totalLen a /\
  forall zero', concat zero' a = concat zero a.
Proof.
  split; [apply concat_joins|].
  split; [by rewrite concat_joins, totalLen_concat|].
  intros zero'. by rewrite !concat_joins.
Qed.

(** * Properties of the inputs' checks *)

(** X19. [Validate] accepts an input in two cases only: neither commit SHA
    is given (the input is no code comment, and nothing else is looked
    at), or both are given, the input is no reply, it has a path, and both
    line numbers are positive. *)
Theorem Validate_accepts in_ :
  pullreq.Validate in_ = None <->
  pullreq.SourceCommitSHA in_ = EmptyString /\
    pullreq.TargetCommitSHA in_ = EmptyString \/
  pullreq.SourceCommitSHA in_ <> EmptyString /\
    pullreq.TargetCommitSHA in_ <> EmptyString /\
    pullreq.ParentID in_ = 0 /\
    pullreq.Path in_ <> EmptyString /\
    0 < pullreq.LineStart in_ /\ 0 < pullreq.LineEnd in_.
Proof.
  unfold pullreq.Validate.
  destruct (String.eqb_spec (pullreq.SourceCommitSHA in_) EmptyString)
    as [Hs|Hs];
    destruct (String.eqb_spec (pullreq.TargetCommitSHA in_) EmptyString)
      as [Ht|Ht]; simpl.
  - split; [by left | done].
  - split; [done|]. by intros [[_ ?]|(? & _)].
  - split; [done|]. by intros [[? _]|(_ & ? & _)].
  - destruct (Z.eqb_spec (pullreq.ParentID in_) 0) as [Hp|Hp]; simpl.
    2: { split; [done|]. by intros [[? _]|(_ & _ & ? & _)]. }
    destruct (String.eqb_spec (pullreq.Path in_) EmptyString)
      as [Hpath|Hpath].
    { split; [done|]. by intros [[? _]|(_ & _ & _ & ? & _)]. }
    destruct (Z.leb_spec (pullreq.LineStart in_) 0) as [H1|H1]; simpl.
    { split; [done|]. intros [[? _]|(_ & _ & _ & _ & ? & _)]; [done|lia]. }
    destruct (Z.leb_spec (pullreq.LineEnd in_) 0) as [H2|H2]; simpl.
    { split; [done|]. intros [[? _]|(_ & _ & _ & _ & _ & ?)]; [done|lia]. }
    split; [|done]. intros _. by right.
Qed.

(** X20. For an input that [Validate] has accepted, the cases of the switch
    of [CommentCreate] go by the kind of the comment: the case of a reply
    is taken exactly for the inputs with a ParentID, which are no code
    comments; and the case of a code comment is taken exactly when the
    target commit SHA is given (IsCodeComment looks at the source commit
    SHA only), with a path and with line numbers that are at least 1, the
    range that is handed over to DiffCut. *)
Theorem validated_input_takes_its_case in_ :
  pullreq.Validate in_ = None ->
  (pullreq.caseOf in_ = pullreq.ReplyCase <-> pullreq.IsReply in_ = true) /\
  (pullreq.caseOf in_ = pullreq.CodeCommentCase <->
   pullreq.TargetCommitSHA in_ <> EmptyString) /\
  (pullreq.caseOf in_ = pullreq.CodeCommentCase ->
   pullreq.IsReply in_ = false /\
   pullreq.Path in_ <> EmptyString /\
   1 <= pullreq.LineStart in_ /\ 1 <= pullreq.LineEnd in_).
Proof.
  unfold pullreq.Validate, pullreq.caseOf, pullreq.IsCodeComment,
    pullreq.IsReply.
  destruct (String.eqb_spec (pullreq.SourceCommitSHA in_) EmptyString)
    as [Hs|Hs];
    destruct (String.eqb_spec (pullreq.TargetCommitSHA in_) EmptyString)
      as [Ht|Ht]; simpl; try done.
  - intros _. destruct (pullreq.ParentID in_ =? 0); simpl;
      repeat split; done.
  - destruct (Z.eqb_spec (pullreq.ParentID in_) 0) as [Hp|Hp]; simpl;
      [|done].
    destruct (String.eqb_spec (pullreq.Path in_) EmptyString)
      as [Hpath|Hpath]; [done|].
    destruct (Z.leb_spec (pullreq.LineStart in_) 0) as [H1|H1]; [done|].
    destruct (Z.leb_spec (pullreq.LineEnd in_) 0) as [H2|H2]; [done|].
    intros _. repeat split; try done; lia.
Qed.

(** X21. [sanitizeExportInput] accepts an input exactly when the account
    id, the organization identifier, the project identifier and the token
    are all given; RepoRef is not looked at. *)
Theorem sanitizeExportInput_accepts in_ :
  space.sanitizeExportInput in_ = None <->
  space.AccountId in_ <> EmptyString /\
  space.OrgIdentifier in_ <> EmptyString /\
  space.ProjectIdentifier in_ <> EmptyString /\
  space.Token in_ <> EmptyString.
Proof.
  unfold space.sanitizeExportInput.
  destruct (String.eqb_spec (space.AccountId in_) EmptyString) as [Ha|Ha];
    [split; [done | by intros (? & _)]|].
  destruct (String.eqb_spec (space.OrgIdentifier in_) EmptyString)
    as [Ho|Ho]; [split; [done | by intros (_ & ? & _)]|].
  destruct (String.eqb_spec (space.ProjectIdentifier in_) EmptyString)
    as [Hp|Hp]; [split; [done | by intros (_ & _ & ? & _)]|].
  destruct (String.eqb_spec (space.Token in_) EmptyString) as [Ht|Ht];
    [split; [done | by intros (_ & _ & _ & ?)]|].
  by split.
Qed.

(** * The properties on the streams above *)

(** The scenario of the specification. *)
Example scenario_result :
  demoDiffCut scenarioReader scenarioParams =
  Ok (scenarioCutHeader, scenarioHunk, None).
Proof. vm_compute. reflexivity. Qed.

Lemma span_reconciliation_witness :
  demoDiffCut scenarioReader scenarioParams =
    Ok (scenarioCutHeader, scenarioHunk, None) /\
  len (Lines scenarioHunk) < 2 ^ 63 /\
  OldSpan (HunkHeader_of scenarioHunk) =
    Z.of_nat (countLines notAdded (Lines scenarioHunk)) /\
  NewSpan (HunkHeader_of scenarioHunk) =
    Z.of_nat (countLines notRemoved (Lines scenarioHunk)) /\
  Forall (fun l => l <> EmptyString) (Lines scenarioHunk).
Proof.
  split; [vm_compute; reflexivity|]. split; [reflexivity|].
  apply (span_reconciliation EmptyString demoParseDiffFileHeader
           demoParseDiffHunkHeader scenarioReader scenarioParams
           scenarioCutHeader scenarioHunk);
    [vm_compute; reflexivity | reflexivity].
Defined.

Lemma lines_are_before_cut_after_witness :
  demoDiffCut scenarioReader wrapParams =
    Ok (wrapCutHeader, wrapHunk, None) /\
  Z.min (len (rd_lines scenarioReader)) (BeforeLines wrapParams) < 2 ^ 62 /\
  exists pt hunkHeader scanner skipped rest,
    demoDiffCutScan scenarioReader wrapParams = Ok (inr pt) /\
    Lines wrapHunk = cutBefore pt ++ cutLines pt ++ cutAfter pt /\
    wrapCutHeader = cutHeader pt /\
    demoScanHeaders scenarioReader = inr (hunkHeader, scanner) /\
    pending scanner = skipped ++ rest /\
    cutLines pt <> [] /\
    hd_error rest = hd_error (cutLines pt) /\
    OldLine wrapCutHeader =
      incrN (countLines notAdded skipped) (OldLine hunkHeader) /\
    NewLine wrapCutHeader =
      incrN (countLines notRemoved skipped) (NewLine hunkHeader) /\
    OldSpan wrapCutHeader = incrN (countLines notAdded (cutLines pt)) 0 /\
    NewSpan wrapCutHeader = incrN (countLines notRemoved (cutLines pt)) 0 /\
    OldLine (HunkHeader_of wrapHunk) =
      decrN (countLines notAdded (cutBefore pt)) (OldLine wrapCutHeader) /\
    NewLine (HunkHeader_of wrapHunk) =
      decrN (countLines notRemoved (cutBefore pt))
            (NewLine wrapCutHeader) /\
    OldSpan (HunkHeader_of wrapHunk) =
      incrN (countLines notAdded (Lines wrapHunk)) 0 /\
    NewSpan (HunkHeader_of wrapHunk) =
      incrN (countLines notRemoved (Lines wrapHunk)) 0 /\
    (exists consumed pushed after,
        pending scanner = consumed ++ cutAfter pt ++ after /\
        dealt consumed pushed (cutLines pt) /\
        cutBefore pt = lastN (Z.to_nat (BeforeLines wrapParams)) pushed) /\
    (noOverflow hunkHeader (pending scanner) ->
     exists ahead after,
       pending scanner = ahead ++ cutLines pt ++ cutAfter pt ++ after /\
       cutBefore pt = lastN (Z.to_nat (BeforeLines wrapParams)) ahead).
Proof.
  split; [vm_compute; reflexivity|]. split; [reflexivity|].
  apply (lines_are_before_cut_after EmptyString demoParseDiffFileHeader
           demoParseDiffHunkHeader scenarioReader wrapParams
           wrapCutHeader wrapHunk);
    [vm_compute; reflexivity | reflexivity].
Defined.

(** A stream without a file header that ends by a read failure: DiffCut
    returns the read failure, not HunkNotFound. *)
Lemma read_failure_before_file_header :
  fileHeaderAbsent demoParseDiffFileHeader failingReader /\
  demoDiffCut failingReader scenarioParams =
    Ok (zeroHunkHeader, zeroHunk, Some (ErrRead 1)) /\
  demoDiffCut failingReader scenarioParams <>
    Ok (zeroHunkHeader, zeroHunk, Some ErrHunkNotFound).
Proof.
  split; [by repeat constructor|].
  split; [vm_compute; reflexivity | vm_compute; discriminate].
Qed.

Lemma hunk_not_found_witness :
  (rd_end plainReader = io_EOF /\
     fileHeaderAbsent demoParseDiffFileHeader plainReader \/
   rd_end plainReader = io_EOF /\
     hunkHeaderAbsent demoParseDiffFileHeader demoParseDiffHunkHeader
                      plainReader \/
   cutNotEntered EmptyString demoParseDiffFileHeader demoParseDiffHunkHeader
                 plainReader scenarioParams) /\
  demoDiffCut plainReader scenarioParams =
    Ok (zeroHunkHeader, zeroHunk, Some ErrHunkNotFound).
Proof.
  assert (H : rd_end plainReader = io_EOF /\
              fileHeaderAbsent demoParseDiffFileHeader plainReader).
  { split; [reflexivity|]. repeat constructor. }
  split; [left; exact H|].
  apply (hunk_not_found EmptyString demoParseDiffFileHeader
           demoParseDiffHunkHeader plainReader scenarioParams).
  left; exact H.
Defined.

(** With a limit of one line the cut has two lines. *)
Lemma cut_longer_than_limit :
  demoDiffCut scenarioReader limitParams =
    Ok (mkHunkHeader 5 2 5 1,
        mkHunk (mkHunkHeader 5 2 5 1) [ " a"; "-b" ]%string, None) /\
  demoDiffCutScan scenarioReader limitParams =
    Ok (inr (mkParts (mkHunkHeader 5 2 5 1) [] [ " a"; "-b" ]%string []
                     AtLineLimit)) /\
  ~ len [ " a"; "-b" ]%string <= LineLimit limitParams.
Proof.
  split; [vm_compute; reflexivity|].
  split; [vm_compute; reflexivity | vm_compute; by intros H].
Qed.

Lemma cut_at_most_limit_plus_one_witness :
  demoDiffCut scenarioReader limitParams =
    Ok (mkHunkHeader 5 2 5 1,
        mkHunk (mkHunkHeader 5 2 5 1) [ " a"; "-b" ]%string, None) /\
  exists pt,
    demoDiffCutScan scenarioReader limitParams = Ok (inr pt) /\
    [ " a"; "-b" ]%string = cutBefore pt ++ cutLines pt ++ cutAfter pt /\
    len (cutLines pt) <= Z.max 0 (LineLimit limitParams) + 1.
Proof.
  split; [vm_compute; reflexivity|].
  apply (cut_at_most_limit_plus_one EmptyString demoParseDiffFileHeader
           demoParseDiffHunkHeader scenarioReader limitParams
           (mkHunkHeader 5 2 5 1)
           (mkHunk (mkHunkHeader 5 2 5 1) [ " a"; "-b" ]%string)).
  vm_compute; reflexivity.
Defined.


(** An empty line read by the loop: the loop returns the error
    HunkNotFound, and so does DiffCut, for a range that has a line. *)
Lemma empty_line_is_an_error :
  pastLineEnd wholeHunkParams oneLineState = false /\
  pending emptyLineScanner = [ EmptyString; " b"%string ] /\
  isHunkLine EmptyString = false /\
  cutLoop wholeHunkParams emptyLineScanner oneLineState =
    Ok (LoopReturn ErrHunkNotFound) /\
  cutLoop wholeHunkParams emptyLineScanner oneLineState <>
    Ok (LoopBreak AtTerminator (Some io_EOF) oneLineState
                  (snd (Scan emptyLineScanner))) /\
  demoDiffCut emptyLineReader wholeHunkParams =
    Ok (zeroHunkHeader, zeroHunk, Some ErrHunkNotFound).
Proof.
  do 3 (split; [reflexivity|]).
  split; [vm_compute; reflexivity|].
  split; [vm_compute; discriminate | vm_compute; reflexivity].
Qed.

Lemma line_that_ends_the_hunk_witness :
  pastLineEnd wholeHunkParams oneLineState = false /\
  pending markerScanner =
    [ "\ No newline at end of file"; " b" ]%string /\
  isHunkLine "\ No newline at end of file" = false /\
  scanHunkLine markerScanner =
    (EmptyString, actionUnchanged, None, snd (Scan markerScanner)) /\
  cutLoop wholeHunkParams markerScanner oneLineState =
    Ok (LoopBreak AtTerminator (Some io_EOF) oneLineState
                  (snd (Scan markerScanner))) /\
  pending (snd (Scan markerScanner)) = [ " b"%string ] /\
  forall pt,
    collectContext wholeHunkParams AtTerminator (Some io_EOF) oneLineState
                   (snd (Scan markerScanner)) = Ok (inr pt) ->
    lines (linesBeforeBuf oneLineState) = Ok (cutBefore pt) /\
    cutLines pt = diffCut oneLineState /\ cutAfter pt = [].
Proof.
  do 3 (split; [reflexivity|]).
  apply (line_that_ends_the_hunk wholeHunkParams markerScanner oneLineState
           "\ No newline at end of file" [ " b"%string ]);
    reflexivity.
Defined.

(** The loop left at the safety break, the end of the range not reached:
    a line after the cut is collected. *)
Lemma context_after_safety_break :
  demoDiffCutLoop scenarioReader zeroLimitParams =
    Ok (inr (LoopBreak AtLineLimit None zeroLimitState zeroLimitScanner)) /\
  pastLineEnd zeroLimitParams zeroLimitState = false /\
  demoDiffCutScan scenarioReader zeroLimitParams =
    Ok (inr (mkParts (mkHunkHeader 5 1 5 1) [] [ " a"%string ]
                     [ "-b"%string ] AtLineLimit)).
Proof.
  split; [vm_compute; reflexivity|].
  split; [reflexivity | vm_compute; reflexivity].
Qed.

Lemma lines_after_the_cut_witness :
  demoDiffCutLoop scenarioReader zeroLimitParams =
    Ok (inr (LoopBreak AtLineLimit None zeroLimitState zeroLimitScanner)) /\
  inCut zeroLimitState = true /\
  lines (linesBeforeBuf zeroLimitState) = Ok [] /\
  Forall (fun l => isHunkLine l = true \/ l = EmptyString)
         (pending zeroLimitScanner) /\
  len [ "-b"%string ] <= Z.max 0 (AfterLines zeroLimitParams) /\
  Forall (fun l => l <> EmptyString) [ "-b"%string ] /\
  (exists post, pending zeroLimitScanner = [ "-b"%string ] ++ post) /\
  demoDiffCutScan scenarioReader zeroLimitParams =
    Ok (inr (mkParts (diffCutHeader zeroLimitState) []
                     (diffCut zeroLimitState) [ "-b"%string ] AtLineLimit)).
Proof.
  assert (Hall : Forall (fun l => isHunkLine l = true \/ l = EmptyString)
                        (pending zeroLimitScanner))
    by (repeat constructor).
  split; [vm_compute; reflexivity|]. do 2 (split; [reflexivity|]).
  split; [exact Hall|].
  apply (lines_after_the_cut EmptyString demoParseDiffFileHeader
           demoParseDiffHunkHeader scenarioReader zeroLimitParams
           AtLineLimit None zeroLimitState zeroLimitScanner []);
    [vm_compute; reflexivity | reflexivity | reflexivity | exact Hall].
Defined.

(** Old line 10 is new line 12, and two lines are inserted right before
    it: by the old number the cut starts at the first inserted line, by the
    new number at the line itself. *)
Lemma insertion_right_before_the_line :
  demoDiffCut insertionReader (withLineStart upToOld10 10 false) =
    Ok (mkHunkHeader 10 1 10 3,
        mkHunk (mkHunkHeader 10 1 10 3) [ "+x"; "+y"; " b" ]%string, None) /\
  demoDiffCut insertionReader (withLineStart upToOld10 12 true) =
    Ok (mkHunkHeader 10 1 12 1,
        mkHunk (mkHunkHeader 10 1 12 1) [ " b"%string ], None) /\
  demoDiffCut insertionReader (withLineStart upToOld10 10 false) <>
  demoDiffCut insertionReader (withLineStart upToOld10 12 true).
Proof.
  split; [vm_compute; reflexivity|].
  split; [vm_compute; reflexivity | vm_compute; discriminate].
Qed.

Lemma old_and_new_number_same_line_witness :
  demoScanHeaders alignedReader = inr (mkHunkHeader 8 3 8 5, alignedScanner) /\
  pending alignedScanner = [ " a"; "+x"; "+y"; " m" ]%string ++ [ " b"%string ] /\
  endsUnchanged [ " a"; "+x"; "+y"; " m" ]%string /\
  noOverflow (mkHunkHeader 8 3 8 5)
             ([ " a"; "+x"; "+y"; " m" ]%string ++ [ " b"%string ]) /\
  demoDiffCut alignedReader (withLineStart upToOld10 10 false) =
  demoDiffCut alignedReader (withLineStart upToOld10 12 true) /\
  match demoDiffCut alignedReader (withLineStart upToOld10 10 false) with
  | Ok (h, hunk, None) =>
      OldLine h = 10 /\ NewLine h = 12 /\
      exists pt,
        demoDiffCutScan alignedReader (withLineStart upToOld10 10 false) =
          Ok (inr pt) /\
        hd_error (cutLines pt) = Some " b"%string
  | _ => True
  end.
Proof.
  assert (Hpre : endsUnchanged [ " a"; "+x"; "+y"; " m" ]%string).
  { right. by exists [ " a"; "+x"; "+y" ]%string, " m"%string. }
  assert (Hfit : noOverflow (mkHunkHeader 8 3 8 5)
                   ([ " a"; "+x"; "+y"; " m" ]%string ++ [ " b"%string ])).
  { unfold noOverflow, len; simpl. lia. }
  split; [vm_compute; reflexivity|]. split; [reflexivity|].
  split; [exact Hpre|]. split; [exact Hfit|].
  apply (old_and_new_number_same_line EmptyString demoParseDiffFileHeader
           demoParseDiffHunkHeader alignedReader upToOld10
           (mkHunkHeader 8 3 8 5) alignedScanner
           [ " a"; "+x"; "+y"; " m" ]%string [ " b"%string ]);
    [vm_compute; reflexivity | reflexivity | exact Hpre | exact Hfit].
Defined.

Lemma ring_buffer_keeps_the_last_witness :
  0 <= 2 /\
  Z.min (len [ "a"; "b"; "c" ]%string) 2 < 2 ^ 62 /\
  exists b b',
    newStrCircBuf 2 = Ok b /\
    pushAll b [ "a"; "b"; "c" ]%string = Ok b' /\
    lines b' = Ok (lastN (Nat.min 3 (Z.to_nat 2)) [ "a"; "b"; "c" ]%string) /\
    (2 = 0 -> b' = b /\ lines b' = Ok []).
Proof.
  split; [lia|]. split; [reflexivity|].
  apply (ring_buffer_keeps_the_last 2 [ "a"; "b"; "c" ]%string);
    [lia | reflexivity].
Defined.

(** Three lines through a buffer of two: the last two come back. *)
Example ring_buffer_of_two :
  (b ← newStrCircBuf 2; b ← pushAll b [ "a"; "b"; "c" ]%string; lines b) =
  Ok [ "b"; "c" ]%string.
Proof. reflexivity. Qed.

Lemma error_returns_zero_values_witness :
  demoDiffCut scenarioReader missedParams =
    Ok (zeroHunkHeader, zeroHunk, Some ErrHunkNotFound) /\
  zeroHunkHeader = zeroHunkHeader /\ zeroHunk = zeroHunk /\
  OldLine zeroHunkHeader = 0 /\ OldSpan zeroHunkHeader = 0 /\
  NewLine zeroHunkHeader = 0 /\ NewSpan zeroHunkHeader = 0 /\
  Lines zeroHunk = [].
Proof.
  split; [vm_compute; reflexivity|].
  apply (error_returns_zero_values EmptyString demoParseDiffFileHeader
           demoParseDiffHunkHeader scenarioReader missedParams
           zeroHunkHeader zeroHunk ErrHunkNotFound).
  vm_compute; reflexivity.
Defined.

(** A read failure while the lines after the cut are collected: DiffCut
    returns it. *)
Example read_failure_after_the_cut :
  demoDiffCut (mkReader scenarioLines (ErrRead 7) 0)
              (mkParams 7 true 7 true 0 2 10) =
  Ok (zeroHunkHeader, zeroHunk, Some (ErrRead 7)).
Proof. vm_compute. reflexivity. Qed.

(** The same stream when the line after the cut is not asked for: the
    failure is not met. *)
Example read_failure_not_met :
  demoDiffCut (mkReader scenarioLines (ErrRead 7) 0)
              (mkParams 7 true 7 true 0 0 10) =
  Ok (mkHunkHeader 7 0 7 1,
      mkHunk (mkHunkHeader 7 0 7 1) [ "+d"%string ], None).
Proof. vm_compute. reflexivity. Qed.

Lemma DiffCut_returns_a_run_witness :
  demoDiffCut scenarioReader scenarioParams =
    Ok (scenarioCutHeader, scenarioHunk, None) /\
  demoScanHeaders scenarioReader = inr (scenarioHeader, scenarioScanner) /\
  noOverflow scenarioHeader (pending scenarioScanner) /\
  Z.min (len (pending scenarioScanner)) (BeforeLines scenarioParams)
    < 2 ^ 62 /\
  exists skipped before cut after rest,
    pending scenarioScanner = skipped ++ before ++ cut ++ after ++ rest /\
    Lines scenarioHunk = before ++ cut ++ after /\
    cut <> [] /\
    before =
      lastN (Z.to_nat (BeforeLines scenarioParams)) (skipped ++ before) /\
    OldLine scenarioCutHeader =
      OldLine scenarioHeader
      + Z.of_nat (countLines notAdded (skipped ++ before)) /\
    NewLine scenarioCutHeader =
      NewLine scenarioHeader
      + Z.of_nat (countLines notRemoved (skipped ++ before)) /\
    OldLine (HunkHeader_of scenarioHunk) =
      OldLine scenarioHeader + Z.of_nat (countLines notAdded skipped) /\
    NewLine (HunkHeader_of scenarioHunk) =
      NewLine scenarioHeader + Z.of_nat (countLines notRemoved skipped).
Proof.
  assert (Hfit : noOverflow scenarioHeader (pending scenarioScanner))
    by (unfold noOverflow, len; simpl; lia).
  split; [vm_compute; reflexivity|]. split; [vm_compute; reflexivity|].
  split; [exact Hfit|]. split; [reflexivity|].
  apply (DiffCut_returns_a_run EmptyString demoParseDiffFileHeader
           demoParseDiffHunkHeader scenarioReader scenarioParams
           scenarioCutHeader scenarioHunk scenarioHeader scenarioScanner);
    [vm_compute; reflexivity | vm_compute; reflexivity | exact Hfit
    | reflexivity].
Defined.

(** A negative BeforeLines: [make] panics once both headers are found. *)
Example negative_BeforeLines_panics :
  demoDiffCut scenarioReader (mkParams 6 false 6 false (-1) 1 10) = Panic /\
  demoDiffCut plainReader (mkParams 6 false 6 false (-1) 1 10) =
    Ok (zeroHunkHeader, zeroHunk, Some ErrHunkNotFound).
Proof. split; vm_compute; reflexivity. Qed.

(** A reader that hands over its last lines together with a read failure:
    the scanner has recorded the failure when the loop is left at the end
    of the range, and DiffCut returns it although no further line is
    asked for. *)
Example read_failure_recorded_ahead :
  demoDiffCut (mkReader scenarioLines (ErrRead 7) 9)
              (mkParams 6 false 6 false 0 0 10) =
  Ok (zeroHunkHeader, zeroHunk, Some (ErrRead 7)).
Proof. vm_compute. reflexivity. Qed.

(** ** The further properties on the streams above *)

Lemma errors_come_from_the_reader_witness :
  Forall fitsBuffer (rd_lines failingReader) /\
  demoDiffCut failingReader scenarioParams =
    Ok (zeroHunkHeader, zeroHunk, Some (ErrRead 1)) /\
  ErrRead 1 <> io_EOF /\
  (ErrRead 1 = ErrHunkNotFound \/ ErrRead 1 = rd_end failingReader).
Proof.
  assert (Hfits : Forall fitsBuffer (rd_lines failingReader))
    by (repeat constructor; vm_compute; discriminate).
  split; [exact Hfits|]. split; [vm_compute; reflexivity|].
  apply (errors_come_from_the_reader EmptyString demoParseDiffFileHeader
           demoParseDiffHunkHeader failingReader scenarioParams
           zeroHunkHeader zeroHunk (ErrRead 1));
    [exact Hfits | vm_compute; reflexivity].
Defined.

Lemma DiffCut_panics_on_negative_BeforeLines_only_witness :
  Forall fitsBuffer (rd_lines scenarioReader) /\
  (BeforeLines negativeBeforeParams < 0 \/
   makeGives (BeforeLines negativeBeforeParams)) /\
  demoDiffCut scenarioReader negativeBeforeParams = Panic /\
  (demoDiffCut scenarioReader negativeBeforeParams = Panic <->
   BeforeLines negativeBeforeParams < 0 /\
   exists hunkHeader scanner,
     demoScanHeaders scenarioReader = inr (hunkHeader, scanner)).
Proof.
  assert (Hfits : Forall fitsBuffer (rd_lines scenarioReader))
    by (repeat constructor; vm_compute; discriminate).
  split; [exact Hfits|]. split; [left; reflexivity|].
  split; [vm_compute; reflexivity|].
  apply (DiffCut_panics_on_negative_BeforeLines_only EmptyString
           demoParseDiffFileHeader demoParseDiffHunkHeader scenarioReader
           negativeBeforeParams); [exact Hfits | left; reflexivity].
Defined.

Lemma returned_lines_are_bounded_witness :
  demoDiffCut scenarioReader scenarioParams =
    Ok (scenarioCutHeader, scenarioHunk, None) /\
  0 <= BeforeLines scenarioParams /\
  len (Lines scenarioHunk) <=
    BeforeLines scenarioParams + (Z.max 0 (LineLimit scenarioParams) + 1)
    + Z.max 0 (AfterLines scenarioParams).
Proof.
  split; [vm_compute; reflexivity|].
  apply (returned_lines_are_bounded EmptyString demoParseDiffFileHeader
           demoParseDiffHunkHeader scenarioReader scenarioParams
           scenarioCutHeader scenarioHunk).
  vm_compute; reflexivity.
Defined.

Lemma without_context_the_headers_agree_witness :
  demoDiffCut scenarioReader wholeHunkParams =
    Ok (wholeHunkHeader, wholeHunk, None) /\
  BeforeLines wholeHunkParams = 0 /\
  OldLine (HunkHeader_of wholeHunk) = OldLine wholeHunkHeader /\
  NewLine (HunkHeader_of wholeHunk) = NewLine wholeHunkHeader /\
  (AfterLines wholeHunkParams <= 0 ->
   HunkHeader_of wholeHunk = wholeHunkHeader /\
   exists pt,
     demoDiffCutScan scenarioReader wholeHunkParams = Ok (inr pt) /\
     Lines wholeHunk = cutLines pt).
Proof.
  split; [vm_compute; reflexivity|]. split; [reflexivity|].
  apply (without_context_the_headers_agree EmptyString
           demoParseDiffFileHeader demoParseDiffHunkHeader scenarioReader
           wholeHunkParams wholeHunkHeader wholeHunk);
    [vm_compute; reflexivity | reflexivity].
Defined.

Lemma the_cut_is_the_range_witness :
  demoDiffCut scenarioReader scenarioParams =
    Ok (scenarioCutHeader, scenarioHunk, None) /\
  demoScanHeaders scenarioReader = inr (scenarioHeader, scenarioScanner) /\
  noOverflow scenarioHeader (pending scenarioScanner) /\
  exists pt ahead tail,
    demoDiffCutScan scenarioReader scenarioParams = Ok (inr pt) /\
    pending scenarioScanner = ahead ++ cutLines pt ++ tail /\
    cutLines pt <> [] /\
    aheadOfRange scenarioParams scenarioHeader ahead /\
    withinRange scenarioParams scenarioHeader ahead (cutLines pt) /\
    cutEndsBy scenarioParams scenarioHeader (ahead ++ cutLines pt)
              (cutLines pt) tail (cutBreak pt).
Proof.
  assert (Hfit : noOverflow scenarioHeader (pending scenarioScanner))
    by (unfold noOverflow, len; simpl; lia).
  split; [vm_compute; reflexivity|]. split; [vm_compute; reflexivity|].
  split; [exact Hfit|].
  apply (the_cut_is_the_range EmptyString demoParseDiffFileHeader
           demoParseDiffHunkHeader scenarioReader scenarioParams
           scenarioCutHeader scenarioHunk scenarioHeader scenarioScanner);
    [vm_compute; reflexivity | vm_compute; reflexivity | exact Hfit].
Defined.

Lemma cut_header_within_the_range_witness :
  demoDiffCut scenarioReader scenarioParams =
    Ok (scenarioCutHeader, scenarioHunk, None) /\
  demoScanHeaders scenarioReader = inr (scenarioHeader, scenarioScanner) /\
  noOverflow scenarioHeader (pending scenarioScanner) /\
  len (Lines scenarioHunk) < 2 ^ 63 /\
  LineStart scenarioParams <=
    (if LineStartNew scenarioParams
     then NewLine scenarioCutHeader else OldLine scenarioCutHeader) /\
  (if LineEndNew scenarioParams
   then NewLine scenarioCutHeader + NewSpan scenarioCutHeader
   else OldLine scenarioCutHeader + OldSpan scenarioCutHeader)
    <= LineEnd scenarioParams + 1.
Proof.
  assert (Hfit : noOverflow scenarioHeader (pending scenarioScanner))
    by (unfold noOverflow, len; simpl; lia).
  split; [vm_compute; reflexivity|]. split; [vm_compute; reflexivity|].
  split; [exact Hfit|]. split; [reflexivity|].
  apply (cut_header_within_the_range EmptyString demoParseDiffFileHeader
           demoParseDiffHunkHeader scenarioReader scenarioParams
           scenarioCutHeader scenarioHunk scenarioHeader scenarioScanner);
    [vm_compute; reflexivity | vm_compute; reflexivity | exact Hfit
    | reflexivity].
Defined.

Lemma start_after_end_finds_nothing_witness :
  LineStartNew emptyRangeParams = LineEndNew emptyRangeParams /\
  LineEnd emptyRangeParams < LineStart emptyRangeParams /\
  demoDiffCut scenarioReader emptyRangeParams =
    Ok (zeroHunkHeader, zeroHunk, Some ErrHunkNotFound) /\
  Some ErrHunkNotFound <> None /\
  zeroHunkHeader = zeroHunkHeader /\ zeroHunk = zeroHunk.
Proof.
  do 2 (split; [reflexivity|]). split; [vm_compute; reflexivity|].
  apply (start_after_end_finds_nothing EmptyString demoParseDiffFileHeader
           demoParseDiffHunkHeader scenarioReader emptyRangeParams
           zeroHunkHeader zeroHunk (Some ErrHunkNotFound));
    [reflexivity | reflexivity | vm_compute; reflexivity].
Defined.

Lemma context_does_not_change_the_cut_witness :
  demoDiffCut scenarioReader scenarioParams =
    Ok (scenarioCutHeader, scenarioHunk, None) /\
  demoDiffCut scenarioReader (withContext scenarioParams 0 2) =
    Ok (scenarioCutHeader, afterOnlyHunk, None) /\
  scenarioCutHeader = scenarioCutHeader /\
  exists pt pt',
    demoDiffCutScan scenarioReader scenarioParams = Ok (inr pt) /\
    demoDiffCutScan scenarioReader (withContext scenarioParams 0 2) =
      Ok (inr pt') /\
    cutLines pt = cutLines pt' /\
    cutBreak pt = cutBreak pt' /\
    Lines scenarioHunk = cutBefore pt ++ cutLines pt ++ cutAfter pt /\
    Lines afterOnlyHunk = cutBefore pt' ++ cutLines pt ++ cutAfter pt'.
Proof.
  split; [vm_compute; reflexivity|]. split; [vm_compute; reflexivity|].
  apply (context_does_not_change_the_cut EmptyString demoParseDiffFileHeader
           demoParseDiffHunkHeader scenarioReader scenarioParams 0 2
           scenarioCutHeader scenarioHunk scenarioCutHeader afterOnlyHunk);
    vm_compute; reflexivity.
Defined.

Lemma headers_are_the_first_matches_witness :
  rd_lines scenarioReader =
    [] ++ "diff --git a/f.txt b/f.txt"%string
       :: [ "--- a/f.txt"; "+++ b/f.txt" ]%string
       ++ "@@ -5,4 +5,5 @@"%string :: scenarioBody /\
  Forall (fun l => snd (demoParseDiffFileHeader l) = false) [] /\
  snd (demoParseDiffFileHeader "diff --git a/f.txt b/f.txt") = true /\
  Forall (fun l => snd (demoParseDiffHunkHeader l) = false)
         [ "--- a/f.txt"; "+++ b/f.txt" ]%string /\
  snd (demoParseDiffHunkHeader "@@ -5,4 +5,5 @@") = true /\
  exists scanner,
    demoScanHeaders scenarioReader =
      inr (fst (demoParseDiffHunkHeader "@@ -5,4 +5,5 @@"), scanner) /\
    pending scanner = scenarioBody /\
    ending scanner = rd_end scenarioReader.
Proof.
  assert (Hmid : Forall (fun l => snd (demoParseDiffHunkHeader l) = false)
                        [ "--- a/f.txt"; "+++ b/f.txt" ]%string)
    by (repeat constructor).
  split; [reflexivity|]. split; [constructor|]. split; [reflexivity|].
  split; [exact Hmid|]. split; [reflexivity|].
  apply (headers_are_the_first_matches EmptyString demoParseDiffFileHeader
           demoParseDiffHunkHeader scenarioReader []
           "diff --git a/f.txt b/f.txt"
           [ "--- a/f.txt"; "+++ b/f.txt" ]%string
           "@@ -5,4 +5,5 @@" scenarioBody);
    [reflexivity | constructor | reflexivity | exact Hmid | reflexivity].
Defined.

Lemma only_the_hunk_matters_witness :
  rd_lines scenarioReader =
    [] ++ "diff --git a/f.txt b/f.txt"%string
       :: [ "--- a/f.txt"; "+++ b/f.txt" ]%string
       ++ "@@ -5,4 +5,5 @@"%string :: scenarioBody /\
  rd_lines prefacedReader =
    [ "some text"%string ] ++ "diff --git a/g.txt b/g.txt"%string
       :: [] ++ "@@ -5,4 +5,5 @@"%string :: scenarioBody /\
  rd_end scenarioReader = rd_end prefacedReader /\
  rd_ahead scenarioReader = rd_ahead prefacedReader /\
  demoDiffCut scenarioReader scenarioParams =
  demoDiffCut prefacedReader scenarioParams.
Proof.
  do 4 (split; [reflexivity|]).
  apply (only_the_hunk_matters EmptyString demoParseDiffFileHeader
           demoParseDiffHunkHeader scenarioReader prefacedReader
           scenarioParams
           [] "diff --git a/f.txt b/f.txt"
           [ "--- a/f.txt"; "+++ b/f.txt" ]%string
           [ "some text"%string ] "diff --git a/g.txt b/g.txt" []
           "@@ -5,4 +5,5 @@" scenarioBody);
    try reflexivity; repeat constructor.
Defined.

Lemma a_line_within_the_range_is_found_witness :
  demoScanHeaders scenarioReader = inr (scenarioHeader, scenarioScanner) /\
  pending scenarioScanner =
    [ " a"%string ] ++ "-b"%string :: [ "+c"; "+d"; " e" ]%string /\
  rd_end scenarioReader = io_EOF /\
  Forall fitsBuffer (rd_lines scenarioReader) /\
  makeGives (BeforeLines scenarioParams) /\
  exists h hunk pt,
    demoDiffCut scenarioReader scenarioParams = Ok (h, hunk, None) /\
    demoDiffCutScan scenarioReader scenarioParams = Ok (inr pt) /\
    hd_error (cutLines pt) = Some "-b"%string /\
    OldLine h =
      OldLine scenarioHeader
      + Z.of_nat (countLines notAdded [ " a"%string ]) /\
    NewLine h =
      NewLine scenarioHeader
      + Z.of_nat (countLines notRemoved [ " a"%string ]).
Proof.
  assert (Hfits : Forall fitsBuffer (rd_lines scenarioReader))
    by (repeat constructor; vm_compute; discriminate).
  assert (Hmake : makeGives (BeforeLines scenarioParams))
    by (split; discriminate).
  split; [vm_compute; reflexivity|]. do 2 (split; [reflexivity|]).
  split; [exact Hfits|]. split; [exact Hmake|].
  apply (a_line_within_the_range_is_found EmptyString
           demoParseDiffFileHeader demoParseDiffHunkHeader scenarioReader
           scenarioParams scenarioHeader scenarioScanner
           [ " a"%string ] "-b" [ "+c"; "+d"; " e" ]%string).
  - vm_compute; reflexivity.
  - reflexivity.
  - reflexivity.
  - repeat constructor.
  - repeat constructor; discriminate.
  - unfold noOverflow, len; simpl; lia.
  - intros a1 x a2 H. destruct a1 as [|y [|z a1]]; [|discriminate H..].
    reflexivity.
  - intros a1 x a2 H. destruct a1 as [|y [|z a1]]; [|discriminate H..].
    discriminate.
  - discriminate.
  - discriminate.
  - exact Hfits.
  - exact Hmake.
Defined.

Lemma validated_input_takes_its_case_witness :
  pullreq.Validate codeCommentInput = None /\
  (pullreq.caseOf codeCommentInput = pullreq.ReplyCase <->
   pullreq.IsReply codeCommentInput = true) /\
  (pullreq.caseOf codeCommentInput = pullreq.CodeCommentCase <->
   pullreq.TargetCommitSHA codeCommentInput <> EmptyString) /\
  (pullreq.caseOf codeCommentInput = pullreq.CodeCommentCase ->
   pullreq.IsReply codeCommentInput = false /\
   pullreq.Path codeCommentInput <> EmptyString /\
   1 <= pullreq.LineStart codeCommentInput /\
   1 <= pullreq.LineEnd codeCommentInput).
Proof.
  split; [reflexivity|].
  apply (validated_input_takes_its_case codeCommentInput). reflexivity.
Defined.

Lemma read_failure_inside_the_range_witness :
  demoScanHeaders brokenReader = inr (scenarioHeader, brokenScanner) /\
  rd_end brokenReader <> io_EOF /\
  len (pending brokenScanner) <= LineLimit wholeHunkParams /\
  Forall fitsBuffer (rd_lines brokenReader) /\
  makeGives (BeforeLines wholeHunkParams) /\
  demoDiffCut brokenReader wholeHunkParams =
    Ok (zeroHunkHeader, zeroHunk, Some (rd_end brokenReader)).
Proof.
  assert (Hfits : Forall fitsBuffer (rd_lines brokenReader))
    by (repeat constructor; vm_compute; discriminate).
  assert (Hmake : makeGives (BeforeLines wholeHunkParams))
    by (split; discriminate).
  split; [vm_compute; reflexivity|]. split; [discriminate|].
  split; [discriminate|]. split; [exact Hfits|]. split; [exact Hmake|].
  apply (read_failure_inside_the_range EmptyString demoParseDiffFileHeader
           demoParseDiffHunkHeader brokenReader wholeHunkParams
           scenarioHeader brokenScanner).
  - vm_compute; reflexivity.
  - discriminate.
  - repeat constructor.
  - unfold noOverflow, len; simpl; lia.
  - intros a1 x a2 H. apply (f_equal length) in H.
    rewrite length_app in H. simpl in H.
    pose proof (countLines_le notAdded a1).
    unfold endNumber; simpl. lia.
  - unfold endNumber; simpl. lia.
  - discriminate.
  - exact Hfits.
  - exact Hmake.
Defined.

Lemma scanHunkLine_returns_witness :
  scanHunkLine scenarioScanner =
    (" a"%string, actionUnchanged, None, snd (Scan scenarioScanner)) /\
  (" a"%string <> EmptyString ->
   None = @None error /\ isHunkLine " a" = true /\
   firstAction " a" = Ok actionUnchanged /\
   pending scenarioScanner =
     " a"%string :: pending (snd (Scan scenarioScanner))) /\
  (" a"%string = EmptyString -> actionUnchanged = actionUnchanged) /\
  (@None error <> None -> " a"%string = EmptyString) /\
  (pending (snd (Scan scenarioScanner)) = pending scenarioScanner \/
   exists l, pending scenarioScanner =
             l :: pending (snd (Scan scenarioScanner))).
Proof.
  split; [reflexivity|].
  apply (scanHunkLine_returns scenarioScanner " a" actionUnchanged None
           (snd (Scan scenarioScanner))).
  reflexivity.
Defined.

Lemma only_the_line_numbers_are_taken_witness :
  (forall l,
      snd (demoParseDiffFileHeader l) = snd (bareParseDiffFileHeader l)) /\
  (forall l,
      snd (demoParseDiffHunkHeader l) = snd (bareParseDiffHunkHeader l) /\
      (snd (demoParseDiffHunkHeader l) = true ->
       OldLine (fst (demoParseDiffHunkHeader l)) =
         OldLine (fst (bareParseDiffHunkHeader l)) /\
       NewLine (fst (demoParseDiffHunkHeader l)) =
         NewLine (fst (bareParseDiffHunkHeader l)))) /\
  demoDiffCut scenarioReader scenarioParams =
  DiffCut tt bareParseDiffFileHeader bareParseDiffHunkHeader
          scenarioReader scenarioParams.
Proof.
  assert (Hfile : forall l,
             snd (demoParseDiffFileHeader l) =
             snd (bareParseDiffFileHeader l)) by reflexivity.
  assert (Hhunk : forall l,
             snd (demoParseDiffHunkHeader l) =
               snd (bareParseDiffHunkHeader l) /\
             (snd (demoParseDiffHunkHeader l) = true ->
              OldLine (fst (demoParseDiffHunkHeader l)) =
                OldLine (fst (bareParseDiffHunkHeader l)) /\
              NewLine (fst (demoParseDiffHunkHeader l)) =
                NewLine (fst (bareParseDiffHunkHeader l)))).
  { intros l. unfold bareParseDiffHunkHeader.
    destruct (demoParseDiffHunkHeader l) as [hh ok]. simpl.
    split; [reflexivity|]. intros _. split; reflexivity. }
  split; [exact Hfile|]. split; [exact Hhunk|].
  exact (only_the_line_numbers_are_taken EmptyString tt
           demoParseDiffFileHeader bareParseDiffFileHeader
           demoParseDiffHunkHeader bareParseDiffHunkHeader
           scenarioReader scenarioParams Hfile Hhunk).
Defined.

Lemma lines_after_the_cut_are_not_classified_witness :
  demoDiffCut markerReader oneAfterParams =
    Ok (mkHunkHeader 6 1 6 0, markerHunk, None) /\
  demoDiffCutLoop markerReader oneAfterParams =
    Ok (inr (LoopBreak AtRangeEnd None markerState markerAfterCut)) /\
  isHunkLine "\ No newline at end of file" = false /\
  exists pt,
    demoDiffCutScan markerReader oneAfterParams = Ok (inr pt) /\
    Lines markerHunk = cutBefore pt ++ cutLines pt ++ cutAfter pt /\
    hd_error (cutAfter pt) = Some "\ No newline at end of file"%string /\
    (isHunkLine "\ No newline at end of file" = false ->
     notAdded "\ No newline at end of file" = true /\
     notRemoved "\ No newline at end of file" = true).
Proof.
  split; [vm_compute; reflexivity|]. split; [vm_compute; reflexivity|].
  split; [reflexivity|].
  apply (lines_after_the_cut_are_not_classified EmptyString
           demoParseDiffFileHeader demoParseDiffHunkHeader markerReader
           oneAfterParams (mkHunkHeader 6 1 6 0) markerHunk AtRangeEnd None
           markerState markerAfterCut "\ No newline at end of file" []);
    [vm_compute; reflexivity | vm_compute; reflexivity | discriminate
    | reflexivity | reflexivity | discriminate].
Defined.

Lemma the_cut_starts_by_LineStart_witness :
  demoDiffCut scenarioReader scenarioParams =
    Ok (scenarioCutHeader, scenarioHunk, None) /\
  demoDiffCut scenarioReader sameStartParams =
    Ok (mkHunkHeader 6 2 6 3,
        mkHunk (mkHunkHeader 6 2 6 3) [ "-b"; "+c"; "+d"; " e" ]%string,
        None) /\
  LineStart scenarioParams = LineStart sameStartParams /\
  LineStartNew scenarioParams = LineStartNew sameStartParams /\
  OldLine scenarioCutHeader = 6 /\ NewLine scenarioCutHeader = 6 /\
  exists pt pt',
    demoDiffCutScan scenarioReader scenarioParams = Ok (inr pt) /\
    demoDiffCutScan scenarioReader sameStartParams = Ok (inr pt') /\
    hd_error (cutLines pt) = hd_error (cutLines pt').
Proof.
  split; [vm_compute; reflexivity|]. split; [vm_compute; reflexivity|].
  do 2 (split; [reflexivity|]).
  apply (the_cut_starts_by_LineStart EmptyString demoParseDiffFileHeader
           demoParseDiffHunkHeader scenarioReader scenarioParams
           sameStartParams scenarioCutHeader scenarioHunk
           (mkHunkHeader 6 2 6 3)
           (mkHunk (mkHunkHeader 6 2 6 3) [ "-b"; "+c"; "+d"; " e" ]%string)
           scenarioHeader scenarioScanner);
    [vm_compute; reflexivity | vm_compute; reflexivity | reflexivity
    | reflexivity | vm_compute; reflexivity
    | unfold noOverflow, len; simpl; lia].
Defined.
